(** * CALC / keisan: the progression tracker and the drum step sequencer

    A shallow embedding of [assets/js/app.js].  JavaScript numbers that the
    program only ever uses as integers are modelled by [Z]; audio-clock
    times and the values drawn from [Math.random] by [Q]; strings coming
    from the answer field by lists of UTF-16 code units.  The mutable
    [state] object, the private variables of the drum engine closure, the
    browser's table of pending timers and the trace of side effects are
    gathered in one [World] record that every function threads
    explicitly. *)

From Stdlib Require Import ZArith QArith Qround Qminmax List Bool String Lia Lqa.
Import ListNotations.

Local Open Scope Z_scope.

(** ** Configuration *)

Definition FIXED_BPM : Z := 120.

Module SETTINGS.
Definition nextDelayMs : Q := 650 # 1.
Definition unlockHihatAt : Z := 10.
Definition unlockSnareAt : Z := 20.
Definition lookaheadMs : Q := 40 # 1.
Definition scheduleAheadSec : Q := 15 # 100.
Definition stepsPerBar : Z := 16.
Definition barsCycle : Z := 64.
Definition bgmStageMax : Z := 3.
Definition bgmSwitchEveryCorrect : Z := 5.
Definition stageClearEveryCorrect : Z := 20.
Definition muteOnWrongSteps : Z := 4.
End SETTINGS.

(** The [mode] string of a difficulty preset, and of a picked operation. *)
Inductive Mode := ModeAdd | ModeSub | ModeMul | ModeDiv | ModeMix.

Definition Mode_eqb (x y : Mode) : bool :=
  match x, y with
  | ModeAdd, ModeAdd | ModeSub, ModeSub | ModeMul, ModeMul
  | ModeDiv, ModeDiv | ModeMix, ModeMix => true
  | _, _ => false
  end.

Record Difficulty := mkDifficulty {
  dmin : Z;
  dmax : Z;
  dmode : Mode;
  allowNegative : bool
}.

(** Difficulty presets by stage (0-based). Stage 3+ uses a formula. *)
Definition difficultyForStage (stage : Z) : Difficulty :=
  if stage <=? 0 then mkDifficulty 1 20 ModeSub false
  else if stage =? 1 then mkDifficulty 1 30 ModeMix false
  else if stage =? 2 then mkDifficulty 2 30 ModeMix false
  else mkDifficulty 2 (40 + (stage - 3) * 10) ModeMix false.

(** ** State *)

Record State := mkState {
  currentAnswer : Z;
  correctTotal : Z;
  stageCorrect : Z;
  difficultyStage : Z;
  drumLevel : Z;
  bgmStage : Z;
  muteSteps : Z;
  step : Z;
  barCounter : Z;
  soundEnabled : bool;
  diff : Difficulty
}.

Definition state0 : State :=
  mkState 0 0 0 0 0 0 0 0 0 false (difficultyForStage 0).

Definition set_currentAnswer (v : Z) (s : State) : State :=
  mkState v (correctTotal s) (stageCorrect s) (difficultyStage s) (drumLevel s)
    (bgmStage s) (muteSteps s) (step s) (barCounter s) (soundEnabled s) (diff s).
Definition set_correctTotal (v : Z) (s : State) : State :=
  mkState (currentAnswer s) v (stageCorrect s) (difficultyStage s) (drumLevel s)
    (bgmStage s) (muteSteps s) (step s) (barCounter s) (soundEnabled s) (diff s).
Definition set_stageCorrect (v : Z) (s : State) : State :=
  mkState (currentAnswer s) (correctTotal s) v (difficultyStage s) (drumLevel s)
    (bgmStage s) (muteSteps s) (step s) (barCounter s) (soundEnabled s) (diff s).
Definition set_difficultyStage (v : Z) (s : State) : State :=
  mkState (currentAnswer s) (correctTotal s) (stageCorrect s) v (drumLevel s)
    (bgmStage s) (muteSteps s) (step s) (barCounter s) (soundEnabled s) (diff s).
Definition set_drumLevel (v : Z) (s : State) : State :=
  mkState (currentAnswer s) (correctTotal s) (stageCorrect s) (difficultyStage s) v
    (bgmStage s) (muteSteps s) (step s) (barCounter s) (soundEnabled s) (diff s).
Definition set_bgmStage (v : Z) (s : State) : State :=
  mkState (currentAnswer s) (correctTotal s) (stageCorrect s) (difficultyStage s)
    (drumLevel s) v (muteSteps s) (step s) (barCounter s) (soundEnabled s) (diff s).
Definition set_muteSteps (v : Z) (s : State) : State :=
  mkState (currentAnswer s) (correctTotal s) (stageCorrect s) (difficultyStage s)
    (drumLevel s) (bgmStage s) v (step s) (barCounter s) (soundEnabled s) (diff s).
Definition set_step (v : Z) (s : State) : State :=
  mkState (currentAnswer s) (correctTotal s) (stageCorrect s) (difficultyStage s)
    (drumLevel s) (bgmStage s) (muteSteps s) v (barCounter s) (soundEnabled s) (diff s).
Definition set_barCounter (v : Z) (s : State) : State :=
  mkState (currentAnswer s) (correctTotal s) (stageCorrect s) (difficultyStage s)
    (drumLevel s) (bgmStage s) (muteSteps s) (step s) v (soundEnabled s) (diff s).
Definition set_soundEnabled (v : bool) (s : State) : State :=
  mkState (currentAnswer s) (correctTotal s) (stageCorrect s) (difficultyStage s)
    (drumLevel s) (bgmStage s) (muteSteps s) (step s) (barCounter s) v (diff s).
Definition set_diff (v : Difficulty) (s : State) : State :=
  mkState (currentAnswer s) (correctTotal s) (stageCorrect s) (difficultyStage s)
    (drumLevel s) (bgmStage s) (muteSteps s) (step s) (barCounter s) (soundEnabled s) v.

(** ** Strings of the answer field *)

Module JsString.

(** A JavaScript string: a sequence of UTF-16 code units. *)
Definition t := list N.

Definition of_string (s : string) : t :=
  map Ascii.N_of_ascii (list_ascii_of_string s).

Local Open Scope N_scope.

(** What [String.prototype.trim] strips: WhiteSpace and LineTerminator. *)
Definition isWhiteSpace (c : N) : bool :=
  ((9 <=? c) && (c <=? 13)) || (c =? 32) || (c =? 160) || (c =? 5760)
  || ((8192 <=? c) && (c <=? 8202)) || (c =? 8232) || (c =? 8233)
  || (c =? 8239) || (c =? 8287) || (c =? 12288) || (c =? 65279).

Fixpoint trimStart (s : t) : t :=
  match s with
  | c :: r => if isWhiteSpace c then trimStart r else s
  | [] => []
  end.

Definition trim (s : t) : t := rev (trimStart (rev (trimStart s))).

(** [\d] *)
Definition isDigit (c : N) : bool := (48 <=? c) && (c <=? 57).

Definition isMinus (c : N) : bool := c =? 45.

(** [/^\d+$/] *)
Definition allDigits1 (s : t) : bool :=
  match s with
  | [] => false
  | _ => forallb isDigit s
  end.

(** [/^-?\d+$/] *)
Definition isIntLiteral (s : t) : bool :=
  match s with
  | c :: r => if isMinus c then allDigits1 r else allDigits1 s
  | [] => false
  end.

(** The value of a run of decimal digits, most significant first. *)
Fixpoint digitsValue (acc : Z) (s : t) : Z :=
  match s with
  | c :: r => digitsValue (10 * acc + Z.of_N (c - 48))%Z r
  | [] => acc
  end.

(** [Number(s)] for an [s] accepted by [isIntLiteral]. *)
Definition toNumber (s : t) : Z :=
  match s with
  | c :: r => if isMinus c then (- digitsValue 0 r)%Z else digitsValue 0 s
  | [] => 0%Z
  end.

End JsString.

(** ** Utilities (pure) *)

(** [randInt(min, max)], given the value [r] returned by [Math.random()]. *)
Definition randInt (r : Q) (min max : Z) : Z :=
  Qfloor (r * inject_Z (max - min + 1)) + min.

(** What [parseAnswer] returns: [null], [NaN] or a number. *)
Inductive Parsed := PNull | PNaN | PNum (v : Z).

(** [raw] is [None] for a [null] or [undefined] argument. *)
Definition parseAnswer (raw : option JsString.t) : Parsed :=
  let s := JsString.trim (match raw with Some x => x | None => [] end) in
  match s with
  | [] => PNull
  | _ => if negb (JsString.isIntLiteral s) then PNaN else PNum (JsString.toNumber s)
  end.

Definition computeDrumLevel (stageCorrect : Z) : Z :=
  if stageCorrect >=? SETTINGS.unlockSnareAt then 2
  else if stageCorrect >=? SETTINGS.unlockHihatAt then 1
  else 0.

Definition computeBgmStage (stageCorrect : Z) : Z :=
  let stage := stageCorrect / SETTINGS.bgmSwitchEveryCorrect in
  Z.min stage SETTINGS.bgmStageMax.

(** ** The random source

    [Math.random] is modelled by an infinite stream of rationals; each call
    consumes the head.  The generator functions thread the stream through a
    small state monad. *)

Definition Stream := nat -> Q.

Definition Gen (A : Type) := Stream -> A * Stream.

Definition ret {A} (x : A) : Gen A := fun s => (x, s).

Definition bind {A B} (c : Gen A) (k : A -> Gen B) : Gen B :=
  fun s => k (fst (c s)) (snd (c s)).

Notation "x <- c ;; k" := (bind c (fun x => k))
  (at level 61, c at next level, right associativity).

Definition mathRandom : Gen Q := fun s => (s 0%nat, fun n => s (S n)).

Definition randIntG (min max : Z) : Gen Z :=
  r <- mathRandom ;; ret (randInt r min max).

(** ** Numbers

    A JavaScript number is an IEEE 754 double.  The integers the program
    computes with are doubles too: the integer result of an addition, a
    subtraction or a multiplication is the exact result rounded to the
    nearest double, ties to the even significand, so it is the exact result
    as long as its magnitude stays below 2^53.  (Magnitudes from 2^1024 on,
    which overflow to [Infinity], are out of the model.) *)

Definition toDouble (z : Z) : Z :=
  let m := Z.abs z in
  if m <? 2 ^ 53 then z
  else
    let e := Z.log2 m - 52 in
    let q := m / 2 ^ e in
    let r := m mod 2 ^ e in
    let half := 2 ^ (e - 1) in
    let q' := if (half <? r) || ((r =? half) && Z.odd q) then q + 1 else q in
    Z.sgn z * (q' * 2 ^ e).

Definition jsAdd (x y : Z) : Z := toDouble (x + y).
Definition jsSub (x y : Z) : Z := toDouble (x - y).
Definition jsMul (x y : Z) : Z := toDouble (x * y).

(** ** Problems *)

Inductive Op := OpPlus | OpMinus | OpTimes | OpDivide.

Record Problem := mkProblem {
  pa : Z;
  pb : Z;
  pop : Op;
  panswer : Z
}.

(** [modes[i]]: [None] stands for [undefined] (index out of range). *)
Definition index {A} (l : list A) (i : Z) : option A :=
  if i <? 0 then None else nth_error l (Z.to_nat i).

Definition pickMode (s : State) : Gen (option Mode) :=
  if negb (Mode_eqb (dmode (diff s)) ModeMix) then ret (Some (dmode (diff s)))
  else
    let st := difficultyStage s in
    let modes :=
      if st <=? 0 then [ModeSub]
      else if st =? 1 then [ModeAdd; ModeSub]
      else if st =? 2 then [ModeAdd; ModeSub; ModeMul]
      else [ModeAdd; ModeSub; ModeMul; ModeDiv] in
    i <- randIntG 0 (Z.of_nat (List.length modes) - 1) ;;
    ret (index modes i).

Definition buildProblem (s : State) : Gen Problem :=
  mode <- pickMode s ;;
  a <- randIntG (dmin (diff s)) (dmax (diff s)) ;;
  b <- randIntG (dmin (diff s)) (dmax (diff s)) ;;
  match mode with
  | Some ModeAdd => ret (mkProblem a b OpPlus (jsAdd a b))
  | Some ModeSub =>
      if negb (allowNegative (diff s)) && (a <? b)
      then ret (mkProblem b a OpMinus (jsSub b a))
      else ret (mkProblem a b OpMinus (jsSub a b))
  | Some ModeMul => ret (mkProblem a b OpTimes (jsMul a b))
  | Some ModeDiv =>
      (* Build a divisible pair: a / b = k *)
      k <- randIntG (dmin (diff s)) (dmax (diff s)) ;;
      b' <- randIntG (dmin (diff s)) (dmax (diff s)) ;;
      ret (mkProblem (jsMul b' k) b' OpDivide k)
  | _ => ret (mkProblem a b OpPlus (jsAdd a b))
  end.

(** ** The world around the state object *)

(** Private variables of the drum engine closure. *)
Record Hits := mkHits { hkick : bool; hsnare : bool }.

Record Engine := mkEngine {
  audioCtx : bool;               (* created yet? *)
  timerId : option nat;
  running : bool;
  nextTime : Q;
  uiPulseTimer : option nat;
  uiPulseHits : Hits
}.

Definition engine0 : Engine :=
  mkEngine false None false 0 None (mkHits false false).

(** Callbacks handed to [setInterval] / [setTimeout]. *)
Inductive Callback := CbTick | CbUiPulse | CbNewProblem.

Record Timer := mkTimer { tid : nat; tdelay : Q; tcallback : Callback }.

Inductive Audio := correctSound | wrongSound | bgmSwitchSound | stageClearSound.
Inductive Node := NFormula | NBody | NContainer.
Inductive Cue := CueBgmSwitch | CueStageClear.

(** Observable side effects, in the order they happen.  [FxCue] records
    that [playBgmSwitchSe] / [playStageClearSe] was invoked, [FxPlay] that
    [safePlay] was reached for the element; writes to optional elements are
    recorded as if the element is present. *)
Inductive Effect :=
| FxFocus
| FxSelect
| FxCorrectTotalText (v : Z)
| FxDrumLevelLabel (s : string)
| FxSoundToggleText (s : string)
| FxDrumToggleText (s : string)
| FxProblem (p : Problem)
| FxRetryText
| FxRetrigger (n : Node) (classes : list string)
| FxRetriggerBatch (entries : list (Node * list string))
| FxRemoveClasses (n : Node) (classes : list string)
| FxAddClasses (n : Node) (classes : list string)
| FxCue (c : Cue)
| FxPlay (a : Audio)
| FxKick (time : Q)
| FxHihat (time : Q)
| FxSnare (time : Q).

Record World := mkWorld {
  state : State;
  drum : Engine;
  timers : list Timer;          (* pending window timers *)
  nextTimerId : nat;
  answerValue : JsString.t;     (* el.answer.value *)
  random : Stream;
  effects : list Effect
}.

Definition with_state (f : State -> State) (w : World) : World :=
  mkWorld (f (state w)) (drum w) (timers w) (nextTimerId w) (answerValue w)
    (random w) (effects w).
Definition with_drum (f : Engine -> Engine) (w : World) : World :=
  mkWorld (state w) (f (drum w)) (timers w) (nextTimerId w) (answerValue w)
    (random w) (effects w).
Definition set_timers (ts : list Timer) (w : World) : World :=
  mkWorld (state w) (drum w) ts (nextTimerId w) (answerValue w)
    (random w) (effects w).
Definition set_answerValue (v : JsString.t) (w : World) : World :=
  mkWorld (state w) (drum w) (timers w) (nextTimerId w) v (random w) (effects w).
Definition emit (e : Effect) (w : World) : World :=
  mkWorld (state w) (drum w) (timers w) (nextTimerId w) (answerValue w)
    (random w) (effects w ++ [e]).

(** [window.setTimeout] / [window.setInterval]: a fresh positive handle. *)
Definition addTimer (cb : Callback) (delay : Q) (w : World) : nat * World :=
  (nextTimerId w,
   mkWorld (state w) (drum w) (timers w ++ [mkTimer (nextTimerId w) delay cb])
     (S (nextTimerId w)) (answerValue w) (random w) (effects w)).

(** [window.clearTimeout] / [window.clearInterval]. *)
Definition dropTimer (id : nat) (ts : list Timer) : list Timer :=
  filter (fun t => negb (tid t =? id)%nat) ts.

Definition clearTimer (id : nat) (w : World) : World :=
  set_timers (dropTimer id (timers w)) w.

Definition set_audioCtx (v : bool) (e : Engine) : Engine :=
  mkEngine v (timerId e) (running e) (nextTime e) (uiPulseTimer e) (uiPulseHits e).
Definition set_timerId (v : option nat) (e : Engine) : Engine :=
  mkEngine (audioCtx e) v (running e) (nextTime e) (uiPulseTimer e) (uiPulseHits e).
Definition set_running (v : bool) (e : Engine) : Engine :=
  mkEngine (audioCtx e) (timerId e) v (nextTime e) (uiPulseTimer e) (uiPulseHits e).
Definition set_nextTime (v : Q) (e : Engine) : Engine :=
  mkEngine (audioCtx e) (timerId e) (running e) v (uiPulseTimer e) (uiPulseHits e).
Definition set_uiPulseTimer (v : option nat) (e : Engine) : Engine :=
  mkEngine (audioCtx e) (timerId e) (running e) (nextTime e) v (uiPulseHits e).
Definition set_uiPulseHits (v : Hits) (e : Engine) : Engine :=
  mkEngine (audioCtx e) (timerId e) (running e) (nextTime e) (uiPulseTimer e) v.

(** ** DOM helpers *)

Definition focusAnswer (select : bool) (w : World) : World :=
  let w := emit FxFocus w in
  if select then emit FxSelect w else w.

Definition renderStats (w : World) : World :=
  let w := emit (FxCorrectTotalText (correctTotal (state w))) w in
  emit (FxDrumLevelLabel
          (if drumLevel (state w) =? 0 then "KICK"%string
           else if drumLevel (state w) =? 1 then "K+HAT"%string
           else "K+H+SNR"%string)) w.

Definition renderSoundToggle (w : World) : World :=
  emit (FxSoundToggleText
          (if soundEnabled (state w) then "SFX OFF"%string else "SFX ON"%string)) w.

Definition renderProblem (p : Problem) (w : World) : World :=
  let w := emit (FxProblem p) w in
  let w := set_answerValue [] w in
  focusAnswer false w.

Definition showRetryText (w : World) : World := emit FxRetryText w.

(** ** Audio helpers (side effects) *)

Definition safePlay (a : Audio) (w : World) : World := emit (FxPlay a) w.

Definition safePlaySfx (a : Audio) (w : World) : World :=
  if negb (soundEnabled (state w)) then w else safePlay a w.

Definition isRunning (w : World) : bool := running (drum w).

Definition playCorrectFx (w : World) : World :=
  let w := emit (FxRetrigger NFormula ["flash-ok"; "scan"]%string) w in
  safePlaySfx correctSound w.

Definition playWrongFx (w : World) : World :=
  let w := showRetryText w in
  let w := emit (FxRetrigger NFormula ["flash-ng"; "shake"; "show-retry"]%string) w in
  let w := safePlaySfx wrongSound w in
  (* mute next beat only when SFX is enabled and BGM is running *)
  if soundEnabled (state w) && isRunning w
  then with_state (set_muteSteps SETTINGS.muteOnWrongSteps) w
  else w.

Definition playBgmSwitchSe (w : World) : World :=
  safePlaySfx bgmSwitchSound (emit (FxCue CueBgmSwitch) w).

Definition playStageClearSe (w : World) : World :=
  safePlaySfx stageClearSound (emit (FxCue CueStageClear) w).

(** ** Drum engine (Web Audio) *)

Definition ensureCtx (w : World) : World := with_drum (set_audioCtx true) w.

(** The synthesiser voices: only the fact that a voice was scheduled at
    [time] is recorded. *)
Definition playKick (time : Q) (w : World) : World := emit (FxKick time) (ensureCtx w).
Definition playHihat (time : Q) (w : World) : World := emit (FxHihat time) (ensureCtx w).
Definition playSnare (time : Q) (w : World) : World := emit (FxSnare time) (ensureCtx w).

Definition noHits : Hits := mkHits false false.

(** UI pulse queue (per step -> single timer).  [now] is what
    [ctx.currentTime] reads during the call. *)
Definition queueUiPulse (now time : Q) (hits : Hits) (w : World) : World :=
  (* Merge hits for this step/time *)
  let w := with_drum (fun e =>
             set_uiPulseHits (mkHits (hkick (uiPulseHits e) || hkick hits)
                                     (hsnare (uiPulseHits e) || hsnare hits)) e) w in
  (* Ensure only one timer is scheduled *)
  match uiPulseTimer (drum w) with
  | Some _ => w
  | None =>
      let w := ensureCtx w in
      let delayMs := Qmax 0 ((time - now) * (1000 # 1)) in
      let iw := addTimer CbUiPulse delayMs w in
      with_drum (set_uiPulseTimer (Some (fst iw))) (snd iw)
  end.

(** The function handed to [setTimeout] by [queueUiPulse]. *)
Definition uiPulseCallback (w : World) : World :=
  let w := with_drum (set_uiPulseTimer None) w in
  if negb (running (drum w)) then with_drum (set_uiPulseHits noHits) w
  else
    let h := uiPulseHits (drum w) in
    let bodyClasses :=
      (if hkick h then ["bg-kick"%string] else [])
      ++ (if hsnare h then ["scan-snare"%string] else []) in
    let containerClasses :=
      (if hkick h then ["ui-kick"%string] else [])
      ++ (if hsnare h then ["ui-snare"%string] else []) in
    let w := with_drum (set_uiPulseHits noHits) w in
    let entries :=
      (match bodyClasses with [] => [] | _ => [(NBody, bodyClasses)] end)
      ++ (match containerClasses with [] => [] | _ => [(NContainer, containerClasses)] end) in
    emit (FxRetriggerBatch entries) w.

(** The tail of both branches of [scheduleStep]: one step forward, with
    carry into the bar counter. *)
Definition advanceTransport (s : State) : State :=
  let s := set_step (step s + 1) s in
  if step s >=? SETTINGS.stepsPerBar
  then let s := set_step 0 s in
       set_barCounter (Z.rem (barCounter s + 1) SETTINGS.barsCycle) s
  else s.

Definition kickHit (s : State) : bool :=
  let stage := bgmStage s in
  (Z.rem (step s) 4 =? 0)
  || ((stage >=? 1) && ((step s =? 10) || (step s =? 14)))
  || ((stage >=? 2) && (step s =? 7))
  || ((stage >=? 3) && ((step s =? 3) || (step s =? 11))).

Definition hatHit (s : State) : bool :=
  if bgmStage s >=? 3 then true else (Z.rem (step s) 2 =? 0).

Definition snareHit (s : State) : bool :=
  if drumLevel s >=? 2
  then
    let hit := (step s =? 4) || (step s =? 12) in
    if (bgmStage s >=? 3) && (step s =? 15) && (Z.rem (barCounter s) 4 =? 3)
    then true else hit
  else false.

(** The part of [scheduleStep] below the mute handling. *)
Definition soundStep (now time : Q) (w : World) : World :=
  let k := kickHit (state w) in
  let w := if k then playKick time w else w in
  let w :=
    if drumLevel (state w) >=? 1
    then if hatHit (state w) then playHihat time w else w
    else w in
  let sn := snareHit (state w) in
  let w := if sn then playSnare time w else w in
  (* UI pulses: single timer per step *)
  let w := if k || sn then queueUiPulse now time (mkHits k sn) w else w in
  with_state advanceTransport w.

Definition scheduleStep (now time : Q) (w : World) : World :=
  if muteSteps (state w) >? 0
  then
    let w := with_state (fun s => set_muteSteps (muteSteps s - 1) s) w in
    with_state advanceTransport w
  else soundStep now time w.

Definition secondsPerBeat : Q := inject_Z 60 / inject_Z FIXED_BPM.
Definition secondsPerStep : Q := secondsPerBeat / (4 # 1).

(** The [while] loop of [tick]; [ctx.currentTime] does not move during the
    synchronous loop. *)
Fixpoint tickLoop (fuel : nat) (now : Q) (w : World) : World :=
  match fuel with
  | O => w
  | S fuel' =>
      if Qlt_le_dec (nextTime (drum w)) (now + SETTINGS.scheduleAheadSec)
      then
        let w := scheduleStep now (nextTime (drum w)) w in
        let w := with_drum (fun e => set_nextTime (nextTime e + secondsPerStep) e) w in
        tickLoop fuel' now w
      else w
  end.

(** Number of iterations after which the loop condition is false. *)
Definition tickFuel (now : Q) (w : World) : nat :=
  Z.to_nat (Qceiling ((now + SETTINGS.scheduleAheadSec - nextTime (drum w))
                      / secondsPerStep)).

Definition tick (now : Q) (w : World) : World :=
  let w := ensureCtx w in
  tickLoop (tickFuel now w) now w.

(** [start], from the point where the context is no longer suspended. *)
Definition start (now : Q) (w : World) : World :=
  let w := ensureCtx w in
  if running (drum w) then w
  else
    let w := with_drum (set_running true) w in
    let w := emit (FxDrumToggleText "BGM OFF") w in
    let w := with_drum (set_nextTime (now + (5 # 100))) w in
    let iw := addTimer CbTick SETTINGS.lookaheadMs w in
    with_drum (set_timerId (Some (fst iw))) (snd iw).

Definition stop (w : World) : World :=
  let w := match timerId (drum w) with
           | Some id => if (id =? 0)%nat then w else clearTimer id w
           | None => w
           end in
  let w := with_drum (set_timerId None) w in
  let w := with_drum (set_running false) w in
  let w := emit (FxDrumToggleText "BGM ON") w in
  let w := match uiPulseTimer (drum w) with
           | Some id => clearTimer id w
           | None => w
           end in
  let w := with_drum (set_uiPulseTimer None) w in
  with_drum (set_uiPulseHits noHits) w.

Definition resetTransport (w : World) : World :=
  with_state (fun s => set_barCounter 0 (set_step 0 s)) w.

(** ** Game logic *)

Definition setBgmStageFromStageCorrect (w : World) : World :=
  let next := computeBgmStage (stageCorrect (state w)) in
  if next =? bgmStage (state w) then w
  else
    let w := with_state (set_bgmStage next) w in
    let w := playBgmSwitchSe w in
    resetTransport w.

Definition stageClear (w : World) : World :=
  (* 1) Increase difficulty *)
  let w := with_state (fun s => set_difficultyStage (difficultyStage s + 1) s) w in
  let w := with_state (fun s => set_diff (difficultyForStage (difficultyStage s)) s) w in
  (* 2) Reset beat growth (kick-only) *)
  let w := with_state (set_stageCorrect 0) w in
  let w := with_state (set_drumLevel 0) w in
  let w := with_state (set_bgmStage 0) w in
  let w := resetTransport w in
  (* 3) Cue *)
  playStageClearSe w.

Definition updateOnCorrect (w : World) : World :=
  let w := with_state (fun s => set_correctTotal (correctTotal s + 1) s) w in
  let w := with_state (fun s => set_stageCorrect (stageCorrect s + 1) s) w in
  (* Beat growth within the current stage *)
  let w := with_state (fun s => set_drumLevel (computeDrumLevel (stageCorrect s)) s) w in
  let w := setBgmStageFromStageCorrect w in
  (* Stage clear every N correct (global score) *)
  let w :=
    if Z.rem (correctTotal (state w)) SETTINGS.stageClearEveryCorrect =? 0
    then stageClear w else w in
  renderStats w.

Definition resetProgression (w : World) : World :=
  let w := with_state (set_correctTotal 0) w in
  let w := with_state (set_stageCorrect 0) w in
  let w := with_state (set_difficultyStage 0) w in
  let w := with_state (set_diff (difficultyForStage 0)) w in
  let w := with_state (set_drumLevel 0) w in
  let w := with_state (set_bgmStage 0) w in
  let w := resetTransport w in
  let w := emit (FxRemoveClasses NBody ["bg-kick"; "scan-snare"]%string) w in
  let w := emit (FxRemoveClasses NContainer ["ui-kick"; "ui-snare"]%string) w in
  renderStats w.

Definition newProblem (w : World) : World :=
  let pr := buildProblem (state w) (random w) in
  let p := fst pr in
  let w := mkWorld (state w) (drum w) (timers w) (nextTimerId w) (answerValue w)
             (snd pr) (effects w) in
  let w := with_state (set_currentAnswer (panswer p)) w in
  renderProblem p w.

Definition checkAnswer (w : World) : World :=
  match parseAnswer (Some (answerValue w)) with
  | PNull | PNaN =>
      (* Empty or invalid input: do not advance. *)
      focusAnswer true w
  | PNum v =>
      if v =? currentAnswer (state w)
      then
        let w := updateOnCorrect w in
        let w := playCorrectFx w in
        snd (addTimer CbNewProblem SETTINGS.nextDelayMs w)
      else
        (* Wrong: reset progression and keep re-try on the same next problem. *)
        let w := resetProgression w in
        let w := playWrongFx w in
        focusAnswer true w
  end.

Definition resetAll (w : World) : World := newProblem (resetProgression w).

(** ** Events

    What the page reacts to: edits of the answer field, the CHECK and RESET
    buttons (and Enter), the BGM and SFX toggles, and the firing of a
    pending timer.  [now] is the reading of the audio clock at that
    moment.  [EvStartResumed] is the continuation of [start] after an
    awaited [ctx.resume()], which may run after other events. *)

Inductive Event :=
| EvInput (s : JsString.t)
| EvCheck
| EvReset
| EvDrumToggle (now : Q)
| EvStartResumed (now : Q)
| EvSoundToggle
| EvTimer (id : nat) (now : Q).

Definition drumToggleClick (now : Q) (w : World) : World :=
  let w := ensureCtx w in
  if negb (isRunning w) then start now w else stop w.

Definition soundToggleClick (w : World) : World :=
  let w := with_state (fun s => set_soundEnabled (negb (soundEnabled s)) s) w in
  let w := renderSoundToggle w in
  if soundEnabled (state w) then safePlay bgmSwitchSound w else w.

(** A pending timer fires: an interval stays pending, a timeout is
    consumed before its callback runs. *)
Definition fireTimer (id : nat) (now : Q) (w : World) : World :=
  match find (fun t => (tid t =? id)%nat) (timers w) with
  | None => w
  | Some t =>
      match tcallback t with
      | CbTick => tick now w
      | CbUiPulse => uiPulseCallback (clearTimer id w)
      | CbNewProblem => newProblem (clearTimer id w)
      end
  end.

Definition handle (e : Event) (w : World) : World :=
  match e with
  | EvInput s => set_answerValue s w
  | EvCheck => checkAnswer w
  | EvReset => resetAll w
  | EvDrumToggle now => drumToggleClick now w
  | EvStartResumed now => start now w
  | EvSoundToggle => soundToggleClick w
  | EvTimer id now => fireTimer id now w
  end.

Definition run (es : list Event) (w : World) : World :=
  fold_left (fun w e => handle e w) es w.

(** Init.  [lowSpec] is what [applyLowSpecMode] finds out about the device. *)
Definition boot (lowSpec : bool) (r : Stream) : World :=
  let w := mkWorld state0 engine0 [] 1%nat [] r [] in
  let w := if lowSpec then emit (FxAddClasses NBody ["low-spec"%string]) w else w in
  let w := with_state (fun s => set_drumLevel (computeDrumLevel (stageCorrect s)) s) w in
  let w := with_state (fun s => set_bgmStage (computeBgmStage (stageCorrect s)) s) w in
  let w := renderStats w in
  let w := renderSoundToggle w in
  newProblem w.

Inductive reachable : World -> Prop :=
| reach_boot : forall lowSpec r, reachable (boot lowSpec r)
| reach_step : forall e w, reachable w -> reachable (handle e w).

(** The effects a call added to the trace. *)
Definition since (w w' : World) : list Effect :=
  skipn (List.length (effects w)) (effects w').

(** Pending timers whose callback is the UI pulse. *)
Definition isPulse (t : Timer) : bool :=
  match tcallback t with CbUiPulse => true | _ => false end.

Definition pulsesOf (ts : list Timer) : list nat := map tid (filter isPulse ts).

Definition pendingPulses (w : World) : list nat := pulsesOf (timers w).

(** A run of [scheduleStep] calls, each with its clock reading and its time. *)
Definition scheduleSteps (calls : list (Q * Q)) (w : World) : World :=
  fold_left (fun w c => scheduleStep (fst c) (snd c) w) calls w.

Definition TransportInv (s : State) : Prop :=
  0 <= step s < SETTINGS.stepsPerBar /\ 0 <= barCounter s < SETTINGS.barsCycle.

(** ** Vocabulary of the statements *)

(** What [updateOnCorrect] does to the trace. *)
Definition correctEffects (w : World) : list Effect :=
  let s := state w in
  let sc := stageCorrect s + 1 in
  let ct := correctTotal s + 1 in
  let sfx a := if soundEnabled s then [FxPlay a] else [] in
  let cleared := Z.rem ct SETTINGS.stageClearEveryCorrect =? 0 in
  (if computeBgmStage sc =? bgmStage s then []
   else FxCue CueBgmSwitch :: sfx bgmSwitchSound)
  ++ (if cleared then FxCue CueStageClear :: sfx stageClearSound else [])
  ++ [FxCorrectTotalText ct;
      FxDrumLevelLabel
        (let d := if cleared then 0 else computeDrumLevel sc in
         if d =? 0 then "KICK"%string
         else if d =? 1 then "K+HAT"%string else "K+H+SNR"%string)].

(** Position on the 64-bar cycle, counted in steps. *)
Definition position (s : State) : Z :=
  barCounter s * SETTINGS.stepsPerBar + step s.

(** The voices a sounding step triggers, in program order. *)
Definition voices (time : Q) (s : State) : list Effect :=
  (if kickHit s then [FxKick time] else [])
  ++ (if (drumLevel s >=? 1) && hatHit s then [FxHihat time] else [])
  ++ (if snareHit s then [FxSnare time] else []).

Definition mergeHits (a b : Hits) : Hits :=
  mkHits (hkick a || hkick b) (hsnare a || hsnare b).

Definition ProgressInv (s : State) : Prop :=
  0 <= correctTotal s
  /\ stageCorrect s = correctTotal s mod SETTINGS.stageClearEveryCorrect
  /\ drumLevel s = computeDrumLevel (stageCorrect s)
  /\ bgmStage s = computeBgmStage (stageCorrect s)
  /\ 0 <= difficultyStage s
  /\ diff s = difficultyForStage (difficultyStage s)
  /\ 0 <= muteSteps s
  /\ TransportInv s.

(** Timer handles are unique and older than the next handle. *)
Definition TimersOk (ts : list Timer) (next : nat) : Prop :=
  NoDup (map tid ts) /\ Forall (fun t => (tid t < next)%nat) ts.

Definition TimersInv (w : World) : Prop := TimersOk (timers w) (nextTimerId w).

(** The pending pulse timers are exactly the one [uiPulseTimer] holds. *)
Definition PulseInv (w : World) : Prop :=
  pendingPulses w
  = match uiPulseTimer (drum w) with Some id => [id] | None => [] end.

Definition WorldInv (w : World) : Prop :=
  ProgressInv (state w) /\ TimersInv w /\ PulseInv w.

(** What every operation of the progression tracker leaves behind. *)
Definition StageInv (s : State) : Prop :=
  stageCorrect s = correctTotal s mod SETTINGS.stageClearEveryCorrect
  /\ stageCorrect s <= 19
  /\ drumLevel s <= 1.

(** [n] correct answers in a row. *)
Definition correctRun (n : nat) (w : World) : World := Nat.iter n updateOnCorrect w.

(** The text is made of white space only (or is empty). *)
Definition Blank (s : JsString.t) : Prop :=
  Forall (fun c => JsString.isWhiteSpace c = true) s.

(** An optionally signed, non-empty run of decimal digits. *)
Definition IntegerLiteral (s : JsString.t) : Prop :=
  exists ds, ds <> [] /\ Forall (fun c => JsString.isDigit c = true) ds
             /\ (s = ds \/ s = 45%N :: ds).

(** The page after boot with the beat started, SFX left off, and "5" typed
    against the expected answer 0. *)
Definition wrongWorld : World :=
  run [EvDrumToggle 0%Q; EvInput (JsString.of_string "5")]
    (boot false (fun _ => 0%Q)).

(** The page after boot with " 0" typed against the expected answer 0. *)
Definition paddedWorld : World :=
  run [EvInput (JsString.of_string " 0")] (boot false (fun _ => 0%Q)).

(** A world and a later one that differ in the mute counter and the
    transport position only. *)
Definition SilentlyMoved (w w' : World) : Prop :=
  effects w' = effects w /\ timers w' = timers w
  /\ nextTimerId w' = nextTimerId w /\ drum w' = drum w
  /\ answerValue w' = answerValue w /\ random w' = random w
  /\ currentAnswer (state w') = currentAnswer (state w)
  /\ correctTotal (state w') = correctTotal (state w)
  /\ stageCorrect (state w') = stageCorrect (state w)
  /\ difficultyStage (state w') = difficultyStage (state w)
  /\ drumLevel (state w') = drumLevel (state w)
  /\ bgmStage (state w') = bgmStage (state w)
  /\ soundEnabled (state w') = soundEnabled (state w)
  /\ diff (state w') = diff (state w).

(** A state at difficulty stage 3, and draws of [Math.random] that make
    [pickMode] choose the division there. *)
Definition divisionState : State :=
  set_diff (difficultyForStage 3) (set_difficultyStage 3 state0).

Definition divisionDraws : Stream :=
  fun n => match n with O => 3 # 4 | _ => 1 # 2 end.

(** Draws of [Math.random] for a long session: the first problem is
    1 - 1, and the problem generated next, at whatever stage, takes the
    last of the four operations and draws the largest operands but one. *)
Definition longSessionDraws : Stream :=
  fun n =>
    match n with
    | 0%nat | 1%nat => 0%Q
    | 2%nat => 3 # 4
    | 5%nat | 6%nat => 190000015 # 190000018
    | _ => 1 # 2
    end.

(** The page after boot with "0" typed, the right answer to 1 - 1, and
    CHECK pressed [n] times before the next problem is shown. *)
Definition checkedWorld (n : N) : World :=
  N.iter n checkAnswer
    (handle (EvInput (JsString.of_string "0")) (boot false longSessionDraws)).

(** ** Vocabulary of the further properties *)

(** A problem whose stored answer is the result of its operator on its
    operands (for a division: the quotient of an exact division). *)
Definition ProblemOk (p : Problem) : Prop :=
  match pop p with
  | OpPlus => panswer p = pa p + pb p
  | OpMinus => panswer p = pa p - pb p
  | OpTimes => panswer p = pa p * pb p
  | OpDivide => pa p = pb p * panswer p
  end.

(** The steps of one bar. *)
Definition barSteps : list Z := map Z.of_nat (seq 0 16).

(** How many steps of a bar trigger the kick, and the hi-hat, in the
    variation and at the beat level of [s]. *)
Definition kicksPerBar (s : State) : nat :=
  List.length (filter (fun i => kickHit (set_step i s)) barSteps).

Definition hatsPerBar (s : State) : nat :=
  List.length (filter (fun i => (drumLevel s >=? 1) && hatHit (set_step i s)) barSteps).

(** Pending timers whose callback is the lookahead tick. *)
Definition isTick (t : Timer) : bool :=
  match tcallback t with CbTick => true | _ => false end.

Definition tickTimers (ts : list Timer) : list nat := map tid (filter isTick ts).

Definition isNewProblem (t : Timer) : bool :=
  match tcallback t with CbNewProblem => true | _ => false end.

(** The engine's bookkeeping: the lookahead interval is pending exactly
    while the engine runs and [timerId] holds it; handles are positive; a
    pulse is pending only while the engine runs, and the pending hit flags
    are the kick alone then and empty otherwise. *)
Definition EngineInv (w : World) : Prop :=
  tickTimers (timers w)
  = match timerId (drum w) with Some id => [id] | None => [] end
  /\ running (drum w)
     = match timerId (drum w) with Some _ => true | None => false end
  /\ Forall (fun t => (1 <= tid t)%nat) (timers w)
  /\ (1 <= nextTimerId w)%nat
  /\ match uiPulseTimer (drum w) with
     | Some _ => running (drum w) = true /\ uiPulseHits (drum w) = mkHits true false
     | None => uiPulseHits (drum w) = noHits
     end.

(** The derived counters: the difficulty stage is the number of completed
    runs of 20 correct answers, and a mute window never exceeds 4 steps. *)
Definition CountersInv (s : State) : Prop :=
  difficultyStage s = correctTotal s / SETTINGS.stageClearEveryCorrect
  /\ muteSteps s <= SETTINGS.muteOnWrongSteps.

Definition FullInv (w : World) : Prop :=
  WorldInv w /\ CountersInv (state w) /\ EngineInv w.

Arguments tickTimers : simpl never.

(** [clearTimeout] / [clearInterval] guarded by a test of the handle. *)
Definition dropTimer_opt (id : option nat) (ts : list Timer) : list Timer :=
  match id with Some i => dropTimer i ts | None => ts end.

(** An effect that betrays the snare tier: the snare voice, the label
    "K+H+SNR", or a pulse batch carrying a snare class. *)
Definition snareTrace (e : Effect) : bool :=
  match e with
  | FxSnare _ => true
  | FxDrumLevelLabel l => String.eqb l "K+H+SNR"
  | FxRetriggerBatch es =>
      existsb (fun nc =>
                 existsb (fun c => String.eqb c "scan-snare" || String.eqb c "ui-snare")
                   (snd nc)) es
  | _ => false
  end.

Definition snares (w : World) : list Effect := filter snareTrace (effects w).

(** ** The class lists behind the retrigger effects *)

Module ClassList.

(** [element.classList]: an ordered set of tokens. *)
Definition t := list string.

Definition contains (cn : string) (l : t) : bool := existsb (String.eqb cn) l.

(** [classList.remove(cn)] *)
Definition remove (cn : string) (l : t) : t :=
  filter (fun c => negb (String.eqb cn c)) l.

(** [classList.add(cn)] *)
Definition add (cn : string) (l : t) : t :=
  if contains cn l then l else l ++ [cn].

End ClassList.

Definition Node_eqb (x y : Node) : bool :=
  match x, y with
  | NFormula, NFormula | NBody, NBody | NContainer, NContainer => true
  | _, _ => false
  end.

(** The class list of each element the effects touch. *)
Definition Dom := Node -> ClassList.t.

Definition onNode (n : Node) (f : ClassList.t -> ClassList.t) (d : Dom) : Dom :=
  fun m => if Node_eqb m n then f (d m) else d m.

(** The forced reflow between the two loops leaves the class lists alone. *)
Definition retriggerClasses (target : Node) (classNames : list string) (d : Dom) : Dom :=
  (* remove first *)
  let d := fold_left (fun d cn => onNode target (ClassList.remove cn) d) classNames d in
  (* add back *)
  fold_left (fun d cn => onNode target (ClassList.add cn) d) classNames d.

Definition retriggerEffectsBatch (entries : list (Node * list string)) (d : Dom) : Dom :=
  (* 1) remove all *)
  let d :=
    fold_left
      (fun d e => fold_left (fun d cn => onNode (fst e) (ClassList.remove cn) d) (snd e) d)
      entries d in
  (* 3) add all back *)
  fold_left
    (fun d e => fold_left (fun d cn => onNode (fst e) (ClassList.add cn) d) (snd e) d)
    entries d.

(** The entries of a batch retriggered one element at a time. *)
Definition retriggerEach (entries : list (Node * list string)) (d : Dom) : Dom :=
  fold_left (fun d e => retriggerClasses (fst e) (snd e) d) entries d.

(** The class lists a trace of effects leaves behind. *)
Definition applyEffect (d : Dom) (e : Effect) : Dom :=
  match e with
  | FxRetrigger n classes => retriggerClasses n classes d
  | FxRetriggerBatch entries => retriggerEffectsBatch entries d
  | FxRemoveClasses n classes =>
      fold_left (fun d cn => onNode n (ClassList.remove cn) d) classes d
  | FxAddClasses n classes =>
      fold_left (fun d cn => onNode n (ClassList.add cn) d) classes d
  | _ => d
  end.

Definition domAfter (es : list Effect) (d : Dom) : Dom := fold_left applyEffect es d.

(** The page as served: no effect class is set. *)
Definition dom0 : Dom := fun _ => [].

(** The audio samples a trace plays, in order. *)
Definition isPlay (e : Effect) : bool :=
  match e with FxPlay _ => true | _ => false end.

Definition plays (es : list Effect) : list Effect := filter isPlay es.

Arguments toDouble : simpl never.
Arguments pulsesOf : simpl never.
Arguments dropTimer : simpl never.

(** * Proofs *)

(** ** Bookkeeping *)

Ltac break_world w :=
  let s := fresh "s" in
  destruct w as [s ? ? ? ? ? ?]; destruct s.

(** Case analysis on the hit decisions of a sounding step. *)
Ltac sound_cases s t :=
  unfold soundStep, queueUiPulse, playKick, playHihat, playSnare;
  cbn -[kickHit hatHit snareHit advanceTransport Qmax];
  destruct (kickHit s); cbn -[kickHit hatHit snareHit advanceTransport Qmax];
  destruct (drumLevel s >=? 1); cbn -[kickHit hatHit snareHit advanceTransport Qmax];
  destruct (hatHit s); cbn -[kickHit hatHit snareHit advanceTransport Qmax];
  destruct (snareHit s); cbn -[kickHit hatHit snareHit advanceTransport Qmax];
  destruct t; cbn -[kickHit hatHit snareHit advanceTransport Qmax].

(** Effects that cannot betray the snare tier. *)
Ltac quiet_by_computation w :=
  destruct w as [? ? ? ? ? ? ?]; unfold snares; cbn;
  rewrite ?filter_app; cbn; rewrite ?app_nil_r; reflexivity.

Lemma since_app : forall w w' l,
  effects w' = effects w ++ l -> since w w' = l.
Proof.
  intros w w' l H. unfold since. rewrite H.
  rewrite skipn_app, skipn_all, Nat.sub_diag. reflexivity.
Qed.

Lemma jsrem_mod : forall a b, 0 <= a -> 0 < b -> Z.rem a b = a mod b.
Proof. intros. apply Z.rem_mod_nonneg; lia. Qed.

Lemma updateOnCorrect_effects : forall w,
  effects (updateOnCorrect w) = effects w ++ correctEffects w.
Proof.
  intros w. break_world w.
  unfold updateOnCorrect, correctEffects, setBgmStageFromStageCorrect, stageClear,
    playBgmSwitchSe, playStageClearSe, safePlaySfx, safePlay, renderStats,
    resetTransport.
  cbn.
  destruct (computeBgmStage (stageCorrect0 + 1) =? bgmStage0) eqn:Eb; cbn;
  destruct (Z.rem (correctTotal0 + 1) SETTINGS.stageClearEveryCorrect =? 0) eqn:Ec; cbn;
  destruct soundEnabled0; cbn; rewrite ?Ec; cbn;
  repeat rewrite <- app_assoc; cbn; reflexivity.
Qed.

Lemma updateOnCorrect_frame : forall w,
  let w' := updateOnCorrect w in
  drum w' = drum w /\ timers w' = timers w /\ nextTimerId w' = nextTimerId w
  /\ answerValue w' = answerValue w /\ random w' = random w
  /\ currentAnswer (state w') = currentAnswer (state w)
  /\ muteSteps (state w') = muteSteps (state w)
  /\ soundEnabled (state w') = soundEnabled (state w)
  /\ correctTotal (state w') = correctTotal (state w) + 1.
Proof.
  intros w. break_world w.
  unfold updateOnCorrect, setBgmStageFromStageCorrect, stageClear,
    playBgmSwitchSe, playStageClearSe, safePlaySfx, safePlay, renderStats,
    resetTransport.
  cbn.
  destruct (computeBgmStage (stageCorrect0 + 1) =? bgmStage0); cbn;
  destruct (Z.rem (correctTotal0 + 1) SETTINGS.stageClearEveryCorrect =? 0) eqn:Ec; cbn;
  destruct soundEnabled0; cbn; rewrite ?Ec; cbn; repeat split; reflexivity.
Qed.

(** A correct answer that clears the stage. *)
Lemma updateOnCorrect_cleared : forall w,
  Z.rem (correctTotal (state w) + 1) SETTINGS.stageClearEveryCorrect = 0 ->
  let s' := state (updateOnCorrect w) in
  difficultyStage s' = difficultyStage (state w) + 1
  /\ diff s' = difficultyForStage (difficultyStage (state w) + 1)
  /\ stageCorrect s' = 0 /\ drumLevel s' = 0 /\ bgmStage s' = 0
  /\ step s' = 0 /\ barCounter s' = 0.
Proof.
  intros w H. break_world w. cbn in H.
  unfold updateOnCorrect, setBgmStageFromStageCorrect, stageClear,
    playBgmSwitchSe, playStageClearSe, safePlaySfx, safePlay, renderStats,
    resetTransport.
  cbn.
  destruct (computeBgmStage (stageCorrect0 + 1) =? bgmStage0); cbn;
  rewrite ?H; cbn; destruct soundEnabled0; cbn; rewrite ?H; cbn;
  repeat split; reflexivity.
Qed.

(** A correct answer that does not. *)
Lemma updateOnCorrect_kept : forall w,
  Z.rem (correctTotal (state w) + 1) SETTINGS.stageClearEveryCorrect <> 0 ->
  let s := state w in
  let s' := state (updateOnCorrect w) in
  let next := computeBgmStage (stageCorrect s + 1) in
  difficultyStage s' = difficultyStage s
  /\ diff s' = diff s
  /\ stageCorrect s' = stageCorrect s + 1
  /\ drumLevel s' = computeDrumLevel (stageCorrect s + 1)
  /\ bgmStage s' = next
  /\ (next = bgmStage s -> step s' = step s /\ barCounter s' = barCounter s)
  /\ (next <> bgmStage s -> step s' = 0 /\ barCounter s' = 0).
Proof.
  intros w H. break_world w. cbn in H.
  apply Z.eqb_neq in H.
  unfold updateOnCorrect, setBgmStageFromStageCorrect, stageClear,
    playBgmSwitchSe, playStageClearSe, safePlaySfx, safePlay, renderStats,
    resetTransport.
  cbn.
  destruct (computeBgmStage (stageCorrect0 + 1) =? bgmStage0) eqn:Eb; cbn;
  rewrite ?H; cbn; destruct soundEnabled0; cbn; rewrite ?H; cbn;
  rewrite ?Z.eqb_eq, ?Z.eqb_neq in Eb;
  repeat split; try reflexivity; try congruence; intros; congruence.
Qed.

(** ** The step sequencer *)

Lemma advanceTransport_frame : forall s,
  let s' := advanceTransport s in
  currentAnswer s' = currentAnswer s /\ correctTotal s' = correctTotal s
  /\ stageCorrect s' = stageCorrect s /\ difficultyStage s' = difficultyStage s
  /\ drumLevel s' = drumLevel s /\ bgmStage s' = bgmStage s
  /\ muteSteps s' = muteSteps s /\ soundEnabled s' = soundEnabled s
  /\ diff s' = diff s.
Proof.
  intros s. destruct s. unfold advanceTransport. cbn.
  destruct (step0 + 1 >=? SETTINGS.stepsPerBar); cbn; repeat split; reflexivity.
Qed.

Lemma advanceTransport_step : forall s,
  TransportInv s ->
  let s' := advanceTransport s in
  (step s < 15 -> step s' = step s + 1 /\ barCounter s' = barCounter s)
  /\ (step s = 15 -> step s' = 0 /\ barCounter s' = (barCounter s + 1) mod 64).
Proof.
  intros s [Hs Hb]. destruct s. unfold advanceTransport, SETTINGS.stepsPerBar,
    SETTINGS.barsCycle in *. cbn in *.
  rewrite Z.geb_leb.
  destruct (Z.leb_spec 16 (step0 + 1)); cbn; split; intros; try lia;
    split; try reflexivity; apply jsrem_mod; lia.
Qed.

Lemma advanceTransport_inv : forall s,
  TransportInv s -> TransportInv (advanceTransport s).
Proof.
  intros s H. pose proof (advanceTransport_step s H) as [Hlt Heq].
  destruct H as [Hs Hb]. unfold TransportInv, SETTINGS.stepsPerBar,
    SETTINGS.barsCycle in *.
  destruct (Z.eq_dec (step s) 15) as [E | E].
  - destruct (Heq E) as [-> ->].
    pose proof (Z.mod_pos_bound (barCounter s + 1) 64). lia.
  - destruct Hlt as [-> ->]; lia.
Qed.

Lemma advanceTransport_position : forall s,
  TransportInv s ->
  position (advanceTransport s) = (position s + 1) mod 1024.
Proof.
  intros s H. pose proof (advanceTransport_step s H) as [Hlt Heq].
  destruct H as [Hs Hb]. unfold position, SETTINGS.stepsPerBar,
    SETTINGS.barsCycle in *.
  destruct (Z.eq_dec (step s) 15) as [E | E].
  - destruct (Heq E) as [-> ->]. rewrite E.
    destruct (Z.eq_dec (barCounter s) 63) as [E63 | E63].
    + rewrite E63. reflexivity.
    + rewrite (Z.mod_small (barCounter s + 1) 64) by lia.
      rewrite Z.mod_small by lia. lia.
  - destruct Hlt as [-> ->]; try lia.
    rewrite Z.mod_small by lia. lia.
Qed.

Lemma scheduleStep_muted : forall now time w,
  0 < muteSteps (state w) ->
  scheduleStep now time w
  = with_state advanceTransport
      (with_state (fun s => set_muteSteps (muteSteps s - 1) s) w).
Proof.
  intros now time w H. unfold scheduleStep.
  replace (muteSteps (state w) >? 0) with true; [reflexivity|].
  symmetry. rewrite Z.gtb_ltb. apply Z.ltb_lt. exact H.
Qed.

Lemma scheduleStep_audible : forall now time w,
  muteSteps (state w) <= 0 ->
  scheduleStep now time w = soundStep now time w.
Proof.
  intros now time w H. unfold scheduleStep.
  replace (muteSteps (state w) >? 0) with false; [reflexivity|].
  symmetry. rewrite Z.gtb_ltb. apply Z.ltb_ge. exact H.
Qed.

Lemma queueUiPulse_spec : forall now time hits w,
  let w' := queueUiPulse now time hits w in
  state w' = state w /\ effects w' = effects w
  /\ answerValue w' = answerValue w /\ random w' = random w
  /\ running (drum w') = running (drum w)
  /\ nextTime (drum w') = nextTime (drum w)
  /\ timerId (drum w') = timerId (drum w)
  /\ uiPulseHits (drum w') = mergeHits (uiPulseHits (drum w)) hits
  /\ match uiPulseTimer (drum w) with
     | Some id =>
         uiPulseTimer (drum w') = Some id /\ timers w' = timers w
         /\ nextTimerId w' = nextTimerId w
     | None =>
         uiPulseTimer (drum w') = Some (nextTimerId w)
         /\ timers w'
            = timers w ++ [mkTimer (nextTimerId w)
                             (Qmax 0 ((time - now) * (1000 # 1))) CbUiPulse]
         /\ nextTimerId w' = S (nextTimerId w)
     end.
Proof.
  intros now time hits w. destruct w as [s d ts n a r e]. destruct d.
  unfold queueUiPulse. cbn.
  destruct uiPulseTimer0; cbn; repeat split; reflexivity.
Qed.

Lemma soundStep_state : forall now time w,
  state (soundStep now time w) = advanceTransport (state w).
Proof.
  intros now time w. destruct w as [s d ts n a r e]. destruct d.
  sound_cases s uiPulseTimer0; reflexivity.
Qed.

Lemma soundStep_effects : forall now time w,
  effects (soundStep now time w) = effects w ++ voices time (state w).
Proof.
  intros now time w. destruct w as [s d ts n a r e]. destruct d.
  unfold voices.
  sound_cases s uiPulseTimer0; rewrite <- ?app_assoc, ?app_nil_r; reflexivity.
Qed.

(** The pulse side of a sounding step: one [queueUiPulse] when the kick or
    the snare fired, nothing otherwise. *)
Lemma soundStep_pulse : forall now time w,
  let w' := soundStep now time w in
  let k := kickHit (state w) in
  let sn := snareHit (state w) in
  running (drum w') = running (drum w)
  /\ nextTime (drum w') = nextTime (drum w)
  /\ timerId (drum w') = timerId (drum w)
  /\ (k || sn = false ->
      uiPulseHits (drum w') = uiPulseHits (drum w)
      /\ uiPulseTimer (drum w') = uiPulseTimer (drum w)
      /\ timers w' = timers w /\ nextTimerId w' = nextTimerId w)
  /\ (k || sn = true ->
      uiPulseHits (drum w') = mergeHits (uiPulseHits (drum w)) (mkHits k sn)
      /\ match uiPulseTimer (drum w) with
         | Some id =>
             uiPulseTimer (drum w') = Some id /\ timers w' = timers w
             /\ nextTimerId w' = nextTimerId w
         | None =>
             uiPulseTimer (drum w') = Some (nextTimerId w)
             /\ timers w'
                = timers w ++ [mkTimer (nextTimerId w)
                                 (Qmax 0 ((time - now) * (1000 # 1))) CbUiPulse]
             /\ nextTimerId w' = S (nextTimerId w)
         end).
Proof.
  intros now time w. destruct w as [s d ts n a r e]. destruct d.
  sound_cases s uiPulseTimer0; repeat split; intros; try discriminate;
    repeat split; reflexivity.
Qed.

(** ** Invariants of the reachable worlds *)

Lemma TimerInv_ext : forall w w',
  timers w' = timers w -> nextTimerId w' = nextTimerId w ->
  uiPulseTimer (drum w') = uiPulseTimer (drum w) ->
  TimersInv w /\ PulseInv w -> TimersInv w' /\ PulseInv w'.
Proof.
  unfold TimersInv, PulseInv, pendingPulses. intros w w' H1 H2 H3.
  rewrite H1, H2, H3. tauto.
Qed.

Lemma pulsesOf_dropTimer : forall id ts,
  pulsesOf (dropTimer id ts) = filter (fun i => negb (i =? id)%nat) (pulsesOf ts).
Proof.
  intros id ts. unfold pulsesOf, dropTimer.
  induction ts as [| t ts IH]; [reflexivity|].
  cbn. destruct (tid t =? id)%nat eqn:E; destruct (isPulse t) eqn:Ep; cbn;
    rewrite ?Ep; cbn; rewrite ?E; cbn; rewrite IH; reflexivity.
Qed.

Lemma pulsesOf_app : forall ts ts', pulsesOf (ts ++ ts') = pulsesOf ts ++ pulsesOf ts'.
Proof. intros. unfold pulsesOf. rewrite filter_app, map_app. reflexivity. Qed.

Lemma TimersOk_dropTimer : forall id ts n, TimersOk ts n -> TimersOk (dropTimer id ts) n.
Proof.
  intros id ts n [Hn Hf]. unfold TimersOk, dropTimer. split.
  - clear Hf. induction ts as [| t ts IH]; [constructor|].
    cbn in *. inversion Hn as [| ? ? Hni Hnd]; subst.
    destruct (tid t =? id)%nat; cbn; [apply IH; assumption|].
    constructor; [| apply IH; assumption].
    intros Hin. apply Hni. rewrite in_map_iff in *.
    destruct Hin as [x [Hx Hin]]. exists x. split; [assumption|].
    apply filter_In in Hin. tauto.
  - rewrite Forall_forall in *. intros t Hin. apply filter_In in Hin.
    apply Hf. tauto.
Qed.

Lemma TimersOk_add : forall cb d ts n,
  TimersOk ts n -> TimersOk (ts ++ [mkTimer n d cb]) (S n).
Proof.
  intros cb d ts n [Hn Hf]. unfold TimersOk. split.
  - rewrite map_app. cbn.
    apply NoDup_app; [assumption | repeat constructor; intros [] |].
    intros a Ha [Hb | []]. subst a.
    rewrite in_map_iff in Ha. destruct Ha as [t [Ht Hin]].
    rewrite Forall_forall in Hf. specialize (Hf t Hin). lia.
  - rewrite Forall_forall in *. intros t Hin. apply in_app_or in Hin.
    destruct Hin as [Hin | [<- | []]]; [specialize (Hf t Hin) |]; cbn; lia.
Qed.

Lemma TimersOk_unique : forall ts n t t',
  TimersOk ts n -> In t ts -> In t' ts -> tid t = tid t' -> t = t'.
Proof.
  intros ts n t t' [Hn _]. induction ts as [| x ts IH]; [intros []|].
  cbn in Hn. inversion Hn as [| ? ? Hni Hnd]; subst.
  intros [-> | Hin] [-> | Hin'] E.
  - reflexivity.
  - exfalso. apply Hni. rewrite E. apply in_map. assumption.
  - exfalso. apply Hni. rewrite <- E. apply in_map. assumption.
  - apply IH; assumption.
Qed.

Lemma filter_single_self : forall id : nat,
  filter (fun i => negb (i =? id)%nat) [id] = [].
Proof. intros id. cbn. rewrite Nat.eqb_refl. reflexivity. Qed.

(** ** Game logic: what each operation touches *)

Lemma newProblem_frame : forall w,
  let w' := newProblem w in
  state w' = set_currentAnswer (currentAnswer (state w')) (state w)
  /\ drum w' = drum w /\ timers w' = timers w /\ nextTimerId w' = nextTimerId w.
Proof.
  intros w. destruct w as [s d ts n a r e]. destruct s.
  unfold newProblem, renderProblem, focusAnswer. cbn. repeat split; reflexivity.
Qed.

Lemma resetProgression_state : forall w,
  let s' := state (resetProgression w) in
  correctTotal s' = 0 /\ stageCorrect s' = 0 /\ difficultyStage s' = 0
  /\ diff s' = difficultyForStage 0 /\ drumLevel s' = 0 /\ bgmStage s' = 0
  /\ step s' = 0 /\ barCounter s' = 0
  /\ muteSteps s' = muteSteps (state w)
  /\ soundEnabled s' = soundEnabled (state w)
  /\ currentAnswer s' = currentAnswer (state w).
Proof.
  intros w. break_world w. unfold resetProgression, resetTransport, renderStats.
  cbn. repeat split; reflexivity.
Qed.

Lemma resetProgression_frame : forall w,
  let w' := resetProgression w in
  drum w' = drum w /\ timers w' = timers w /\ nextTimerId w' = nextTimerId w
  /\ answerValue w' = answerValue w /\ random w' = random w.
Proof.
  intros w. break_world w. unfold resetProgression, resetTransport, renderStats.
  cbn. repeat split; reflexivity.
Qed.

Lemma playWrongFx_spec : forall w,
  let w' := playWrongFx w in
  state w'
  = (if soundEnabled (state w) && isRunning w
     then set_muteSteps SETTINGS.muteOnWrongSteps (state w) else state w)
  /\ drum w' = drum w /\ timers w' = timers w /\ nextTimerId w' = nextTimerId w
  /\ answerValue w' = answerValue w /\ random w' = random w.
Proof.
  intros w. destruct w as [s d ts n a r e]. destruct s, d.
  unfold playWrongFx, showRetryText, safePlaySfx, safePlay, isRunning. cbn.
  destruct soundEnabled0, running0; cbn; repeat split; reflexivity.
Qed.

Lemma focusAnswer_frame : forall b w,
  let w' := focusAnswer b w in
  state w' = state w /\ drum w' = drum w /\ timers w' = timers w
  /\ nextTimerId w' = nextTimerId w /\ answerValue w' = answerValue w
  /\ random w' = random w.
Proof.
  intros b w. destruct w. unfold focusAnswer. destruct b; cbn; repeat split; reflexivity.
Qed.

Lemma playCorrectFx_frame : forall w,
  let w' := playCorrectFx w in
  state w' = state w /\ drum w' = drum w /\ timers w' = timers w
  /\ nextTimerId w' = nextTimerId w.
Proof.
  intros w. break_world w. unfold playCorrectFx, safePlaySfx, safePlay. cbn.
  destruct soundEnabled0; cbn; repeat split; reflexivity.
Qed.

Lemma checkAnswer_invalid : forall w,
  parseAnswer (Some (answerValue w)) = PNull
  \/ parseAnswer (Some (answerValue w)) = PNaN ->
  checkAnswer w = focusAnswer true w.
Proof.
  intros w [H | H]; unfold checkAnswer; rewrite H; reflexivity.
Qed.

Lemma checkAnswer_correct : forall w,
  parseAnswer (Some (answerValue w)) = PNum (currentAnswer (state w)) ->
  checkAnswer w
  = snd (addTimer CbNewProblem SETTINGS.nextDelayMs
           (playCorrectFx (updateOnCorrect w))).
Proof.
  intros w H. unfold checkAnswer. rewrite H, Z.eqb_refl. reflexivity.
Qed.

Lemma checkAnswer_wrong : forall w v,
  parseAnswer (Some (answerValue w)) = PNum v ->
  v <> currentAnswer (state w) ->
  checkAnswer w = focusAnswer true (playWrongFx (resetProgression w)).
Proof.
  intros w v H Hv. unfold checkAnswer. rewrite H.
  apply Z.eqb_neq in Hv. rewrite Hv. reflexivity.
Qed.

(** ** Preservation of the invariants *)

Lemma ProgressInv_initial : forall s,
  correctTotal s = 0 -> stageCorrect s = 0 -> difficultyStage s = 0 ->
  diff s = difficultyForStage 0 -> drumLevel s = 0 -> bgmStage s = 0 ->
  step s = 0 -> barCounter s = 0 -> 0 <= muteSteps s ->
  ProgressInv s.
Proof.
  intros s H1 H2 H3 H4 H5 H6 H7 H8 H9. unfold ProgressInv, TransportInv.
  rewrite H1, H2, H3, H4, H5, H6, H7, H8. cbn. repeat split; try lia; reflexivity.
Qed.

Lemma computeDrumLevel_small : forall n, n < 20 -> computeDrumLevel n <= 1.
Proof.
  intros n H. unfold computeDrumLevel, SETTINGS.unlockSnareAt, SETTINGS.unlockHihatAt.
  rewrite !Z.geb_leb.
  destruct (Z.leb_spec 20 n); [lia|]. destruct (Z.leb_spec 10 n); lia.
Qed.

Lemma ProgressInv_updateOnCorrect : forall w,
  ProgressInv (state w) -> ProgressInv (state (updateOnCorrect w)).
Proof.
  intros w (Hct & Hsc & Hd & Hb & Hds & Hdf & Hm & Ht).
  pose proof (updateOnCorrect_frame w) as (_ & _ & _ & _ & _ & _ & Fm & _ & Fct).
  cbv zeta in Fm, Fct.
  unfold SETTINGS.stageClearEveryCorrect in *.
  assert (Hrem : Z.rem (correctTotal (state w) + 1) 20
                 = (correctTotal (state w) + 1) mod 20)
    by (apply jsrem_mod; lia).
  pose proof (Z.mod_pos_bound (correctTotal (state w)) 20 ltac:(lia)) as Hbd.
  destruct (Z.eq_dec (Z.rem (correctTotal (state w) + 1) 20) 0) as [E | E].
  - pose proof (updateOnCorrect_cleared w E) as (C1 & C2 & C3 & C4 & C5 & C6 & C7).
    cbv zeta in *. unfold ProgressInv, TransportInv.
    rewrite Fct, Fm, C1, C2, C3, C4, C5, C6, ?C7.
    unfold SETTINGS.stageClearEveryCorrect, SETTINGS.stepsPerBar, SETTINGS.barsCycle.
    rewrite <- Hrem, E.
    repeat split; try lia; try reflexivity; rewrite ?C7; lia.
  - pose proof (updateOnCorrect_kept w E) as (K1 & K2 & K3 & K4 & K5 & K6 & K7).
    cbv zeta in *. unfold ProgressInv.
    rewrite Fct, Fm, K1, K2, K3, K4, K5.
    unfold SETTINGS.stageClearEveryCorrect.
    assert (Hsc' : stageCorrect (state w) + 1 = (correctTotal (state w) + 1) mod 20).
    { rewrite Hsc. rewrite Hrem in E.
      rewrite <- (Z.mod_small (correctTotal (state w) mod 20 + 1) 20).
      - rewrite Z.add_mod_idemp_l by lia. reflexivity.
      - split; [lia|].
        destruct (Z.eq_dec (correctTotal (state w) mod 20) 19) as [E19 | E19]; [|lia].
        exfalso. apply E. rewrite <- Z.add_mod_idemp_l by lia. rewrite E19. reflexivity. }
    assert (Ht' : TransportInv (state (updateOnCorrect w))).
    { destruct (Z.eq_dec (computeBgmStage (stageCorrect (state w) + 1))
                  (bgmStage (state w))) as [Eb | Eb].
      - destruct (K6 Eb) as [Es Eb']. unfold TransportInv in *.
        rewrite Es, Eb'. exact Ht.
      - destruct (K7 Eb) as [Es Eb']. unfold TransportInv.
        rewrite Es, Eb'.
        unfold SETTINGS.stepsPerBar, SETTINGS.barsCycle. lia. }
    destruct Ht' as [Ht1 Ht2].
    repeat split; try lia; try assumption; try reflexivity.
Qed.

Lemma ProgressInv_resetProgression : forall w,
  0 <= muteSteps (state w) -> ProgressInv (state (resetProgression w)).
Proof.
  intros w Hm.
  pose proof (resetProgression_state w) as (R1 & R2 & R3 & R4 & R5 & R6 & R7 & R8 & R9 & _).
  cbv zeta in *. apply ProgressInv_initial; assumption.
Qed.

Lemma ProgressInv_advance : forall s,
  ProgressInv s -> ProgressInv (advanceTransport s).
Proof.
  intros s (Hct & Hsc & Hd & Hb & Hds & Hdf & Hm & Ht).
  pose proof (advanceTransport_frame s) as (_ & F1 & F2 & F3 & F4 & F5 & F6 & _ & F7).
  pose proof (advanceTransport_inv s Ht) as Ht'.
  cbv zeta in *. unfold ProgressInv. rewrite F1, F2, F3, F4, F5, F6, F7.
  repeat split; try assumption; apply Ht'.
Qed.

Lemma ProgressInv_muteSteps : forall s m,
  0 <= m -> ProgressInv s -> ProgressInv (set_muteSteps m s).
Proof.
  intros s m Hm (Hct & Hsc & Hd & Hb & Hds & Hdf & _ & Ht).
  destruct s. unfold ProgressInv, TransportInv in *. cbn in *. tauto.
Qed.

Lemma ProgressInv_currentAnswer : forall s v,
  ProgressInv s -> ProgressInv (set_currentAnswer v s).
Proof. intros s v H. destruct s. exact H. Qed.

Lemma WorldInv_scheduleStep : forall now time w,
  WorldInv w -> WorldInv (scheduleStep now time w).
Proof.
  intros now time w (Hp & Ht).
  destruct (Z_lt_le_dec 0 (muteSteps (state w))) as [Hm | Hm].
  - rewrite scheduleStep_muted by assumption. split.
    + cbn. apply ProgressInv_advance. apply ProgressInv_muteSteps; [lia | assumption].
    + revert Ht. apply TimerInv_ext; reflexivity.
  - rewrite scheduleStep_audible by assumption. split.
    + rewrite soundStep_state. apply ProgressInv_advance. assumption.
    + pose proof (soundStep_pulse now time w) as (_ & _ & _ & Hno & Hyes).
      cbv zeta in *.
      destruct (kickHit (state w) || snareHit (state w)) eqn:E.
      * destruct (Hyes eq_refl) as [_ Hq]. clear Hno Hyes.
        destruct Ht as [Hti Hpu]. unfold PulseInv in Hpu.
        destruct (uiPulseTimer (drum w)) as [id |] eqn:Eu.
        -- destruct Hq as (Q1 & Q2 & Q3).
           apply (TimerInv_ext w); try assumption.
           ++ rewrite Q1, Eu. reflexivity.
           ++ split; [assumption | unfold PulseInv; rewrite Eu; assumption].
        -- destruct Hq as (Q1 & Q2 & Q3).
           split.
           ++ unfold TimersInv. rewrite Q2, Q3. apply TimersOk_add. exact Hti.
           ++ unfold PulseInv, pendingPulses in *. rewrite Q1, Q2.
              rewrite pulsesOf_app, Hpu. reflexivity.
      * destruct (Hno eq_refl) as (_ & N1 & N2 & N3).
        revert Ht. apply TimerInv_ext; assumption.
Qed.

Lemma WorldInv_tickLoop : forall fuel now w,
  WorldInv w -> WorldInv (tickLoop fuel now w).
Proof.
  induction fuel as [| fuel IH]; intros now w H; [exact H|].
  cbn. destruct (Qlt_le_dec _ _); [| exact H].
  apply IH. pose proof (WorldInv_scheduleStep now (nextTime (drum w)) w H) as [Hp Ht].
  split; [exact Hp | revert Ht; apply TimerInv_ext; reflexivity].
Qed.

Lemma WorldInv_tick : forall now w, WorldInv w -> WorldInv (tick now w).
Proof.
  intros now w [Hp Ht]. unfold tick. apply WorldInv_tickLoop.
  split; [exact Hp | revert Ht; apply TimerInv_ext; reflexivity].
Qed.

Lemma WorldInv_start : forall now w, WorldInv w -> WorldInv (start now w).
Proof.
  intros now w (Hp & Hti & Hpu). destruct w as [s d ts n a r e]. destruct d.
  unfold start, WorldInv, TimersInv, PulseInv, pendingPulses in *. cbn in *.
  destruct running0; cbn; (split; [exact Hp|]).
  - split; assumption.
  - split; [apply TimersOk_add; assumption|].
    rewrite pulsesOf_app, Hpu. apply app_nil_r.
Qed.

Lemma WorldInv_stop : forall w, WorldInv w -> WorldInv (stop w).
Proof.
  intros w (Hp & Hti & Hpu). destruct w as [s d ts n a r e]. destruct d.
  unfold stop, WorldInv, TimersInv, PulseInv, pendingPulses in *. cbn in *.
  destruct timerId0 as [i |]; [destruct (i =? 0)%nat|];
    destruct uiPulseTimer0 as [pid |]; cbn;
    (split; [exact Hp|]);
    (split; [repeat apply TimersOk_dropTimer; assumption|]);
    rewrite ?pulsesOf_dropTimer, Hpu; try reflexivity;
    try apply filter_single_self.
  cbn. destruct (pid =? i)%nat; cbn; [| rewrite Nat.eqb_refl]; reflexivity.
Qed.

Lemma In_pulsesOf : forall t ts, In t ts -> isPulse t = true -> In (tid t) (pulsesOf ts).
Proof.
  intros t ts Hin Hp. unfold pulsesOf. apply in_map. apply filter_In. tauto.
Qed.

Lemma pulsesOf_In : forall i ts,
  In i (pulsesOf ts) -> exists t, In t ts /\ tid t = i /\ isPulse t = true.
Proof.
  intros i ts H. unfold pulsesOf in H. apply in_map_iff in H.
  destruct H as [t [Ht Hin]]. apply filter_In in Hin. exists t. tauto.
Qed.

Lemma filter_neq_id : forall (id : nat) l,
  ~ In id l -> filter (fun i => negb (i =? id)%nat) l = l.
Proof.
  intros id l H. induction l as [| x l IH]; [reflexivity|].
  cbn. destruct (x =? id)%nat eqn:E.
  - exfalso. apply H. left. apply Nat.eqb_eq. assumption.
  - cbn. f_equal. apply IH. intros Hin. apply H. right. assumption.
Qed.

Lemma WorldInv_uiPulse : forall id t w,
  WorldInv w -> In t (timers w) -> tid t = id -> tcallback t = CbUiPulse ->
  WorldInv (uiPulseCallback (clearTimer id w)).
Proof.
  intros id t w (Hp & Hti & Hpu) Hin Hid Hcb.
  assert (Hmem : In id (pendingPulses w)).
  { rewrite <- Hid. apply In_pulsesOf; [assumption|]. unfold isPulse. rewrite Hcb.
    reflexivity. }
  destruct w as [s d ts n a r e]. destruct d.
  unfold WorldInv, TimersInv, PulseInv, pendingPulses in *. cbn in *.
  assert (Hz : pulsesOf (dropTimer id ts) = []).
  { rewrite pulsesOf_dropTimer, Hpu. rewrite Hpu in Hmem.
    destruct uiPulseTimer0 as [pid |]; [| destruct Hmem].
    destruct Hmem as [-> | []]. apply filter_single_self. }
  unfold uiPulseCallback. cbn.
  destruct running0; cbn;
    (split; [exact Hp | split; [apply TimersOk_dropTimer; assumption | exact Hz]]).
Qed.

Lemma WorldInv_newProblem : forall w, WorldInv w -> WorldInv (newProblem w).
Proof.
  intros w (Hp & Ht).
  pose proof (newProblem_frame w) as (Hs & Hd & Hts & Hn). cbv zeta in *.
  split.
  - rewrite Hs. apply ProgressInv_currentAnswer. exact Hp.
  - revert Ht. apply TimerInv_ext; [assumption | assumption | rewrite Hd; reflexivity].
Qed.

Lemma WorldInv_clearOther : forall id t w,
  WorldInv w -> In t (timers w) -> tid t = id -> isPulse t = false ->
  WorldInv (clearTimer id w).
Proof.
  intros id t w (Hp & Hti & Hpu) Hin Hid Hcb.
  split; [exact Hp|]. split.
  - apply TimersOk_dropTimer. exact Hti.
  - unfold PulseInv, pendingPulses in *. cbn.
    rewrite pulsesOf_dropTimer, filter_neq_id; [exact Hpu|].
    intros Hmem. apply pulsesOf_In in Hmem. destruct Hmem as (t' & Hin' & Hid' & Hp').
    assert (t = t') by (apply (TimersOk_unique _ _ _ _ Hti); congruence).
    subst t'. congruence.
Qed.

Lemma find_timer : forall id ts t,
  find (fun t => (tid t =? id)%nat) ts = Some t -> In t ts /\ tid t = id.
Proof.
  intros id ts t H. apply find_some in H. destruct H as [Hin E].
  apply Nat.eqb_eq in E. tauto.
Qed.

Lemma WorldInv_fireTimer : forall id now w, WorldInv w -> WorldInv (fireTimer id now w).
Proof.
  intros id now w H. unfold fireTimer.
  destruct (find _ (timers w)) as [t |] eqn:E; [| exact H].
  apply find_timer in E. destruct E as [Hin Hid].
  destruct (tcallback t) eqn:Ecb.
  - apply WorldInv_tick. exact H.
  - apply (WorldInv_uiPulse id t); assumption.
  - apply WorldInv_newProblem. apply (WorldInv_clearOther id t); try assumption.
    unfold isPulse. rewrite Ecb. reflexivity.
Qed.

Lemma WorldInv_checkAnswer : forall w, WorldInv w -> WorldInv (checkAnswer w).
Proof.
  intros w (Hp & Hti & Hpu).
  destruct (parseAnswer (Some (answerValue w))) as [| | v] eqn:E.
  - rewrite checkAnswer_invalid by tauto.
    pose proof (focusAnswer_frame true w) as (F1 & F2 & F3 & F4 & _). cbv zeta in *.
    split; [rewrite F1; exact Hp|].
    apply (TimerInv_ext w); try assumption; [rewrite F2; reflexivity | tauto].
  - rewrite checkAnswer_invalid by tauto.
    pose proof (focusAnswer_frame true w) as (F1 & F2 & F3 & F4 & _). cbv zeta in *.
    split; [rewrite F1; exact Hp|].
    apply (TimerInv_ext w); try assumption; [rewrite F2; reflexivity | tauto].
  - destruct (Z.eq_dec v (currentAnswer (state w))) as [Ev | Ev].
    + subst v. rewrite checkAnswer_correct by assumption.
      pose proof (updateOnCorrect_frame w) as (U1 & U2 & U3 & _).
      pose proof (playCorrectFx_frame (updateOnCorrect w)) as (C1 & C2 & C3 & C4).
      pose proof (ProgressInv_updateOnCorrect w Hp) as Hp'.
      cbv zeta in *.
      set (w1 := playCorrectFx (updateOnCorrect w)) in *.
      unfold WorldInv, TimersInv, PulseInv, pendingPulses in *. cbn.
      rewrite C1, C2, C3, C4, U1, U2, U3.
      split; [exact Hp'|]. split; [apply TimersOk_add; exact Hti|].
      rewrite pulsesOf_app, Hpu. apply app_nil_r.
    + rewrite (checkAnswer_wrong w v) by assumption.
      pose proof (resetProgression_frame w) as (R1 & R2 & R3 & _).
      pose proof (resetProgression_state w) as (_ & _ & _ & _ & _ & _ & _ & _ & Rm & Rs & _).
      pose proof (playWrongFx_spec (resetProgression w)) as (P1 & P2 & P3 & P4 & _).
      pose proof (focusAnswer_frame true (playWrongFx (resetProgression w)))
        as (F1 & F2 & F3 & F4 & _).
      assert (Hp' : ProgressInv (state (resetProgression w))).
      { apply ProgressInv_resetProgression. apply Hp. }
      cbv zeta in *. split.
      * rewrite F1, P1.
        destruct (soundEnabled (state (resetProgression w)) && isRunning (resetProgression w));
          [apply ProgressInv_muteSteps; [unfold SETTINGS.muteOnWrongSteps; lia|] |];
          exact Hp'.
      * apply (TimerInv_ext w); [congruence | congruence | congruence | tauto].
Qed.

Lemma WorldInv_resetAll : forall w, WorldInv w -> WorldInv (resetAll w).
Proof.
  intros w (Hp & Ht). unfold resetAll. apply WorldInv_newProblem.
  pose proof (resetProgression_frame w) as (R1 & R2 & R3 & _). cbv zeta in *.
  split.
  - apply ProgressInv_resetProgression. apply Hp.
  - revert Ht. apply TimerInv_ext; congruence.
Qed.

Lemma WorldInv_soundToggle : forall w, WorldInv w -> WorldInv (soundToggleClick w).
Proof.
  intros w (Hp & Ht). destruct w as [s d ts n a r e]. destruct s.
  unfold soundToggleClick, renderSoundToggle, safePlay. cbn.
  destruct soundEnabled0; cbn; (split; [exact Hp | exact Ht]).
Qed.

Lemma WorldInv_drumToggle : forall now w, WorldInv w -> WorldInv (drumToggleClick now w).
Proof.
  intros now w H. unfold drumToggleClick.
  assert (H' : WorldInv (ensureCtx w)).
  { destruct H as [Hp Ht]. split; [exact Hp|].
    revert Ht. apply TimerInv_ext; reflexivity. }
  destruct (negb (isRunning (ensureCtx w))); [apply WorldInv_start | apply WorldInv_stop];
    exact H'.
Qed.

Lemma WorldInv_handle : forall e w, WorldInv w -> WorldInv (handle e w).
Proof.
  intros e w H. destruct e; cbn [handle].
  - destruct H as [Hp Ht]. split; [exact Hp|]. revert Ht. apply TimerInv_ext; reflexivity.
  - apply WorldInv_checkAnswer; exact H.
  - apply WorldInv_resetAll; exact H.
  - apply WorldInv_drumToggle; exact H.
  - apply WorldInv_start; exact H.
  - apply WorldInv_soundToggle; exact H.
  - apply WorldInv_fireTimer; exact H.
Qed.

Lemma WorldInv_boot : forall lowSpec r, WorldInv (boot lowSpec r).
Proof.
  intros lowSpec r. unfold boot. apply WorldInv_newProblem.
  destruct lowSpec; cbn; (split; [| split]).
  all: try (unfold ProgressInv, TransportInv; cbn; repeat split; try lia; reflexivity).
  all: try (unfold TimersInv, TimersOk; cbn; split; constructor).
  all: reflexivity.
Qed.

Lemma reachable_inv : forall w, reachable w -> WorldInv w.
Proof.
  intros w H. induction H as [lowSpec r | e w _ IH].
  - apply WorldInv_boot.
  - apply WorldInv_handle. exact IH.
Qed.

(** ** The lookahead loop runs to completion *)

Lemma scheduleStep_nextTime : forall now time w,
  nextTime (drum (scheduleStep now time w)) = nextTime (drum w).
Proof.
  intros now time w.
  destruct (Z_lt_le_dec 0 (muteSteps (state w))) as [Hm | Hm].
  - rewrite scheduleStep_muted by assumption. reflexivity.
  - rewrite scheduleStep_audible by assumption.
    pose proof (soundStep_pulse now time w) as (_ & H & _). exact H.
Qed.

Lemma steps_left : forall x : Q, (x / secondsPerStep == x * (8 # 1))%Q.
Proof.
  intros x. unfold Qdiv. apply Qmult_comp; [reflexivity|]. reflexivity.
Qed.

Lemma tickLoop_done : forall fuel now w,
  ((now + SETTINGS.scheduleAheadSec - nextTime (drum w)) / secondsPerStep
    <= inject_Z (Z.of_nat fuel))%Q ->
  ~ (nextTime (drum (tickLoop fuel now w)) < now + SETTINGS.scheduleAheadSec)%Q.
Proof.
  induction fuel as [| fuel IH]; intros now w H.
  - cbn. rewrite steps_left in H. change (inject_Z (Z.of_nat 0)) with 0%Q in H.
    intros Hlt. lra.
  - cbn [tickLoop]. destruct (Qlt_le_dec _ _) as [Hlt | Hge].
    + apply IH. cbn. rewrite scheduleStep_nextTime.
      rewrite steps_left in *. rewrite Nat2Z.inj_succ in H.
      unfold Z.succ in H. rewrite inject_Z_plus in H.
      assert (E : (secondsPerStep * (8 # 1) == 1)%Q) by reflexivity.
      change (inject_Z 1) with 1%Q in H. lra.
    + intros Hlt. lra.
Qed.

Lemma tick_done : forall now w,
  ~ (nextTime (drum (tick now w)) < now + SETTINGS.scheduleAheadSec)%Q.
Proof.
  intros now w. unfold tick. apply tickLoop_done. unfold tickFuel.
  set (x := ((now + SETTINGS.scheduleAheadSec - nextTime (drum (ensureCtx w)))
             / secondsPerStep)%Q).
  apply Qle_trans with (inject_Z (Qceiling x)); [apply Qle_ceiling|].
  rewrite <- Zle_Qle. lia.
Qed.

(** * The claims *)

(** ** Beat growth and stage clear *)

(** C1.  Twenty correct answers in a row from the freshly initialised page:
    the beat is at the hi-hat tier after the 10th and still after the 19th
    answer; the 20th answer clears the stage, so the state it leaves has
    [stageCorrect = 0] and the kick-only tier, not the snare tier. *)
Theorem C1_twenty_correct_from_boot : forall lowSpec r,
  let after n := state (correctRun n (boot lowSpec r)) in
  drumLevel (after 9%nat) = 0
  /\ drumLevel (after 10%nat) = 1 /\ stageCorrect (after 10%nat) = 10
  /\ drumLevel (after 19%nat) = 1 /\ stageCorrect (after 19%nat) = 19
  /\ correctTotal (after 20%nat) = 20 /\ stageCorrect (after 20%nat) = 0
  /\ difficultyStage (after 20%nat) = 1 /\ drumLevel (after 20%nat) = 0.
Proof.
  intros lowSpec r. destruct lowSpec; vm_compute; repeat split; reflexivity.
Qed.

Lemma StageInv_of_ProgressInv : forall s, ProgressInv s -> StageInv s.
Proof.
  intros s (Hct & Hsc & Hd & _). unfold StageInv.
  unfold SETTINGS.stageClearEveryCorrect in *.
  pose proof (Z.mod_pos_bound (correctTotal s) 20 ltac:(lia)) as Hb.
  split; [exact Hsc|]. split; [lia|].
  rewrite Hd. apply computeDrumLevel_small. lia.
Qed.

(** C10.  In every world the page can reach, and in the world left by each
    operation of the progression tracker run from it (a correct answer with
    its stage clear, the wrong-answer reset, the user's reset),
    [stageCorrect = correctTotal mod 20]; hence [stageCorrect <= 19] and
    [drumLevel <= 1]: the snare tier is never left behind. *)
Theorem C10_snare_tier_never_left_behind : forall w,
  reachable w ->
  StageInv (state w)
  /\ StageInv (state (updateOnCorrect w))
  /\ StageInv (state (resetProgression w))
  /\ StageInv (state (checkAnswer w))
  /\ StageInv (state (resetAll w)).
Proof.
  intros w H. pose proof (reachable_inv w H) as Hw.
  pose proof Hw as (Hp & _).
  split; [| split; [| split; [| split]]]; apply StageInv_of_ProgressInv.
  - exact Hp.
  - apply ProgressInv_updateOnCorrect. exact Hp.
  - apply ProgressInv_resetProgression. apply Hp.
  - apply (WorldInv_checkAnswer w Hw).
  - apply (WorldInv_resetAll w Hw).
Qed.

Lemma C10_snare_tier_never_left_behind_witness :
  StageInv (state (run [EvInput (JsString.of_string "0"); EvCheck]
                     (boot false (fun _ => 0%Q)))).
Proof.
  apply (C10_snare_tier_never_left_behind
           (run [EvInput (JsString.of_string "0"); EvCheck] (boot false (fun _ => 0%Q)))).
  cbn [run fold_left]. repeat apply reach_step. apply reach_boot.
Defined.

Lemma stageClearCue_iff : forall w,
  In (FxCue CueStageClear) (correctEffects w)
  <-> Z.rem (correctTotal (state w) + 1) SETTINGS.stageClearEveryCorrect = 0.
Proof.
  intros w. unfold correctEffects. rewrite <- Z.eqb_eq.
  destruct (computeBgmStage (stageCorrect (state w) + 1) =? bgmStage (state w));
  destruct (Z.rem (correctTotal (state w) + 1) SETTINGS.stageClearEveryCorrect =? 0);
  destruct (soundEnabled (state w)); cbn; split; intros H; try reflexivity;
    try discriminate; try tauto;
    repeat (destruct H as [H | H]; try discriminate H); try destruct H.
Qed.

Lemma bgmSwitchCue_iff : forall w,
  In (FxCue CueBgmSwitch) (correctEffects w)
  <-> computeBgmStage (stageCorrect (state w) + 1) <> bgmStage (state w).
Proof.
  intros w. unfold correctEffects. rewrite <- Z.eqb_neq.
  destruct (computeBgmStage (stageCorrect (state w) + 1) =? bgmStage (state w));
  destruct (Z.rem (correctTotal (state w) + 1) SETTINGS.stageClearEveryCorrect =? 0);
  destruct (soundEnabled (state w)); cbn; split; intros H; try reflexivity;
    try discriminate; try tauto;
    repeat (destruct H as [H | H]; try discriminate H); try destruct H.
Qed.

(** C4.  On a correct answer, with [ct] the incremented [correctTotal], the
    stage-clear cue is raised iff [ct mod 20 = 0] and [ct > 0]; and when it
    is, [difficultyStage] has grown by one, the difficulty profile is the
    one of the new stage, [stageCorrect], [drumLevel], [bgmStage] and the
    transport position are back to zero. *)
Theorem C4_stage_clear_every_twenty : forall w,
  0 <= correctTotal (state w) ->
  let w' := updateOnCorrect w in
  let ct := correctTotal (state w) + 1 in
  correctTotal (state w') = ct
  /\ (In (FxCue CueStageClear) (since w w') <-> ct mod 20 = 0 /\ ct > 0)
  /\ (In (FxCue CueStageClear) (since w w') ->
      difficultyStage (state w') = difficultyStage (state w) + 1
      /\ diff (state w') = difficultyForStage (difficultyStage (state w) + 1)
      /\ stageCorrect (state w') = 0
      /\ drumLevel (state w') = 0
      /\ bgmStage (state w') = 0
      /\ step (state w') = 0 /\ barCounter (state w') = 0).
Proof.
  intros w Hct w' ct.
  assert (Hs : since w w' = correctEffects w)
    by (apply since_app, updateOnCorrect_effects).
  assert (Hrem : Z.rem ct SETTINGS.stageClearEveryCorrect = ct mod 20)
    by (apply jsrem_mod; unfold ct, SETTINGS.stageClearEveryCorrect; lia).
  rewrite Hs. split; [apply updateOnCorrect_frame|]. split.
  - rewrite stageClearCue_iff. fold ct. rewrite Hrem. unfold ct. split; [|tauto].
    intros H. split; [exact H | lia].
  - intros H. apply stageClearCue_iff in H. apply (updateOnCorrect_cleared w H).
Qed.

Lemma C4_stage_clear_every_twenty_witness :
  In (FxCue CueStageClear)
     (since (correctRun 19 (boot false (fun _ => 0%Q)))
            (updateOnCorrect (correctRun 19 (boot false (fun _ => 0%Q)))))
  <-> (19 + 1) mod 20 = 0 /\ 19 + 1 > 0.
Proof.
  apply (C4_stage_clear_every_twenty (correctRun 19 (boot false (fun _ => 0%Q)))).
  vm_compute. discriminate.
Defined.

Lemma computeBgmStage_bounds : forall sc,
  0 <= sc -> 0 <= computeBgmStage sc <= 3.
Proof.
  intros sc H. unfold computeBgmStage, SETTINGS.bgmSwitchEveryCorrect,
    SETTINGS.bgmStageMax.
  pose proof (Z.div_pos sc 5 H ltac:(lia)). lia.
Qed.

Lemma setBgmStage_same : forall w,
  computeBgmStage (stageCorrect (state w)) = bgmStage (state w) ->
  setBgmStageFromStageCorrect w = w.
Proof.
  intros w H. unfold setBgmStageFromStageCorrect.
  apply Z.eqb_eq in H. rewrite H. reflexivity.
Qed.

Lemma setBgmStage_changed : forall w,
  computeBgmStage (stageCorrect (state w)) <> bgmStage (state w) ->
  let w' := setBgmStageFromStageCorrect w in
  bgmStage (state w') = computeBgmStage (stageCorrect (state w))
  /\ step (state w') = 0 /\ barCounter (state w') = 0
  /\ effects w'
     = effects w ++ FxCue CueBgmSwitch
                    :: (if soundEnabled (state w) then [FxPlay bgmSwitchSound] else []).
Proof.
  intros w H. break_world w. cbn in H. apply Z.eqb_neq in H.
  unfold setBgmStageFromStageCorrect, playBgmSwitchSe, safePlaySfx, safePlay,
    resetTransport.
  cbn. rewrite H. destruct soundEnabled0; cbn; rewrite <- ?app_assoc;
    repeat split; reflexivity.
Qed.

Lemma setBgmStage_stores : forall w,
  bgmStage (state (setBgmStageFromStageCorrect w))
  = computeBgmStage (stageCorrect (state w)).
Proof.
  intros w.
  destruct (Z.eq_dec (computeBgmStage (stageCorrect (state w))) (bgmStage (state w)))
    as [E | E].
  - rewrite setBgmStage_same by assumption. symmetry. exact E.
  - apply (setBgmStage_changed w E).
Qed.

(** C5.  [setBgmStageFromStageCorrect] stores in [bgmStage] the recomputed
    BGM variation, [min (floor (stageCorrect / 5)) 3], which lies in [0, 3]
    and steps up at 5, 10 and 15; so after a correct answer that does not
    clear the stage, [bgmStage] is that value at the incremented
    [stageCorrect] (and 0 after one that does).  On a correct answer the
    bgm-switch cue is raised iff that value differs from the current
    [bgmStage], and then the transport position is zero afterwards; when
    the value is unchanged, [setBgmStageFromStageCorrect] changes nothing
    at all, so the transport position moves only if the same answer clears
    the stage. *)
Theorem C5_bgm_variation_switch : forall w sc,
  0 <= sc ->
  let next := computeBgmStage (stageCorrect (state w) + 1) in
  let w' := updateOnCorrect w in
  computeBgmStage sc = Z.min (sc / 5) 3
  /\ 0 <= computeBgmStage sc <= 3
  /\ (computeBgmStage sc < 3 ->
      5 * computeBgmStage sc <= sc < 5 * computeBgmStage sc + 5)
  /\ (computeBgmStage sc = 3 <-> 15 <= sc)
  /\ (In (FxCue CueBgmSwitch) (since w w') <-> next <> bgmStage (state w))
  /\ (next <> bgmStage (state w) ->
      step (state w') = 0 /\ barCounter (state w') = 0)
  /\ (computeBgmStage (stageCorrect (state w)) = bgmStage (state w) ->
      setBgmStageFromStageCorrect w = w)
  /\ (next = bgmStage (state w) ->
      Z.rem (correctTotal (state w) + 1) SETTINGS.stageClearEveryCorrect <> 0 ->
      step (state w') = step (state w)
      /\ barCounter (state w') = barCounter (state w))
  /\ bgmStage (state (setBgmStageFromStageCorrect w))
     = Z.min (stageCorrect (state w) / 5) 3
  /\ (Z.rem (correctTotal (state w) + 1) SETTINGS.stageClearEveryCorrect <> 0 ->
      stageCorrect (state w') = stageCorrect (state w) + 1
      /\ bgmStage (state w') = Z.min ((stageCorrect (state w) + 1) / 5) 3)
  /\ (Z.rem (correctTotal (state w) + 1) SETTINGS.stageClearEveryCorrect = 0 ->
      stageCorrect (state w') = 0 /\ bgmStage (state w') = 0).
Proof.
  intros w sc Hsc next w'.
  assert (Hs : since w w' = correctEffects w)
    by (apply since_app, updateOnCorrect_effects).
  split; [reflexivity|]. split; [apply computeBgmStage_bounds; exact Hsc|].
  split.
  { unfold computeBgmStage, SETTINGS.bgmSwitchEveryCorrect, SETTINGS.bgmStageMax.
    intros H. pose proof (Z.div_mod sc 5 ltac:(lia)).
    pose proof (Z.mod_pos_bound sc 5 ltac:(lia)). lia. }
  split.
  { unfold computeBgmStage, SETTINGS.bgmSwitchEveryCorrect, SETTINGS.bgmStageMax.
    pose proof (Z.div_mod sc 5 ltac:(lia)).
    pose proof (Z.mod_pos_bound sc 5 ltac:(lia)). lia. }
  split; [rewrite Hs; apply bgmSwitchCue_iff|].
  split.
  { intros Hne.
    destruct (Z.eq_dec (Z.rem (correctTotal (state w) + 1)
                          SETTINGS.stageClearEveryCorrect) 0) as [E | E].
    - pose proof (updateOnCorrect_cleared w E) as (_ & _ & _ & _ & _ & H6 & H7).
      split; assumption.
    - pose proof (updateOnCorrect_kept w E) as (_ & _ & _ & _ & _ & _ & H7).
      apply H7. exact Hne. }
  split; [apply setBgmStage_same|].
  split.
  { intros He E.
    pose proof (updateOnCorrect_kept w E) as (_ & _ & _ & _ & _ & H6 & _).
    apply H6. exact He. }
  split; [apply setBgmStage_stores|].
  split.
  - intros E. pose proof (updateOnCorrect_kept w E) as (_ & _ & K3 & _ & K5 & _).
    split; [exact K3 | exact K5].
  - intros E. pose proof (updateOnCorrect_cleared w E) as (_ & _ & C3 & _ & C5 & _).
    split; [exact C3 | exact C5].
Qed.

Lemma C5_bgm_variation_switch_witness :
  let w := correctRun 4 (boot false (fun _ => 0%Q)) in
  In (FxCue CueBgmSwitch) (since w (updateOnCorrect w))
  /\ bgmStage (state (updateOnCorrect w)) = 1
  /\ step (state (updateOnCorrect w)) = 0.
Proof.
  cbv zeta.
  destruct (C5_bgm_variation_switch (correctRun 4 (boot false (fun _ => 0%Q))) 5)
    as (_ & _ & _ & _ & Hcue & Hreset & _).
  - lia.
  - split; [apply Hcue; vm_compute; discriminate|].
    split; [vm_compute; reflexivity|].
    apply Hreset. vm_compute. discriminate.
Defined.

(** ** Wrong answers *)

(** C2 fails as stated: with the beat running but SFX off, a wrong answer
    requests no mute window. *)
Lemma C2_counterexample :
  isRunning wrongWorld = true
  /\ parseAnswer (Some (answerValue wrongWorld)) = PNum 5
  /\ currentAnswer (state wrongWorld) = 0
  /\ muteSteps (state (checkAnswer wrongWorld)) = 0
  /\ muteSteps (state (checkAnswer wrongWorld)) <> SETTINGS.muteOnWrongSteps.
Proof.
  vm_compute. repeat split; try reflexivity. discriminate.
Qed.

(** C2, amended.  A wrong answer resets [correctTotal], [stageCorrect],
    [difficultyStage], the difficulty profile, [drumLevel], [bgmStage] and
    the transport position; it sets [muteSteps] to 4 when SFX is enabled
    and the sequencer is running, and leaves [muteSteps] as it was
    otherwise. *)
Theorem C2_wrong_answer_resets : forall w v,
  parseAnswer (Some (answerValue w)) = PNum v ->
  v <> currentAnswer (state w) ->
  let s' := state (checkAnswer w) in
  correctTotal s' = 0 /\ stageCorrect s' = 0 /\ difficultyStage s' = 0
  /\ diff s' = difficultyForStage 0
  /\ drumLevel s' = 0 /\ bgmStage s' = 0
  /\ step s' = 0 /\ barCounter s' = 0
  /\ muteSteps s'
     = (if soundEnabled (state w) && isRunning w
        then SETTINGS.muteOnWrongSteps else muteSteps (state w))
  /\ currentAnswer s' = currentAnswer (state w)
  /\ drum (checkAnswer w) = drum w.
Proof.
  intros w v Hp Hv. rewrite (checkAnswer_wrong w v Hp Hv).
  pose proof (resetProgression_state w)
    as (R1 & R2 & R3 & R4 & R5 & R6 & R7 & R8 & R9 & R10 & R11).
  pose proof (resetProgression_frame w) as (Rd & _).
  pose proof (playWrongFx_spec (resetProgression w)) as (P1 & P2 & _).
  pose proof (focusAnswer_frame true (playWrongFx (resetProgression w))) as (F1 & F2 & _).
  cbv zeta in *. rewrite F1, F2, P1, P2, Rd.
  unfold isRunning in *. rewrite Rd, R10.
  destruct (soundEnabled (state w) && running (drum w));
    [destruct (state (resetProgression w)); cbn in * |];
    repeat split; assumption || reflexivity.
Qed.

Lemma C2_wrong_answer_resets_witness :
  muteSteps (state (checkAnswer (handle EvSoundToggle wrongWorld)))
  = SETTINGS.muteOnWrongSteps.
Proof.
  apply (C2_wrong_answer_resets (handle EvSoundToggle wrongWorld) 5).
  - vm_compute. reflexivity.
  - vm_compute. discriminate.
Defined.

(** ** Rejected input *)

Lemma trimStart_nil_iff : forall s, JsString.trimStart s = [] <-> Blank s.
Proof.
  induction s as [| c s IH]; cbn.
  - split; [constructor | reflexivity].
  - destruct (JsString.isWhiteSpace c) eqn:E.
    + rewrite IH. split; intros H; [constructor; assumption|].
      inversion H; assumption.
    + split; [discriminate|]. intros H. inversion H; congruence.
Qed.

Lemma trimStart_not_blank : forall s, JsString.trimStart s <> [] ->
  exists c r, JsString.trimStart s = c :: r /\ JsString.isWhiteSpace c = false.
Proof.
  induction s as [| c s IH]; cbn; intros H; [congruence|].
  destruct (JsString.isWhiteSpace c) eqn:E; [apply IH; exact H|].
  exists c, s. split; [reflexivity | exact E].
Qed.

Lemma trimStart_snoc : forall s c,
  JsString.isWhiteSpace c = false -> JsString.trimStart (s ++ [c]) <> [].
Proof.
  induction s as [| x s IH]; intros c H; cbn.
  - rewrite H. discriminate.
  - destruct (JsString.isWhiteSpace x); [apply IH; exact H | discriminate].
Qed.

Lemma trim_nil_iff : forall s, JsString.trim s = [] <-> Blank s.
Proof.
  intros s. rewrite <- trimStart_nil_iff. unfold JsString.trim. split.
  - intros H. destruct (JsString.trimStart s) as [| c r] eqn:E; [reflexivity|].
    exfalso.
    assert (Hne : JsString.trimStart s <> []) by (rewrite E; discriminate).
    destruct (trimStart_not_blank s Hne) as (c' & r' & E' & Hc).
    rewrite E in E'. injection E' as -> ->.
    cbn in H. apply (trimStart_snoc (rev r') c' Hc).
    apply (f_equal (@rev N)) in H. rewrite rev_involutive in H. exact H.
  - intros ->. reflexivity.
Qed.

Lemma allDigits1_spec : forall s,
  JsString.allDigits1 s = true
  <-> s <> [] /\ Forall (fun c => JsString.isDigit c = true) s.
Proof.
  intros s. destruct s as [| c r].
  - cbn. split; [discriminate | intros [H _]; congruence].
  - unfold JsString.allDigits1. rewrite forallb_forall, Forall_forall.
    split; [intros H; split; [discriminate | exact H] | tauto].
Qed.

Lemma isIntLiteral_spec : forall s,
  JsString.isIntLiteral s = true <-> IntegerLiteral s.
Proof.
  intros s. unfold IntegerLiteral. destruct s as [| c r].
  - cbn. split; [discriminate|]. intros (ds & Hne & _ & [H | H]); congruence.
  - cbn [JsString.isIntLiteral]. destruct (JsString.isMinus c) eqn:Em.
    + rewrite allDigits1_spec. unfold JsString.isMinus in Em.
      apply N.eqb_eq in Em. subst c. split.
      * intros [Hne Hd]. exists r. tauto.
      * intros (ds & Hne & Hd & [H | H]).
        -- exfalso. subst ds. inversion Hd as [| ? ? Hc _]. discriminate Hc.
        -- injection H as ->. tauto.
    + rewrite allDigits1_spec. split.
      * intros [Hne Hd]. exists (c :: r). tauto.
      * intros (ds & Hne & Hd & [H | H]).
        -- subst ds. tauto.
        -- exfalso. injection H as -> _. discriminate Em.
Qed.

(** C9 fails as stated: " 0" is not an optionally signed run of digits, yet
    it parses to 0 (not NaN), is taken as the correct answer and advances
    the score. *)
Lemma C9_counterexample :
  JsString.isIntLiteral (answerValue paddedWorld) = false
  /\ answerValue paddedWorld <> []
  /\ parseAnswer (Some (answerValue paddedWorld)) = PNum 0
  /\ correctTotal (state paddedWorld) = 0
  /\ correctTotal (state (checkAnswer paddedWorld)) = 1.
Proof.
  vm_compute. repeat split; try reflexivity. discriminate.
Qed.

(** C9, amended.  White space around the answer is stripped first.  When
    nothing is left, [parseAnswer] returns [null]; when what is left is
    not an optionally signed run of decimal digits, it returns [NaN]; in
    both cases [checkAnswer] only focuses and selects the answer field and
    changes nothing else. *)
Theorem C9_invalid_input_is_rejected : forall w,
  let raw := answerValue w in
  Blank raw \/ ~ IntegerLiteral (JsString.trim raw) ->
  checkAnswer w = emit FxSelect (emit FxFocus w)
  /\ state (checkAnswer w) = state w
  /\ drum (checkAnswer w) = drum w
  /\ timers (checkAnswer w) = timers w
  /\ answerValue (checkAnswer w) = raw
  /\ since w (checkAnswer w) = [FxFocus; FxSelect]
  /\ (Blank raw -> parseAnswer (Some raw) = PNull)
  /\ (~ Blank raw -> parseAnswer (Some raw) = PNaN).
Proof.
  intros w raw H.
  assert (Hp : (Blank raw -> parseAnswer (Some raw) = PNull)
               /\ (~ Blank raw -> parseAnswer (Some raw) = PNaN)).
  { unfold parseAnswer. split.
    - intros Hb. apply trim_nil_iff in Hb. rewrite Hb. reflexivity.
    - intros Hnb. destruct H as [H | H]; [contradiction|].
      rewrite <- trim_nil_iff in Hnb. rewrite <- isIntLiteral_spec in H.
      destruct (JsString.trim raw) as [| c r]; [congruence|].
      destruct (JsString.isIntLiteral (c :: r)); [congruence | reflexivity]. }
  assert (Hc : checkAnswer w = focusAnswer true w).
  { apply checkAnswer_invalid. fold raw.
    destruct H as [H | H]; [left; apply Hp; exact H|].
    destruct (JsString.trim raw) as [| c r] eqn:E.
    - left. apply Hp. apply trim_nil_iff. exact E.
    - right. apply Hp. rewrite <- trim_nil_iff, E. discriminate. }
  rewrite Hc. unfold focusAnswer.
  split; [reflexivity|]. split; [reflexivity|]. split; [reflexivity|].
  split; [reflexivity|]. split; [reflexivity|].
  split; [| exact Hp].
  apply since_app. cbn. rewrite <- app_assoc. reflexivity.
Qed.

Lemma C9_invalid_input_is_rejected_witness :
  checkAnswer (handle (EvInput (JsString.of_string "1.5")) paddedWorld)
  = emit FxSelect (emit FxFocus (handle (EvInput (JsString.of_string "1.5")) paddedWorld)).
Proof.
  apply (C9_invalid_input_is_rejected
           (handle (EvInput (JsString.of_string "1.5")) paddedWorld)).
  right. rewrite <- isIntLiteral_spec. vm_compute. discriminate.
Defined.

(** ** Mute windows and the transport position *)

Lemma advanceTransport_muteSteps : forall m s,
  advanceTransport (set_muteSteps m s) = set_muteSteps m (advanceTransport s).
Proof.
  intros m s. destruct s. unfold advanceTransport. cbn.
  destruct (step0 + 1 >=? SETTINGS.stepsPerBar); reflexivity.
Qed.

Lemma scheduleStep_transport : forall now time w,
  step (state (scheduleStep now time w)) = step (advanceTransport (state w))
  /\ barCounter (state (scheduleStep now time w))
     = barCounter (advanceTransport (state w)).
Proof.
  intros now time w.
  destruct (Z_lt_le_dec 0 (muteSteps (state w))) as [Hm | Hm].
  - rewrite scheduleStep_muted by assumption. cbn.
    rewrite advanceTransport_muteSteps.
    destruct (advanceTransport (state w)). split; reflexivity.
  - rewrite scheduleStep_audible by assumption. rewrite soundStep_state.
    split; reflexivity.
Qed.

Lemma SilentlyMoved_refl : forall w, SilentlyMoved w w.
Proof. intros w. unfold SilentlyMoved. repeat split; reflexivity. Qed.

Lemma SilentlyMoved_trans : forall w1 w2 w3,
  SilentlyMoved w1 w2 -> SilentlyMoved w2 w3 -> SilentlyMoved w1 w3.
Proof.
  unfold SilentlyMoved. intros w1 w2 w3 H1 H2.
  repeat match goal with H : _ /\ _ |- _ => destruct H end.
  repeat split; congruence.
Qed.

Lemma mutedStep_spec : forall now time w,
  0 < muteSteps (state w) -> TransportInv (state w) ->
  let w' := scheduleStep now time w in
  SilentlyMoved w w'
  /\ muteSteps (state w') = muteSteps (state w) - 1
  /\ TransportInv (state w')
  /\ position (state w') = (position (state w) + 1) mod 1024.
Proof.
  intros now time w Hm Ht. cbv zeta. rewrite scheduleStep_muted by assumption.
  pose proof (advanceTransport_frame (state w))
    as (F1 & F2 & F3 & F4 & F5 & F6 & F7 & F8 & F9).
  pose proof (advanceTransport_inv (state w) Ht) as Hi.
  pose proof (advanceTransport_position (state w) Ht) as Hpos.
  cbv zeta in *. destruct w as [s d ts n a r e].
  unfold SilentlyMoved, TransportInv, position, with_state in *.
  cbn [state drum timers nextTimerId answerValue random effects] in *.
  rewrite advanceTransport_muteSteps.
  destruct (advanceTransport s). cbn in *.
  repeat split; try assumption; try reflexivity; apply Hi.
Qed.

Lemma mutedSteps_spec : forall calls w,
  Z.of_nat (List.length calls) <= muteSteps (state w) -> TransportInv (state w) ->
  let w' := scheduleSteps calls w in
  SilentlyMoved w w'
  /\ muteSteps (state w') = muteSteps (state w) - Z.of_nat (List.length calls)
  /\ TransportInv (state w')
  /\ position (state w')
     = (position (state w) + Z.of_nat (List.length calls)) mod 1024.
Proof.
  induction calls as [| c cs IH]; intros w Hm Ht.
  - cbn. split; [apply SilentlyMoved_refl|]. split; [lia|]. split; [exact Ht|].
    rewrite Z.add_0_r. symmetry. apply Z.mod_small.
    destruct Ht as [Hs Hb]. unfold position, SETTINGS.stepsPerBar,
      SETTINGS.barsCycle in *. lia.
  - cbn [List.length] in Hm. rewrite Nat2Z.inj_succ in Hm.
    pose proof (mutedStep_spec (fst c) (snd c) w ltac:(lia) Ht) as (S1 & M1 & T1 & P1).
    cbv zeta in *. cbn [scheduleSteps fold_left].
    specialize (IH (scheduleStep (fst c) (snd c) w) ltac:(lia) T1).
    destruct IH as (S2 & M2 & T2 & P2). fold (scheduleSteps cs) in *.
    unfold scheduleSteps in *.
    split; [apply (SilentlyMoved_trans _ _ _ S1 S2)|].
    split; [cbn [List.length]; lia|]. split; [exact T2|].
    rewrite P2, P1. cbn [List.length]. rewrite Nat2Z.inj_succ.
    rewrite Z.add_mod_idemp_l by lia. f_equal. lia.
Qed.

(** C3.  With [muteSteps = N], each of the next [N] calls of [scheduleStep]
    adds nothing to the trace (no kick, hi-hat or snare), leaves the timers
    and the pulse queue untouched, counts [muteSteps] down by one and moves
    the position one step forward on the 16 x 64 cycle; the call after them
    takes the sounding branch, triggering the voices of its step. *)
Theorem C3_mute_window : forall calls w,
  muteSteps (state w) = Z.of_nat (List.length calls) ->
  TransportInv (state w) ->
  (forall k, (k <= List.length calls)%nat ->
     let wk := scheduleSteps (firstn k calls) w in
     since w wk = []
     /\ timers wk = timers w /\ drum wk = drum w
     /\ muteSteps (state wk) = muteSteps (state w) - Z.of_nat k
     /\ TransportInv (state wk)
     /\ position (state wk) = (position (state w) + Z.of_nat k) mod 1024)
  /\ (forall now time,
        let wN := scheduleSteps calls w in
        let w' := scheduleStep now time wN in
        muteSteps (state wN) = 0
        /\ w' = soundStep now time wN
        /\ since wN w' = voices time (state wN)
        /\ state w' = advanceTransport (state wN)).
Proof.
  intros calls w Hm Ht. split.
  - intros k Hk.
    assert (Hlen : List.length (firstn k calls) = k) by (apply firstn_length_le; exact Hk).
    pose proof (mutedSteps_spec (firstn k calls) w) as H.
    rewrite Hlen in H. specialize (H ltac:(lia) Ht).
    destruct H as (S1 & M1 & T1 & P1). cbv zeta.
    destruct S1 as (E1 & E2 & _ & E4 & _).
    split; [apply since_app; rewrite app_nil_r; exact E1|].
    repeat split; try assumption; apply T1.
  - intros now time.
    pose proof (mutedSteps_spec calls w ltac:(lia) Ht) as (_ & M1 & _).
    cbv zeta in *.
    assert (Hz : muteSteps (state (scheduleSteps calls w)) = 0) by lia.
    split; [exact Hz|].
    rewrite scheduleStep_audible by lia.
    split; [reflexivity|].
    split; [apply since_app, soundStep_effects | apply soundStep_state].
Qed.

Lemma C3_mute_window_witness :
  let w := checkAnswer (handle EvSoundToggle wrongWorld) in
  let calls := [(0, 1 # 20); (0, 7 # 40); (0, 3 # 10); (0, 17 # 40)]%Q in
  since w (scheduleSteps calls w) = []
  /\ step (state (scheduleSteps calls w)) = 4
  /\ since (scheduleSteps calls w) (scheduleStep 0 (11 # 20) (scheduleSteps calls w))
     = [FxKick (11 # 20)].
Proof.
  cbv zeta.
  pose proof (C3_mute_window
                [(0, 1 # 20); (0, 7 # 40); (0, 3 # 10); (0, 17 # 40)]%Q
                (checkAnswer (handle EvSoundToggle wrongWorld))) as H.
  destruct H as [Hk Hn].
  - vm_compute. reflexivity.
  - vm_compute. repeat split; discriminate.
  - split; [apply (Hk 4%nat); cbn; lia|].
    split; [vm_compute; reflexivity|].
    destruct (Hn 0%Q (11 # 20)%Q) as (_ & _ & Hv & _). rewrite Hv.
    vm_compute. reflexivity.
Defined.

(** C7.  [0 <= step < 16] and [0 <= barCounter < 64] are preserved by
    [scheduleStep] (muted or not) and established by [resetTransport];
    below step 15 the step grows by one and the bar stays, from step 15 the
    next step is 0 with the bar incremented modulo 64, and from step 15 of
    bar 63 the next position is step 0 of bar 0. *)
Theorem C7_transport_wraps : forall now time w,
  TransportInv (state w) ->
  let s := state w in
  let s' := state (scheduleStep now time w) in
  TransportInv s'
  /\ TransportInv (state (resetTransport w))
  /\ step (state (resetTransport w)) = 0
  /\ barCounter (state (resetTransport w)) = 0
  /\ (step s < 15 -> step s' = step s + 1 /\ barCounter s' = barCounter s)
  /\ (step s = 15 -> step s' = 0 /\ barCounter s' = (barCounter s + 1) mod 64)
  /\ (step s = 15 -> barCounter s = 63 -> step s' = 0 /\ barCounter s' = 0).
Proof.
  intros now time w Ht s s'.
  pose proof (scheduleStep_transport now time w) as [Es Eb].
  pose proof (advanceTransport_inv (state w) Ht) as Hi.
  pose proof (advanceTransport_step (state w) Ht) as [Hlt Heq].
  cbv zeta in *. subst s s'.
  split; [unfold TransportInv in *; rewrite Es, Eb; exact Hi|].
  split; [unfold TransportInv, SETTINGS.stepsPerBar, SETTINGS.barsCycle; cbn; lia|].
  split; [reflexivity|]. split; [reflexivity|].
  rewrite Es, Eb. split; [exact Hlt|]. split; [exact Heq|].
  intros H15 H63. destruct (Heq H15) as [-> ->]. rewrite H63. split; reflexivity.
Qed.

Lemma C7_transport_wraps_witness :
  let w := with_state (fun s => set_barCounter 63 (set_step 15 s))
             (boot false (fun _ => 0%Q)) in
  step (state (scheduleStep 0 0 w)) = 0
  /\ barCounter (state (scheduleStep 0 0 w)) = 0.
Proof.
  cbv zeta.
  apply (C7_transport_wraps 0%Q 0%Q
           (with_state (fun s => set_barCounter 63 (set_step 15 s))
              (boot false (fun _ => 0%Q)))).
  - vm_compute. repeat split; discriminate.
  - reflexivity.
  - reflexivity.
Defined.

(** ** Visual pulses *)

Lemma voices_kick : forall time s, In (FxKick time) (voices time s) <-> kickHit s = true.
Proof.
  intros time s. unfold voices.
  destruct (kickHit s), ((drumLevel s >=? 1) && hatHit s), (snareHit s); cbn;
    split; intros H; try reflexivity; try discriminate; try tauto;
    repeat (destruct H as [H | H]; try discriminate H); destruct H.
Qed.

Lemma voices_snare : forall time s, In (FxSnare time) (voices time s) <-> snareHit s = true.
Proof.
  intros time s. unfold voices.
  destruct (kickHit s), ((drumLevel s >=? 1) && hatHit s), (snareHit s); cbn;
    split; intros H; try reflexivity; try discriminate; try tauto;
    repeat (destruct H as [H | H]; try discriminate H); destruct H.
Qed.

Lemma checkAnswer_correct_frame : forall w,
  parseAnswer (Some (answerValue w)) = PNum (currentAnswer (state w)) ->
  let w' := checkAnswer w in
  state w' = state (updateOnCorrect w)
  /\ drum w' = drum w
  /\ answerValue w' = answerValue w
  /\ random w' = random w
  /\ timers w' = timers w ++ [mkTimer (nextTimerId w) SETTINGS.nextDelayMs CbNewProblem]
  /\ nextTimerId w' = S (nextTimerId w).
Proof.
  intros w H. cbv zeta. rewrite checkAnswer_correct by assumption.
  pose proof (updateOnCorrect_frame w) as (U1 & U2 & U3 & U4 & U5 & _).
  cbv zeta in *. revert U1 U2 U3 U4 U5.
  generalize (updateOnCorrect w). intros u U1 U2 U3 U4 U5.
  destruct u as [s d ts n a r e]. cbn in *. subst.
  unfold playCorrectFx, safePlaySfx, safePlay. cbn.
  destruct (soundEnabled s); cbn; repeat split; reflexivity.
Qed.

(** *** The pulse queue on its own: no assumption on the beat level *)

Lemma Queue_keep : forall w w',
  timers w' = timers w -> nextTimerId w' = nextTimerId w -> drum w' = drum w ->
  TimersInv w /\ PulseInv w -> TimersInv w' /\ PulseInv w'.
Proof.
  intros w w' H1 H2 H3. apply TimerInv_ext; try assumption. rewrite H3. reflexivity.
Qed.

Lemma Queue_scheduleStep : forall now time w,
  TimersInv w /\ PulseInv w ->
  TimersInv (scheduleStep now time w) /\ PulseInv (scheduleStep now time w).
Proof.
  intros now time w Ht.
  destruct (Z_lt_le_dec 0 (muteSteps (state w))) as [Hm | Hm].
  - rewrite scheduleStep_muted by assumption.
    revert Ht. apply TimerInv_ext; reflexivity.
  - rewrite scheduleStep_audible by assumption.
    pose proof (soundStep_pulse now time w) as (_ & _ & _ & Hno & Hyes).
    cbv zeta in *.
    destruct (kickHit (state w) || snareHit (state w)) eqn:E.
    + destruct (Hyes eq_refl) as [_ Hq]. clear Hno Hyes.
      destruct Ht as [Hti Hpu]. unfold PulseInv in Hpu.
      destruct (uiPulseTimer (drum w)) as [id |] eqn:Eu.
      * destruct Hq as (Q1 & Q2 & Q3).
        apply (TimerInv_ext w); try assumption.
        -- rewrite Q1, Eu. reflexivity.
        -- split; [assumption | unfold PulseInv; rewrite Eu; assumption].
      * destruct Hq as (Q1 & Q2 & Q3). split.
        -- unfold TimersInv. rewrite Q2, Q3. apply TimersOk_add. exact Hti.
        -- unfold PulseInv, pendingPulses in *. rewrite Q1, Q2.
           rewrite pulsesOf_app, Hpu. reflexivity.
    + destruct (Hno eq_refl) as (_ & N1 & N2 & N3).
      revert Ht. apply TimerInv_ext; assumption.
Qed.

Lemma Queue_tickLoop : forall fuel now w,
  TimersInv w /\ PulseInv w ->
  TimersInv (tickLoop fuel now w) /\ PulseInv (tickLoop fuel now w).
Proof.
  induction fuel as [| fuel IH]; intros now w H; [exact H|].
  cbn. destruct (Qlt_le_dec _ _); [| exact H].
  apply IH. pose proof (Queue_scheduleStep now (nextTime (drum w)) w H) as Ht.
  revert Ht. apply TimerInv_ext; reflexivity.
Qed.

Lemma Queue_start : forall now w,
  TimersInv w /\ PulseInv w -> TimersInv (start now w) /\ PulseInv (start now w).
Proof.
  intros now w (Hti & Hpu). destruct w as [s d ts n a r e]. destruct d.
  unfold start, TimersInv, PulseInv, pendingPulses in *. cbn in *.
  destruct running0; cbn.
  - split; assumption.
  - split; [apply TimersOk_add; assumption|].
    rewrite pulsesOf_app, Hpu. apply app_nil_r.
Qed.

Lemma Queue_stop : forall w,
  TimersInv w /\ PulseInv w -> TimersInv (stop w) /\ PulseInv (stop w).
Proof.
  intros w (Hti & Hpu). destruct w as [s d ts n a r e]. destruct d.
  unfold stop, TimersInv, PulseInv, pendingPulses in *. cbn in *.
  destruct timerId0 as [i |]; [destruct (i =? 0)%nat|];
    destruct uiPulseTimer0 as [pid |]; cbn;
    (split; [repeat apply TimersOk_dropTimer; assumption|]);
    rewrite ?pulsesOf_dropTimer, Hpu; try reflexivity;
    try apply filter_single_self.
  cbn. destruct (pid =? i)%nat; cbn; [| rewrite Nat.eqb_refl]; reflexivity.
Qed.

Lemma Queue_uiPulse : forall id t w,
  TimersInv w /\ PulseInv w ->
  In t (timers w) -> tid t = id -> tcallback t = CbUiPulse ->
  TimersInv (uiPulseCallback (clearTimer id w))
  /\ PulseInv (uiPulseCallback (clearTimer id w)).
Proof.
  intros id t w (Hti & Hpu) Hin Hid Hcb.
  assert (Hmem : In id (pendingPulses w)).
  { rewrite <- Hid. apply In_pulsesOf; [assumption|]. unfold isPulse. rewrite Hcb.
    reflexivity. }
  destruct w as [s d ts n a r e]. destruct d.
  unfold TimersInv, PulseInv, pendingPulses in *. cbn in *.
  assert (Hz : pulsesOf (dropTimer id ts) = []).
  { rewrite pulsesOf_dropTimer, Hpu. rewrite Hpu in Hmem.
    destruct uiPulseTimer0 as [pid |]; [| destruct Hmem].
    destruct Hmem as [-> | []]. apply filter_single_self. }
  unfold uiPulseCallback. cbn.
  destruct running0; cbn;
    (split; [apply TimersOk_dropTimer; assumption | exact Hz]).
Qed.

Lemma Queue_clearOther : forall id t w,
  TimersInv w /\ PulseInv w ->
  In t (timers w) -> tid t = id -> isPulse t = false ->
  TimersInv (clearTimer id w) /\ PulseInv (clearTimer id w).
Proof.
  intros id t w (Hti & Hpu) Hin Hid Hcb. split.
  - apply TimersOk_dropTimer. exact Hti.
  - unfold PulseInv, pendingPulses in *. cbn.
    rewrite pulsesOf_dropTimer, filter_neq_id; [exact Hpu|].
    intros Hmem. apply pulsesOf_In in Hmem. destruct Hmem as (t' & Hin' & Hid' & Hp').
    assert (t = t') by (apply (TimersOk_unique _ _ _ _ Hti); congruence).
    subst t'. congruence.
Qed.

Lemma Queue_newProblem : forall w,
  TimersInv w /\ PulseInv w -> TimersInv (newProblem w) /\ PulseInv (newProblem w).
Proof.
  intros w Ht. pose proof (newProblem_frame w) as (_ & Hd & Hts & Hn). cbv zeta in *.
  revert Ht. apply Queue_keep; assumption.
Qed.

Lemma Queue_checkAnswer : forall w,
  TimersInv w /\ PulseInv w -> TimersInv (checkAnswer w) /\ PulseInv (checkAnswer w).
Proof.
  intros w Ht.
  destruct (parseAnswer (Some (answerValue w))) as [| | v] eqn:E.
  - rewrite checkAnswer_invalid by tauto.
    pose proof (focusAnswer_frame true w) as (_ & F2 & F3 & F4 & _). cbv zeta in *.
    revert Ht. apply Queue_keep; assumption.
  - rewrite checkAnswer_invalid by tauto.
    pose proof (focusAnswer_frame true w) as (_ & F2 & F3 & F4 & _). cbv zeta in *.
    revert Ht. apply Queue_keep; assumption.
  - destruct (Z.eq_dec v (currentAnswer (state w))) as [Ev | Ev].
    + subst v.
      pose proof (checkAnswer_correct_frame w E) as (_ & D1 & _ & _ & T1 & N1).
      cbv zeta in *. destruct Ht as [Hti Hpu].
      unfold TimersInv, PulseInv, pendingPulses in *. rewrite D1, T1, N1.
      split; [apply TimersOk_add; exact Hti|].
      rewrite pulsesOf_app, Hpu. apply app_nil_r.
    + rewrite (checkAnswer_wrong w v) by assumption.
      pose proof (resetProgression_frame w) as (R1 & R2 & R3 & _).
      pose proof (playWrongFx_spec (resetProgression w)) as (_ & P2 & P3 & P4 & _).
      pose proof (focusAnswer_frame true (playWrongFx (resetProgression w)))
        as (_ & F2 & F3 & F4 & _).
      cbv zeta in *. revert Ht. apply Queue_keep; congruence.
Qed.

Lemma Queue_handle : forall e w,
  TimersInv w /\ PulseInv w -> TimersInv (handle e w) /\ PulseInv (handle e w).
Proof.
  intros e w H. destruct e; cbn [handle].
  - revert H. apply TimerInv_ext; reflexivity.
  - apply Queue_checkAnswer; exact H.
  - unfold resetAll. apply Queue_newProblem.
    pose proof (resetProgression_frame w) as (R1 & R2 & R3 & _). cbv zeta in *.
    revert H. apply Queue_keep; assumption.
  - unfold drumToggleClick.
    assert (H' : TimersInv (ensureCtx w) /\ PulseInv (ensureCtx w))
      by (revert H; apply TimerInv_ext; reflexivity).
    destruct (negb (isRunning (ensureCtx w)));
      [apply Queue_start | apply Queue_stop]; exact H'.
  - apply Queue_start; exact H.
  - destruct w as [s d ts n a r e]. destruct s.
    unfold soundToggleClick, renderSoundToggle, safePlay. cbn.
    destruct soundEnabled0; exact H.
  - unfold fireTimer.
    destruct (find _ (timers w)) as [t |] eqn:E; [| exact H].
    apply find_timer in E. destruct E as [Hin Hid].
    destruct (tcallback t) eqn:Ecb.
    + unfold tick. apply Queue_tickLoop. revert H. apply TimerInv_ext; reflexivity.
    + apply (Queue_uiPulse id t); assumption.
    + apply Queue_newProblem. apply (Queue_clearOther id t); try assumption.
      unfold isPulse. rewrite Ecb. reflexivity.
Qed.

Lemma uiPulseCallback_both : forall w,
  running (drum w) = true -> uiPulseHits (drum w) = mkHits true true ->
  since w (uiPulseCallback w)
  = [FxRetriggerBatch [(NBody, ["bg-kick"; "scan-snare"]%string);
                       (NContainer, ["ui-kick"; "ui-snare"]%string)]]
  /\ uiPulseHits (drum (uiPulseCallback w)) = noHits
  /\ uiPulseTimer (drum (uiPulseCallback w)) = None.
Proof.
  intros w Hr Hh. destruct w as [s d ts n a r e]. destruct d. cbn in Hr, Hh. subst.
  split; [apply since_app; reflexivity|]. split; reflexivity.
Qed.

(** C8.  Whatever the beat level, as long as the pending pulse timers are
    the one [uiPulseTimer] holds (true at boot and kept by every event, so
    true at any time): at most one pulse timer is pending.  A sounding
    (non-muted) [scheduleStep] queues a pulse iff the kick or the snare
    fired on the step: then exactly one pulse timer is pending afterwards,
    a new one only if none was pending, and the step's hit flags, one or
    both, are merged into the pending flags; otherwise the timers and the
    pulse queue are untouched.  A pulse holding both flags is delivered as
    one batch carrying the kick and the snare classes. *)
Theorem C8_one_pulse_timer : forall w,
  TimersInv w -> PulseInv w ->
  (List.length (pendingPulses w) <= 1)%nat
  /\ (forall e, TimersInv (handle e w) /\ PulseInv (handle e w))
  /\ (forall lowSpec r, TimersInv (boot lowSpec r) /\ PulseInv (boot lowSpec r))
  /\ (forall w0, reachable w0 -> (List.length (pendingPulses w0) <= 1)%nat)
  /\ (forall now time,
       muteSteps (state w) <= 0 ->
       let w' := scheduleStep now time w in
       let k := kickHit (state w) in
       let sn := snareHit (state w) in
       (In (FxKick time) (since w w') <-> k = true)
       /\ (In (FxSnare time) (since w w') <-> sn = true)
       /\ (k || sn = true ->
           uiPulseHits (drum w') = mergeHits (uiPulseHits (drum w)) (mkHits k sn)
           /\ List.length (pendingPulses w') = 1%nat
           /\ (uiPulseTimer (drum w) = None ->
               uiPulseTimer (drum w') = Some (nextTimerId w)
               /\ pendingPulses w' = [nextTimerId w])
           /\ (forall id, uiPulseTimer (drum w) = Some id ->
               uiPulseTimer (drum w') = Some id /\ timers w' = timers w))
       /\ (k || sn = false ->
           timers w' = timers w
           /\ uiPulseTimer (drum w') = uiPulseTimer (drum w)
           /\ uiPulseHits (drum w') = uiPulseHits (drum w)))
  /\ (forall x,
       running (drum x) = true -> uiPulseHits (drum x) = mkHits true true ->
       since x (uiPulseCallback x)
       = [FxRetriggerBatch [(NBody, ["bg-kick"; "scan-snare"]%string);
                            (NContainer, ["ui-kick"; "ui-snare"]%string)]]
       /\ uiPulseHits (drum (uiPulseCallback x)) = noHits
       /\ uiPulseTimer (drum (uiPulseCallback x)) = None).
Proof.
  intros w Hti Hpu.
  assert (Hlen : forall x, PulseInv x -> (List.length (pendingPulses x) <= 1)%nat).
  { intros x Hx. unfold PulseInv in Hx. rewrite Hx.
    destruct (uiPulseTimer (drum x)); cbn; lia. }
  split; [apply Hlen; exact Hpu|].
  split; [intros e; apply Queue_handle; split; assumption|].
  split; [intros lowSpec r; apply (WorldInv_boot lowSpec r)|].
  split; [intros w0 H0; apply Hlen; apply (reachable_inv w0 H0)|].
  split; [| apply uiPulseCallback_both].
  unfold PulseInv in Hpu.
  intros now time Hm w' k sn. subst w'.
  rewrite scheduleStep_audible by assumption.
  pose proof (soundStep_effects now time w) as He. apply since_app in He.
  pose proof (soundStep_pulse now time w) as (_ & _ & _ & Hno & Hyes).
  cbv zeta in *. fold k sn in Hno, Hyes.
  rewrite He. split; [apply voices_kick|]. split; [apply voices_snare|]. split.
  - intros Hf. destruct (Hyes Hf) as [Hh Hq]. split; [exact Hh|].
    unfold pendingPulses in *.
    destruct (uiPulseTimer (drum w)) as [id |].
    + destruct Hq as (Q1 & Q2 & Q3). rewrite Q2, Hpu.
      split; [reflexivity|]. split; [discriminate|].
      intros id' E. injection E as <-. split; [exact Q1 | reflexivity].
    + destruct Hq as (Q1 & Q2 & Q3). rewrite Q2, pulsesOf_app, Hpu.
      split; [reflexivity|]. split; [intros _; split; [exact Q1 | reflexivity]|].
      discriminate.
  - intros Hf. destruct (Hno Hf) as (N1 & N2 & N3 & _). repeat split; assumption.
Qed.

Lemma C8_one_pulse_timer_witness :
  let w := with_state (fun s => set_step 4 (set_drumLevel 2 s))
             (boot false (fun _ => 0%Q)) in
  let w' := scheduleStep 0 (1 # 4) w in
  In (FxKick (1 # 4)) (since w w') /\ In (FxSnare (1 # 4)) (since w w')
  /\ uiPulseHits (drum w') = mkHits true true
  /\ List.length (pendingPulses w') = 1%nat.
Proof.
  cbv zeta.
  destruct (C8_one_pulse_timer
              (with_state (fun s => set_step 4 (set_drumLevel 2 s))
                 (boot false (fun _ => 0%Q))))
    as (_ & _ & _ & _ & Hstep & _).
  - vm_compute. split; constructor.
  - vm_compute. reflexivity.
  - destruct (Hstep 0%Q (1 # 4)%Q) as (Hk & Hs & Hq & _); [vm_compute; discriminate|].
    split; [apply Hk; vm_compute; reflexivity|].
    split; [apply Hs; vm_compute; reflexivity|].
    destruct Hq as (Hh & Hl & _); [vm_compute; reflexivity|].
    split; [rewrite Hh; vm_compute; reflexivity | exact Hl].
Defined.

(** ** Problem generation *)

Lemma randInt_lower : forall r min max,
  (0 <= r)%Q -> min <= max -> min <= randInt r min max.
Proof.
  intros r min max Hr Hm. unfold randInt.
  assert (0 <= Qfloor (r * inject_Z (max - min + 1))); [|lia].
  change 0 with (Qfloor 0). apply Qfloor_resp_le.
  apply Qmult_le_0_compat; [exact Hr|].
  change 0%Q with (inject_Z 0). rewrite <- Zle_Qle. lia.
Qed.

Lemma randInt_upper : forall r min max,
  (r < 1)%Q -> min <= max -> randInt r min max <= max.
Proof.
  intros r min max Hr Hm. unfold randInt.
  assert (Qfloor (r * inject_Z (max - min + 1)) < max - min + 1); [|lia].
  rewrite Zlt_Qlt.
  apply Qle_lt_trans with (r * inject_Z (max - min + 1))%Q; [apply Qfloor_le|].
  assert (0 < inject_Z (max - min + 1))%Q.
  { change 0%Q with (inject_Z 0). rewrite <- Zlt_Qlt. lia. }
  nra.
Qed.

Lemma toDouble_exact : forall z, Z.abs z < 2 ^ 53 -> toDouble z = z.
Proof.
  intros z H. unfold toDouble. apply Z.ltb_lt in H. rewrite H. reflexivity.
Qed.




Lemma pickMode_draws : forall (P : Q -> Prop) s r,
  (forall n, P (r n)) -> forall n, P (snd (pickMode s r) n).
Proof.
  intros P s r H n. unfold pickMode.
  destruct (negb (Mode_eqb (dmode (diff s)) ModeMix)); cbn; apply H.
Qed.


Lemma stage_counts_clears : forall w,
  0 <= correctTotal (state w) ->
  difficultyStage (state w) = correctTotal (state w) / 20 ->
  difficultyStage (state (updateOnCorrect w)) = (correctTotal (state w) + 1) / 20.
Proof.
  intros w Hct Hd.
  assert (Hrem : Z.rem (correctTotal (state w) + 1) 20
                 = (correctTotal (state w) + 1) mod 20)
    by (apply jsrem_mod; lia).
  pose proof (Z.div_mod (correctTotal (state w)) 20 ltac:(lia)) as D0.
  pose proof (Z.mod_pos_bound (correctTotal (state w)) 20 ltac:(lia)) as B0.
  pose proof (Z.div_mod (correctTotal (state w) + 1) 20 ltac:(lia)) as D1.
  pose proof (Z.mod_pos_bound (correctTotal (state w) + 1) 20 ltac:(lia)) as B1.
  unfold SETTINGS.stageClearEveryCorrect in *.
  destruct (Z.eq_dec (Z.rem (correctTotal (state w) + 1) 20) 0) as [E | E].
  - pose proof (updateOnCorrect_cleared w E) as (C1 & _). cbv zeta in C1.
    rewrite C1, Hd. lia.
  - pose proof (updateOnCorrect_kept w E) as (K1 & _). cbv zeta in K1.
    rewrite K1, Hd. lia.
Qed.

(** Checking the standing right answer over and over: every count of
    correct answers, and with it every difficulty stage, is reached. *)
Lemma checkedWorld_spec : forall n,
  let w := checkedWorld n in
  reachable w
  /\ answerValue w = JsString.of_string "0"
  /\ currentAnswer (state w) = 0
  /\ random w = random (checkedWorld 0)
  /\ correctTotal (state w) = Z.of_N n
  /\ difficultyStage (state w) = Z.of_N n / 20
  /\ diff (state w) = difficultyForStage (Z.of_N n / 20).
Proof.
  intros n. cbv zeta. induction n as [| n IH] using N.peano_ind.
  - split; [apply reach_step, reach_boot|]. vm_compute. repeat split; reflexivity.
  - destruct IH as (Hr & Ha & Hc & Hrd & Hct & Hs & Hd).
    unfold checkedWorld in *. rewrite N.iter_succ.
    set (w := N.iter n checkAnswer
                (handle (EvInput (JsString.of_string "0"))
                   (boot false longSessionDraws))) in *.
    assert (Hp : parseAnswer (Some (answerValue w)) = PNum (currentAnswer (state w))).
    { rewrite Ha, Hc. vm_compute. reflexivity. }
    pose proof (checkAnswer_correct_frame w Hp) as (S1 & _ & A1 & R1 & _).
    pose proof (updateOnCorrect_frame w) as (_ & _ & _ & _ & _ & C1 & _ & _ & K1).
    pose proof (stage_counts_clears w ltac:(lia) ltac:(rewrite Hs, Hct; reflexivity)) as St.
    pose proof (reachable_inv _ (reach_step EvCheck w Hr)) as (Hpi & _).
    cbv zeta in *. cbn [handle] in Hpi.
    assert (Hn : Z.of_N (N.succ n) = Z.of_N n + 1) by lia.
    split; [exact (reach_step EvCheck w Hr)|].
    split; [rewrite A1; exact Ha|].
    split; [rewrite S1, C1; exact Hc|].
    split; [rewrite R1; exact Hrd|].
    split; [rewrite S1, K1; lia|].
    split; [rewrite S1, St, Hct, Hn; reflexivity|].
    destruct Hpi as (_ & _ & _ & _ & _ & Hdf & _).
    rewrite Hdf, S1, St, Hct, Hn. reflexivity.
Qed.




(** * Further properties of the code *)

(** ** Pure utilities *)



Lemma difficultyForStage_cases : forall stage,
  (stage <= 0 /\ difficultyForStage stage = mkDifficulty 1 20 ModeSub false)
  \/ (stage = 1 /\ difficultyForStage stage = mkDifficulty 1 30 ModeMix false)
  \/ (stage = 2 /\ difficultyForStage stage = mkDifficulty 2 30 ModeMix false)
  \/ (3 <= stage
      /\ difficultyForStage stage
         = mkDifficulty 2 (40 + (stage - 3) * 10) ModeMix false).
Proof.
  intros stage. unfold difficultyForStage.
  destruct (Z.leb_spec stage 0); [left; split; [lia | reflexivity]|].
  destruct (Z.eqb_spec stage 1); [right; left; split; [lia | reflexivity]|].
  destruct (Z.eqb_spec stage 2); [right; right; left; split; [lia | reflexivity]|].
  right; right; right. split; [lia | reflexivity].
Qed.

(** X2.  The difficulty presets: at every stage the operand range is
    well-formed with positive operands, negative results are disallowed,
    the mode is "sub" exactly at stage 0 and below, and a later stage
    never has a smaller lower or upper bound. *)
Theorem difficultyForStage_ranges : forall stage stage',
  stage <= stage' ->
  1 <= dmin (difficultyForStage stage) <= dmax (difficultyForStage stage)
  /\ allowNegative (difficultyForStage stage) = false
  /\ (dmode (difficultyForStage stage) = ModeSub <-> stage <= 0)
  /\ (dmode (difficultyForStage stage) = ModeMix <-> 1 <= stage)
  /\ dmin (difficultyForStage stage) <= dmin (difficultyForStage stage')
  /\ dmax (difficultyForStage stage) <= dmax (difficultyForStage stage').
Proof.
  intros stage stage' H.
  destruct (difficultyForStage_cases stage) as [[Hs E] | [[Hs E] | [[Hs E] | [Hs E]]]];
  destruct (difficultyForStage_cases stage') as [[Hs' E'] | [[Hs' E'] | [[Hs' E'] | [Hs' E']]]];
    rewrite E, E'; cbn [dmin dmax dmode allowNegative]; try lia;
    (split; [lia|]); (split; [reflexivity|]);
    (split; [split; intros; (lia || discriminate || reflexivity)|]);
    (split; [split; intros; (lia || discriminate || reflexivity)|]); lia.
Qed.

Lemma difficultyForStage_ranges_witness :
  dmax (difficultyForStage 2) <= dmax (difficultyForStage 7).
Proof.
  apply (difficultyForStage_ranges 2 7). lia.
Defined.

(** X3.  Beat level and BGM variation never decrease as [stageCorrect]
    grows; the beat level is 0 below 10, 1 from 10 to 19 and 2 from 20 on,
    and the variation is capped at 3. *)
Theorem beat_growth_is_monotone : forall a b,
  a <= b ->
  computeDrumLevel a <= computeDrumLevel b
  /\ computeBgmStage a <= computeBgmStage b
  /\ (computeDrumLevel a = 0 <-> a < 10)
  /\ (computeDrumLevel a = 1 <-> 10 <= a < 20)
  /\ (computeDrumLevel a = 2 <-> 20 <= a)
  /\ computeBgmStage a <= 3.
Proof.
  intros a b H.
  assert (Hd : forall n, (computeDrumLevel n = 0 /\ n < 10)
                         \/ (computeDrumLevel n = 1 /\ 10 <= n < 20)
                         \/ (computeDrumLevel n = 2 /\ 20 <= n)).
  { intros n. unfold computeDrumLevel, SETTINGS.unlockSnareAt, SETTINGS.unlockHihatAt.
    rewrite !Z.geb_leb.
    destruct (Z.leb_spec 20 n); [lia|]. destruct (Z.leb_spec 10 n); lia. }
  assert (Hdiv : a / 5 <= b / 5) by (apply Z.div_le_mono; lia).
  unfold computeBgmStage, SETTINGS.bgmSwitchEveryCorrect, SETTINGS.bgmStageMax.
  destruct (Hd a) as [[Ea Ha] | [[Ea Ha] | [Ea Ha]]];
  destruct (Hd b) as [[Eb Hb] | [[Eb Hb] | [Eb Hb]]];
    rewrite ?Ea, ?Eb; repeat split; intros; try lia.
Qed.

Lemma beat_growth_is_monotone_witness :
  computeDrumLevel 9 <= computeDrumLevel 10 /\ computeBgmStage 9 <= computeBgmStage 10.
Proof.
  destruct (beat_growth_is_monotone 9 10) as (H1 & H2 & _); [lia|]. split; assumption.
Defined.

(** ** The drum pattern *)

Lemma geb_cases : forall a b, (a >=? b) = true /\ b <= a \/ (a >=? b) = false /\ a < b.
Proof. intros a b. rewrite Z.geb_leb. destruct (Z.leb_spec b a); [left | right]; tauto. Qed.

(** X4.  The pattern in numbers.  A bar has 4 kicks in variation 0, 6 in
    variation 1, 7 in variation 2 and 9 in variation 3 (and above); the
    kick falls on steps 0, 4, 8 and 12 in every variation.  The hi-hat is
    absent at beat level 0 and otherwise falls on 8 steps of a bar below
    variation 3 and on all 16 from variation 3 on. *)
Theorem pattern_density : forall s,
  kicksPerBar s
  = (if bgmStage s >=? 3 then 9 else if bgmStage s >=? 2 then 7
     else if bgmStage s >=? 1 then 6 else 4)%nat
  /\ hatsPerBar s
     = (if drumLevel s >=? 1 then (if bgmStage s >=? 3 then 16 else 8) else 0)%nat
  /\ (forall i, In i [0; 4; 8; 12] -> kickHit (set_step i s) = true).
Proof.
  intros s. destruct s as [ca ct sc ds dl bs ms st bc se df]. unfold kicksPerBar, hatsPerBar, kickHit, hatHit, barSteps.
  cbn -[filter].
  destruct (geb_cases bs 3) as [[E3 H3] | [E3 H3]];
  destruct (geb_cases bs 2) as [[E2 H2] | [E2 H2]];
  destruct (geb_cases bs 1) as [[E1 H1] | [E1 H1]]; try lia;
  rewrite ?E1, ?E2, ?E3;
  (split; [vm_compute; reflexivity|]);
  (split; [destruct (dl >=? 1); vm_compute; reflexivity|]);
  intros i [<- | [<- | [<- | [<- | []]]]]; reflexivity.
Qed.

(** ** Reading the answer *)

Lemma trimStart_blank_app : forall pre s,
  Blank pre -> JsString.trimStart (pre ++ s) = JsString.trimStart s.
Proof.
  induction pre as [| c pre IH]; intros s H; [reflexivity|].
  inversion H as [| ? ? Hc Hp]; subst. cbn. rewrite Hc. apply IH. exact Hp.
Qed.

Lemma trimStart_app_keeps : forall s t,
  JsString.trimStart s <> [] ->
  JsString.trimStart (s ++ t) = JsString.trimStart s ++ t.
Proof.
  induction s as [| c s IH]; intros t H; [cbn in H; congruence|].
  cbn in *. destruct (JsString.isWhiteSpace c); [apply IH; exact H | reflexivity].
Qed.

Lemma Blank_rev : forall s, Blank s -> Blank (rev s).
Proof. intros s H. unfold Blank in *. apply Forall_rev. exact H. Qed.

Lemma trim_padding : forall pre s post,
  Blank pre -> Blank post ->
  JsString.trim (pre ++ s ++ post) = JsString.trim s.
Proof.
  intros pre s post Hpre Hpost. unfold JsString.trim.
  rewrite trimStart_blank_app by assumption.
  destruct (JsString.trimStart s) as [| c r] eqn:E.
  - apply trimStart_nil_iff in E.
    rewrite trimStart_blank_app by assumption.
    apply trimStart_nil_iff in Hpost. rewrite Hpost. reflexivity.
  - rewrite trimStart_app_keeps by (rewrite E; discriminate).
    rewrite E. rewrite rev_app_distr.
    rewrite trimStart_blank_app by (apply Blank_rev; assumption). reflexivity.
Qed.

(** X5.  White space around the typed answer never matters: padding a text
    with blanks on either side leaves the result of [parseAnswer]
    unchanged. *)
Theorem parseAnswer_ignores_padding : forall pre s post,
  Blank pre -> Blank post ->
  parseAnswer (Some (pre ++ s ++ post)) = parseAnswer (Some s).
Proof.
  intros pre s post Hpre Hpost. unfold parseAnswer.
  rewrite trim_padding by assumption. reflexivity.
Qed.

Lemma parseAnswer_ignores_padding_witness :
  parseAnswer (Some (JsString.of_string "  -42 ")) = parseAnswer (Some (JsString.of_string "-42")).
Proof.
  apply (parseAnswer_ignores_padding (JsString.of_string "  ")
           (JsString.of_string "-42") (JsString.of_string " "));
    repeat constructor.
Defined.

Lemma digit_not_space : forall c,
  JsString.isDigit c = true -> JsString.isWhiteSpace c = false.
Proof.
  intros c H. unfold JsString.isDigit in H.
  apply andb_true_iff in H. destruct H as [H1 H2].
  apply N.leb_le in H1. apply N.leb_le in H2.
  apply not_true_is_false. intros Hw. unfold JsString.isWhiteSpace in Hw.
  repeat rewrite ?orb_true_iff, ?andb_true_iff, ?N.eqb_eq, ?N.leb_le in Hw. lia.
Qed.

Lemma trim_clean : forall s,
  Forall (fun c => JsString.isWhiteSpace c = false) s -> JsString.trim s = s.
Proof.
  intros s H. unfold JsString.trim.
  assert (Hstart : forall x, Forall (fun c => JsString.isWhiteSpace c = false) x ->
                             JsString.trimStart x = x).
  { intros x Hx. destruct Hx as [| c x Hc Hx]; [reflexivity|]. cbn. rewrite Hc.
    reflexivity. }
  rewrite (Hstart s H). rewrite Hstart by (apply Forall_rev; exact H).
  apply rev_involutive.
Qed.

Lemma digitsValue_snoc : forall ds acc d,
  JsString.digitsValue acc (ds ++ [d])
  = 10 * JsString.digitsValue acc ds + Z.of_N (d - 48).
Proof.
  induction ds as [| c ds IH]; intros acc d; [reflexivity|].
  cbn [app JsString.digitsValue]. apply IH.
Qed.

Lemma digitsValue_nonneg : forall ds acc, 0 <= acc -> 0 <= JsString.digitsValue acc ds.
Proof.
  induction ds as [| c ds IH]; intros acc H; [exact H|].
  cbn [JsString.digitsValue]. apply IH. lia.
Qed.

Lemma digits_clean : forall ds,
  Forall (fun c => JsString.isDigit c = true) ds ->
  Forall (fun c => JsString.isWhiteSpace c = false) ds.
Proof.
  intros ds H. eapply Forall_impl; [| exact H]. apply digit_not_space.
Qed.

Lemma parseAnswer_literal : forall s,
  Forall (fun c => JsString.isWhiteSpace c = false) s ->
  IntegerLiteral s -> parseAnswer (Some s) = PNum (JsString.toNumber s).
Proof.
  intros s Hc Hl. unfold parseAnswer. rewrite trim_clean by assumption.
  apply isIntLiteral_spec in Hl. rewrite Hl.
  destruct s; [discriminate Hl | reflexivity].
Qed.

(** X6.  A non-empty run of at most 14 decimal digits (so that every
    number involved is an integer a double holds exactly) is read as the
    number it writes: the value is non-negative, a leading "-" negates it,
    a leading "0" does not change it, and one more digit at the end
    multiplies it by ten and adds the digit. *)
Theorem parseAnswer_reads_decimal : forall ds d,
  ds <> [] -> Forall (fun c => JsString.isDigit c = true) ds ->
  (List.length ds <= 14)%nat ->
  JsString.isDigit d = true ->
  exists v,
    0 <= v
    /\ parseAnswer (Some ds) = PNum v
    /\ parseAnswer (Some (45%N :: ds)) = PNum (- v)
    /\ parseAnswer (Some (48%N :: ds)) = PNum v
    /\ parseAnswer (Some (ds ++ [d])) = PNum (10 * v + Z.of_N (d - 48)).
Proof.
  intros ds d Hne Hd _ Hdd. exists (JsString.digitsValue 0 ds).
  pose proof (digits_clean ds Hd) as Hc.
  assert (Hh : exists c r, ds = c :: r /\ JsString.isDigit c = true).
  { destruct ds as [| c r]; [congruence|]. exists c, r. inversion Hd; tauto. }
  destruct Hh as (c & r & Eds & Hcd).
  assert (Hm : JsString.isMinus c = false).
  { unfold JsString.isMinus, JsString.isDigit in *. apply andb_true_iff in Hcd.
    destruct Hcd as [H1 _]. apply N.leb_le in H1. apply N.eqb_neq. lia. }
  split; [apply digitsValue_nonneg; lia|]. split; [| split; [| split]].
  - rewrite parseAnswer_literal; [| assumption | exists ds; tauto].
    rewrite Eds. cbn [JsString.toNumber]. rewrite Hm. reflexivity.
  - rewrite parseAnswer_literal.
    + reflexivity.
    + constructor; [reflexivity | assumption].
    + exists ds. tauto.
  - rewrite parseAnswer_literal.
    + reflexivity.
    + constructor; [reflexivity | assumption].
    + exists (48%N :: ds). split; [discriminate|]. split; [| tauto].
      constructor; [reflexivity | assumption].
  - rewrite parseAnswer_literal.
    + rewrite Eds. cbn [app JsString.toNumber]. rewrite Hm.
      rewrite <- Eds. change (c :: r ++ [d]) with ((c :: r) ++ [d]). rewrite <- Eds.
      apply f_equal. apply digitsValue_snoc.
    + apply Forall_app. split; [assumption|]. constructor; [| constructor].
      apply digit_not_space. assumption.
    + exists (ds ++ [d]). split; [destruct ds; discriminate|]. split; [| tauto].
      apply Forall_app. split; [assumption|]. constructor; [assumption | constructor].
Qed.

Lemma parseAnswer_reads_decimal_witness :
  exists v, 0 <= v /\ parseAnswer (Some (JsString.of_string "12")) = PNum v.
Proof.
  destruct (parseAnswer_reads_decimal (JsString.of_string "12") 51%N) as (v & Hv & Hp & _).
  - discriminate.
  - repeat constructor.
  - cbn. lia.
  - reflexivity.
  - exists v. split; assumption.
Defined.

(** ** Generating problems *)

Lemma index_in_range : forall (l : list Mode) i,
  0 <= i <= Z.of_nat (List.length l) - 1 ->
  exists m, index l i = Some m /\ In m l.
Proof.
  intros l i H. unfold index.
  destruct (Z.ltb_spec i 0); [lia|].
  destruct (nth_error l (Z.to_nat i)) as [m |] eqn:E.
  - exists m. split; [reflexivity|]. apply nth_error_In in E. exact E.
  - apply nth_error_None in E. lia.
Qed.

Lemma randInt_between : forall r min max,
  (0 <= r < 1)%Q -> min <= max -> min <= randInt r min max <= max.
Proof.
  intros r min max [H0 H1] Hm.
  split; [apply randInt_lower | apply randInt_upper]; assumption.
Qed.

(** X7.  With the preset of the stage as profile and a draw in [0, 1),
    [pickMode] always returns one of the four operations, never "mix" and
    never [undefined]: only the subtraction at stage 0, additions from
    stage 1, multiplications from stage 2 and divisions from stage 3 on. *)
Theorem pickMode_gates_operations : forall s r,
  diff s = difficultyForStage (difficultyStage s) ->
  (0 <= r 0%nat < 1)%Q ->
  exists m,
    fst (pickMode s r) = Some m
    /\ m <> ModeMix
    /\ (difficultyStage s <= 0 -> m = ModeSub)
    /\ (m = ModeAdd -> 1 <= difficultyStage s)
    /\ (m = ModeMul -> 2 <= difficultyStage s)
    /\ (m = ModeDiv -> 3 <= difficultyStage s).
Proof.
  intros s r Hd Hr. unfold pickMode. rewrite Hd.
  destruct (difficultyForStage_cases (difficultyStage s))
    as [[Hs E] | [[Hs E] | [[Hs E] | [Hs E]]]]; rewrite E;
    cbn [dmode Mode_eqb negb].
  - exists ModeSub. cbn. repeat split; try discriminate; intros; (lia || reflexivity || discriminate).
  - destruct (Z.leb_spec (difficultyStage s) 0); [lia|]. rewrite Hs. cbn [Z.eqb Pos.eqb].
    unfold bind, randIntG, mathRandom, ret. cbn [fst snd List.length].
    destruct (index_in_range [ModeAdd; ModeSub] (randInt (r 0%nat) 0 (Z.of_nat 2 - 1)))
      as (m & Hm & Hin).
    { apply randInt_between; [exact Hr | cbn; lia]. }
    exists m. split; [exact Hm|].
    destruct Hin as [<- | [<- | []]]; repeat split; try discriminate; intros; try lia;
      discriminate.
  - destruct (Z.leb_spec (difficultyStage s) 0); [lia|]. rewrite Hs. cbn [Z.eqb Pos.eqb].
    unfold bind, randIntG, mathRandom, ret. cbn [fst snd List.length].
    destruct (index_in_range [ModeAdd; ModeSub; ModeMul]
                (randInt (r 0%nat) 0 (Z.of_nat 3 - 1))) as (m & Hm & Hin).
    { apply randInt_between; [exact Hr | cbn; lia]. }
    exists m. split; [exact Hm|].
    destruct Hin as [<- | [<- | [<- | []]]]; repeat split; try discriminate; intros;
      try lia; discriminate.
  - destruct (Z.leb_spec (difficultyStage s) 0); [lia|].
    destruct (Z.eqb_spec (difficultyStage s) 1); [lia|].
    destruct (Z.eqb_spec (difficultyStage s) 2); [lia|].
    unfold bind, randIntG, mathRandom, ret. cbn [fst snd List.length].
    destruct (index_in_range [ModeAdd; ModeSub; ModeMul; ModeDiv]
                (randInt (r 0%nat) 0 (Z.of_nat 4 - 1))) as (m & Hm & Hin).
    { apply randInt_between; [exact Hr | cbn; lia]. }
    exists m. split; [exact Hm|].
    destruct Hin as [<- | [<- | [<- | [<- | []]]]]; repeat split; try discriminate;
      intros; try lia; discriminate.
Qed.

Lemma pickMode_witness_draws : forall n, (0 <= divisionDraws n < 1)%Q.
Proof.
  intros n. destruct n; split; vm_compute; try reflexivity; intros H; discriminate H.
Qed.

Lemma pickMode_gates_operations_witness :
  exists m, fst (pickMode divisionState divisionDraws) = Some m /\ m <> ModeMix.
Proof.
  destruct (pickMode_gates_operations divisionState divisionDraws) as (m & H1 & H2 & _).
  - reflexivity.
  - apply pickMode_witness_draws.
  - exists m. split; assumption.
Defined.

(** Below stage 9,490,626 every operand is at most 94,906,260. *)
Lemma preset_bounds : forall s,
  diff s = difficultyForStage (difficultyStage s) ->
  difficultyStage s <= 9490625 ->
  1 <= dmin (diff s) <= dmax (diff s)
  /\ dmax (diff s) <= 94906260
  /\ allowNegative (diff s) = false.
Proof.
  intros s Hd Hs. rewrite Hd.
  destruct (difficultyForStage_cases (difficultyStage s))
    as [[H E] | [[H E] | [[H E] | [H E]]]]; rewrite E;
    cbn [dmin dmax allowNegative]; (split; [lia|]); (split; [lia | reflexivity]).
Qed.

Lemma small_is_exact : forall x y,
  0 <= x <= 94906260 -> 0 <= y <= 94906260 ->
  jsAdd x y = x + y /\ jsSub x y = x - y /\ jsMul x y = x * y.
Proof.
  intros x y Hx Hy. unfold jsAdd, jsSub, jsMul.
  assert (0 <= x * y <= 94906260 * 94906260) by nia.
  repeat split; apply toDouble_exact; change (2 ^ 53) with 9007199254740992; lia.
Qed.

(** The generated problem, with the draws left after [pickMode] named. *)
Lemma buildProblem_cases : forall s r,
  let r' := snd (pickMode s r) in
  let a := randInt (r' 0%nat) (dmin (diff s)) (dmax (diff s)) in
  let b := randInt (r' 1%nat) (dmin (diff s)) (dmax (diff s)) in
  let k := randInt (r' 2%nat) (dmin (diff s)) (dmax (diff s)) in
  let b' := randInt (r' 3%nat) (dmin (diff s)) (dmax (diff s)) in
  let p := fst (buildProblem s r) in
  p = mkProblem a b OpPlus (jsAdd a b)
  \/ (allowNegative (diff s) = false /\ a < b /\ p = mkProblem b a OpMinus (jsSub b a))
  \/ ((allowNegative (diff s) = true \/ b <= a) /\ p = mkProblem a b OpMinus (jsSub a b))
  \/ p = mkProblem a b OpTimes (jsMul a b)
  \/ p = mkProblem (jsMul b' k) b' OpDivide k.
Proof.
  intros s r. cbv zeta. unfold buildProblem, randIntG, bind, mathRandom, ret.
  cbn [fst snd].
  destruct (fst (pickMode s r)) as [[] |]; cbn [fst]; try tauto.
  destruct (allowNegative (diff s)); cbn [negb andb fst]; [tauto|].
  destruct (Z.ltb_spec
              (randInt (snd (pickMode s r) 0%nat) (dmin (diff s)) (dmax (diff s)))
              (randInt (snd (pickMode s r) 1%nat) (dmin (diff s)) (dmax (diff s))));
    cbn [fst]; tauto.
Qed.

Lemma buildProblem_sound : forall s r,
  diff s = difficultyForStage (difficultyStage s) ->
  difficultyStage s <= 9490625 ->
  (forall n, 0 <= r n < 1)%Q ->
  let p := fst (buildProblem s r) in
  ProblemOk p
  /\ 0 <= panswer p
  /\ dmin (diff s) <= pb p <= dmax (diff s)
  /\ (pop p <> OpDivide -> dmin (diff s) <= pa p <= dmax (diff s))
  /\ 1 <= pa p /\ 1 <= pb p.
Proof.
  intros s r Hd Hs Hr.
  pose proof (pickMode_draws (fun q => 0 <= q < 1)%Q s r Hr) as Hr'.
  pose proof (preset_bounds s Hd Hs) as (Hle & Hmax & Hneg).
  pose proof (randInt_between _ _ _ (Hr' 0%nat) (proj2 Hle)) as B0.
  pose proof (randInt_between _ _ _ (Hr' 1%nat) (proj2 Hle)) as B1.
  pose proof (randInt_between _ _ _ (Hr' 2%nat) (proj2 Hle)) as B2.
  pose proof (randInt_between _ _ _ (Hr' 3%nat) (proj2 Hle)) as B3.
  pose proof (buildProblem_cases s r) as Hc. cbv zeta in *.
  set (a := randInt (snd (pickMode s r) 0%nat) (dmin (diff s)) (dmax (diff s))) in *.
  set (b := randInt (snd (pickMode s r) 1%nat) (dmin (diff s)) (dmax (diff s))) in *.
  set (k := randInt (snd (pickMode s r) 2%nat) (dmin (diff s)) (dmax (diff s))) in *.
  set (b' := randInt (snd (pickMode s r) 3%nat) (dmin (diff s)) (dmax (diff s))) in *.
  pose proof (small_is_exact a b ltac:(lia) ltac:(lia)) as (Eab & Esab & Emab).
  pose proof (small_is_exact b a ltac:(lia) ltac:(lia)) as (_ & Esba & _).
  pose proof (small_is_exact b' k ltac:(lia) ltac:(lia)) as (_ & _ & Emd).
  destruct Hc as [E | [(_ & Hlt & E) | [([Ha | Hge] & E) | [E | E]]]];
    rewrite E; unfold ProblemOk; cbn [pa pb pop panswer];
    rewrite ?Eab, ?Esab, ?Esba, ?Emab, ?Emd;
    try (rewrite Hneg in Ha; discriminate Ha);
    repeat split; intros; try nia; congruence.
Qed.

(** X8.  With the preset of a stage up to 9,490,625 as profile and draws in
    [0, 1), the answer stored with a generated problem is the exact result
    of its operator on its operands (for a division, the dividend is the
    divisor times the answer), and it is never negative: a subtraction
    puts the larger operand first. *)
Theorem buildProblem_answer_is_right : forall s r,
  diff s = difficultyForStage (difficultyStage s) ->
  difficultyStage s <= 9490625 ->
  (forall n, 0 <= r n < 1)%Q ->
  let p := fst (buildProblem s r) in
  ProblemOk p
  /\ 0 <= panswer p
  /\ (pop p = OpMinus -> pb p <= pa p).
Proof.
  intros s r Hd Hs Hr p.
  pose proof (buildProblem_sound s r Hd Hs Hr) as (H1 & H2 & _). cbv zeta in *.
  split; [exact H1|]. split; [exact H2|].
  intros Hm. subst p. unfold ProblemOk in H1. rewrite Hm in H1. lia.
Qed.

Lemma buildProblem_answer_is_right_witness :
  ProblemOk (fst (buildProblem divisionState divisionDraws)).
Proof.
  apply (buildProblem_answer_is_right divisionState divisionDraws).
  - reflexivity.
  - vm_compute. discriminate.
  - apply pickMode_witness_draws.
Defined.

(** X9.  With the preset of a stage up to 9,490,625 as profile and draws in
    [0, 1), the second operand of every generated problem lies between the
    profile's bounds, so does the first unless the problem is a division,
    and both operands are at least 1. *)
Theorem buildProblem_operands_in_range : forall s r,
  diff s = difficultyForStage (difficultyStage s) ->
  difficultyStage s <= 9490625 ->
  (forall n, 0 <= r n < 1)%Q ->
  let p := fst (buildProblem s r) in
  dmin (diff s) <= pb p <= dmax (diff s)
  /\ (pop p <> OpDivide -> dmin (diff s) <= pa p <= dmax (diff s))
  /\ 1 <= pa p /\ 1 <= pb p.
Proof.
  intros s r Hd Hs Hr p.
  pose proof (buildProblem_sound s r Hd Hs Hr) as (_ & _ & H). exact H.
Qed.

Lemma buildProblem_operands_in_range_witness :
  1 <= pb (fst (buildProblem divisionState divisionDraws)).
Proof.
  apply (buildProblem_operands_in_range divisionState divisionDraws).
  - reflexivity.
  - vm_compute. discriminate.
  - apply pickMode_witness_draws.
Defined.

(** X10.  [newProblem] shows what it stores: it renders one problem and
    focuses the emptied answer field, and the expected answer it records is
    the answer of that very problem; the score, the beat and the transport
    are not touched.  With the preset of a stage up to 9,490,625 as profile
    and draws in [0, 1), that answer is the exact result of the displayed
    operator on the displayed operands. *)
Theorem newProblem_shows_what_it_stores : forall w,
  exists p,
    since w (newProblem w) = [FxProblem p; FxFocus]
    /\ currentAnswer (state (newProblem w)) = panswer p
    /\ state (newProblem w) = set_currentAnswer (panswer p) (state w)
    /\ answerValue (newProblem w) = []
    /\ drum (newProblem w) = drum w
    /\ timers (newProblem w) = timers w
    /\ (diff (state w) = difficultyForStage (difficultyStage (state w)) ->
        difficultyStage (state w) <= 9490625 ->
        (forall n, 0 <= random w n < 1)%Q ->
        ProblemOk p /\ 0 <= panswer p).
Proof.
  intros w. exists (fst (buildProblem (state w) (random w))).
  split.
  { apply since_app. destruct w. unfold newProblem, renderProblem, focusAnswer.
    cbn. rewrite <- app_assoc. reflexivity. }
  assert (Hlast : diff (state w) = difficultyForStage (difficultyStage (state w)) ->
                  difficultyStage (state w) <= 9490625 ->
                  (forall n, 0 <= random w n < 1)%Q ->
                  ProblemOk (fst (buildProblem (state w) (random w)))
                  /\ 0 <= panswer (fst (buildProblem (state w) (random w)))).
  { intros Hd Hs Hr.
    pose proof (buildProblem_sound (state w) (random w) Hd Hs Hr) as (H1 & H2 & _).
    split; assumption. }
  revert Hlast. destruct w as [s d ts n a r e]. destruct s.
  unfold newProblem, renderProblem, focusAnswer. cbn -[buildProblem].
  intros Hlast. repeat split; try reflexivity; apply Hlast; assumption.
Qed.

(** ** How answers and steps compose *)

(** X11.  A correct answer leaves the typed text and the expected answer
    in place until the delayed [newProblem] runs, so checking again before
    that counts the same answer once more: two checks in a row add 2 to
    [correctTotal] and queue two [newProblem] timeouts. *)
Theorem checking_twice_counts_twice : forall w,
  parseAnswer (Some (answerValue w)) = PNum (currentAnswer (state w)) ->
  let w1 := checkAnswer w in
  let w2 := checkAnswer w1 in
  answerValue w1 = answerValue w
  /\ currentAnswer (state w1) = currentAnswer (state w)
  /\ correctTotal (state w1) = correctTotal (state w) + 1
  /\ correctTotal (state w2) = correctTotal (state w) + 2
  /\ timers w2
     = timers w ++ [mkTimer (nextTimerId w) SETTINGS.nextDelayMs CbNewProblem;
                    mkTimer (S (nextTimerId w)) SETTINGS.nextDelayMs CbNewProblem].
Proof.
  intros w H w1 w2.
  pose proof (checkAnswer_correct_frame w H) as (S1 & D1 & A1 & _ & T1 & N1).
  pose proof (updateOnCorrect_frame w) as (_ & _ & _ & _ & _ & C1 & _ & _ & K1).
  cbv zeta in *. fold w1 in S1, D1, A1, T1, N1.
  assert (H1 : parseAnswer (Some (answerValue w1)) = PNum (currentAnswer (state w1))).
  { rewrite A1, S1, C1. exact H. }
  pose proof (checkAnswer_correct_frame w1 H1) as (S2 & D2 & A2 & _ & T2 & N2).
  pose proof (updateOnCorrect_frame w1) as (_ & _ & _ & _ & _ & _ & _ & _ & K2).
  cbv zeta in *. fold w2 in S2, D2, A2, T2, N2.
  split; [exact A1|]. split; [rewrite S1; exact C1|].
  split; [rewrite S1; exact K1|].
  split; [rewrite S2, K2, S1, K1; lia|].
  rewrite T2, T1, N1, <- app_assoc. reflexivity.
Qed.

Lemma checking_twice_counts_twice_witness :
  correctTotal (state (checkAnswer (checkAnswer paddedWorld))) = 0 + 2.
Proof.
  apply (checking_twice_counts_twice paddedWorld). vm_compute. reflexivity.
Defined.

Lemma checkAnswer_wrong_state : forall w v,
  parseAnswer (Some (answerValue w)) = PNum v ->
  v <> currentAnswer (state w) ->
  let s' := state (checkAnswer w) in
  drumLevel s' = 0 /\ bgmStage s' = 0 /\ step s' = 0 /\ barCounter s' = 0
  /\ muteSteps s'
     = (if soundEnabled (state w) && isRunning w
        then SETTINGS.muteOnWrongSteps else muteSteps (state w)).
Proof.
  intros w v Hp Hv. rewrite (checkAnswer_wrong w v Hp Hv).
  pose proof (resetProgression_state w)
    as (R1 & R2 & R3 & R4 & R5 & R6 & R7 & R8 & R9 & R10 & R11).
  pose proof (resetProgression_frame w) as (Rd & _).
  pose proof (playWrongFx_spec (resetProgression w)) as (P1 & P2 & _).
  pose proof (focusAnswer_frame true (playWrongFx (resetProgression w))) as (F1 & F2 & _).
  cbv zeta in *. rewrite F1, P1.
  unfold isRunning in *. rewrite Rd, R10.
  destruct (soundEnabled (state w) && running (drum w));
    [destruct (state (resetProgression w)); cbn in * |];
    repeat split; assumption || reflexivity.
Qed.

(** X12.  A wrong answer given while the beat runs with SFX on silences
    exactly one beat: the next four [scheduleStep] calls add nothing to the
    trace, and the fifth triggers the kick alone, on step 4 of bar 0. *)
Theorem wrong_answer_silences_one_beat : forall w v calls now time,
  parseAnswer (Some (answerValue w)) = PNum v ->
  v <> currentAnswer (state w) ->
  soundEnabled (state w) = true -> isRunning w = true ->
  List.length calls = 4%nat ->
  let w1 := checkAnswer w in
  let w2 := scheduleSteps calls w1 in
  let w3 := scheduleStep now time w2 in
  since w1 w2 = []
  /\ step (state w2) = 4 /\ barCounter (state w2) = 0
  /\ since w2 w3 = [FxKick time]
  /\ step (state w3) = 5 /\ muteSteps (state w3) = 0.
Proof.
  intros w v calls now time Hp Hv Hs Hr Hl w1 w2 w3.
  pose proof (checkAnswer_wrong_state w v Hp Hv) as (W1 & W2 & W3 & W4 & W5).
  cbv zeta in W1, W2, W3, W4, W5. fold w1 in W1, W2, W3, W4, W5.
  rewrite Hs, Hr in W5. cbn in W5. unfold SETTINGS.muteOnWrongSteps in W5.
  assert (Ht : TransportInv (state w1)).
  { unfold TransportInv, SETTINGS.stepsPerBar, SETTINGS.barsCycle.
    rewrite W3, W4. lia. }
  pose proof (mutedSteps_spec calls w1 ltac:(rewrite Hl, W5; cbn; lia) Ht)
    as (M1 & M2 & M3 & M4).
  cbv zeta in M1, M2, M3, M4. fold w2 in M1, M2, M3, M4.
  rewrite Hl, W5 in M2. cbn in M2.
  unfold position, SETTINGS.stepsPerBar in M4. rewrite W3, W4, Hl in M4. cbn in M4.
  destruct M1 as (E1 & _ & _ & _ & _ & _ & _ & _ & _ & _ & E11 & E12 & _).
  destruct M3 as [Hst Hbc]. unfold SETTINGS.stepsPerBar, SETTINGS.barsCycle in *.
  assert (Hstep : step (state w2) = 4) by lia.
  assert (Hbar : barCounter (state w2) = 0) by lia.
  split; [apply since_app; rewrite app_nil_r; exact E1|].
  split; [exact Hstep|]. split; [exact Hbar|].
  assert (Hw3 : w3 = soundStep now time w2).
  { subst w3. apply scheduleStep_audible. lia. }
  assert (Hv3 : voices time (state w2) = [FxKick time]).
  { unfold voices, kickHit, hatHit, snareHit. rewrite E11, E12, W1, W2, Hstep. reflexivity. }
  split; [rewrite Hw3; apply since_app; rewrite soundStep_effects, Hv3; reflexivity|].
  rewrite Hw3, soundStep_state.
  pose proof (advanceTransport_step (state w2) (conj Hst Hbc)) as [Hlt _].
  pose proof (advanceTransport_frame (state w2)) as (_ & _ & _ & _ & _ & _ & F7 & _).
  cbv zeta in *. destruct (Hlt ltac:(lia)) as [-> _]. rewrite F7. lia.
Qed.

Lemma wrong_answer_silences_one_beat_witness :
  let w1 := checkAnswer (handle EvSoundToggle wrongWorld) in
  let calls := [(0, 1 # 20); (0, 7 # 40); (0, 3 # 10); (0, 17 # 40)]%Q in
  since (scheduleSteps calls w1) (scheduleStep 0 (11 # 20) (scheduleSteps calls w1))
  = [FxKick (11 # 20)].
Proof.
  cbv zeta.
  apply (wrong_answer_silences_one_beat (handle EvSoundToggle wrongWorld) 5
           [(0, 1 # 20); (0, 7 # 40); (0, 3 # 10); (0, 17 # 40)]%Q 0%Q (11 # 20)%Q).
  - vm_compute. reflexivity.
  - vm_compute. discriminate.
  - vm_compute. reflexivity.
  - vm_compute. reflexivity.
  - reflexivity.
Defined.

(** ** More invariants of the reachable worlds *)

Lemma tickTimers_dropTimer : forall id ts,
  tickTimers (dropTimer id ts) = filter (fun i => negb (i =? id)%nat) (tickTimers ts).
Proof.
  intros id ts. unfold tickTimers, dropTimer.
  induction ts as [| t ts IH]; [reflexivity|].
  cbn. destruct (tid t =? id)%nat eqn:E; destruct (isTick t) eqn:Ep; cbn;
    rewrite ?Ep; cbn; rewrite ?E; cbn; rewrite IH; reflexivity.
Qed.

Lemma tickTimers_app : forall ts ts', tickTimers (ts ++ ts') = tickTimers ts ++ tickTimers ts'.
Proof. intros. unfold tickTimers. rewrite filter_app, map_app. reflexivity. Qed.

Lemma In_tickTimers : forall t ts, In t ts -> isTick t = true -> In (tid t) (tickTimers ts).
Proof.
  intros t ts Hin Hp. unfold tickTimers. apply in_map. apply filter_In. tauto.
Qed.

Lemma tickTimers_In : forall i ts,
  In i (tickTimers ts) -> exists t, In t ts /\ tid t = i /\ isTick t = true.
Proof.
  intros i ts H. unfold tickTimers in H. apply in_map_iff in H.
  destruct H as [t [Ht Hin]]. apply filter_In in Hin. exists t. tauto.
Qed.

Lemma Forall_dropTimer : forall (P : Timer -> Prop) id ts,
  Forall P ts -> Forall P (dropTimer id ts).
Proof.
  intros P id ts H. unfold dropTimer. rewrite Forall_forall in *.
  intros t Hin. apply filter_In in Hin. apply H. tauto.
Qed.

(** Dropping a timer that is not the tick leaves the tick timers alone. *)
Lemma tickTimers_dropOther : forall id t ts n,
  TimersOk ts n -> In t ts -> tid t = id -> isTick t = false ->
  tickTimers (dropTimer id ts) = tickTimers ts.
Proof.
  intros id t ts n Hok Hin Hid Ht.
  rewrite tickTimers_dropTimer. apply filter_neq_id.
  intros Hmem. apply tickTimers_In in Hmem. destruct Hmem as (t' & Hin' & Hid' & Ht').
  assert (t = t') by (apply (TimersOk_unique _ _ _ _ Hok); congruence).
  subst t'. congruence.
Qed.

Lemma EngineInv_ext : forall w w',
  timers w' = timers w -> nextTimerId w' = nextTimerId w ->
  timerId (drum w') = timerId (drum w) -> running (drum w') = running (drum w) ->
  uiPulseTimer (drum w') = uiPulseTimer (drum w) ->
  uiPulseHits (drum w') = uiPulseHits (drum w) ->
  EngineInv w -> EngineInv w'.
Proof.
  unfold EngineInv. intros w w' H1 H2 H3 H4 H5 H6.
  rewrite H1, H2, H3, H4, H5, H6. tauto.
Qed.

Lemma EngineInv_same_drum : forall w w',
  timers w' = timers w -> nextTimerId w' = nextTimerId w -> drum w' = drum w ->
  EngineInv w -> EngineInv w'.
Proof.
  intros w w' H1 H2 H3. apply EngineInv_ext; try assumption; rewrite H3; reflexivity.
Qed.

Lemma CountersInv_ext : forall s s',
  correctTotal s' = correctTotal s -> difficultyStage s' = difficultyStage s ->
  muteSteps s' <= muteSteps s ->
  CountersInv s -> CountersInv s'.
Proof.
  unfold CountersInv. intros s s' H1 H2 H3 [H4 H5]. rewrite H1, H2. split; [exact H4 | lia].
Qed.

Lemma snareHit_low : forall s, drumLevel s <= 1 -> snareHit s = false.
Proof.
  intros s H. unfold snareHit. destruct (geb_cases (drumLevel s) 2) as [[E ?] | [E ?]];
    [lia | rewrite E; reflexivity].
Qed.

Lemma WorldInv_drumLevel : forall w, WorldInv w -> drumLevel (state w) <= 1.
Proof.
  intros w (Hp & _). apply StageInv_of_ProgressInv in Hp. apply Hp.
Qed.

Lemma CountersInv_scheduleStep : forall now time w,
  0 <= muteSteps (state w) ->
  CountersInv (state w) -> CountersInv (state (scheduleStep now time w)).
Proof.
  intros now time w H0 Hc.
  destruct (Z_lt_le_dec 0 (muteSteps (state w))) as [Hm | Hm].
  - rewrite scheduleStep_muted by assumption. cbn.
    rewrite advanceTransport_muteSteps.
    pose proof (advanceTransport_frame (state w)) as (_ & F1 & _ & F3 & _).
    cbv zeta in *. revert Hc. destruct (advanceTransport (state w)). cbn in *.
    unfold CountersInv. cbn. rewrite F1, F3. intros [H1 H2]. split; [exact H1 | lia].
  - rewrite scheduleStep_audible by assumption. rewrite soundStep_state.
    pose proof (advanceTransport_frame (state w)) as (_ & F1 & _ & F3 & _ & _ & F7 & _).
    cbv zeta in *. revert Hc. apply CountersInv_ext; try assumption. lia.
Qed.

Lemma EngineInv_scheduleStep : forall now time w,
  WorldInv w -> EngineInv w -> running (drum w) = true ->
  EngineInv (scheduleStep now time w)
  /\ running (drum (scheduleStep now time w)) = true.
Proof.
  intros now time w Hw He Hr.
  destruct (Z_lt_le_dec 0 (muteSteps (state w))) as [Hm | Hm].
  - rewrite scheduleStep_muted by assumption. split; [| exact Hr].
    revert He. apply EngineInv_same_drum; reflexivity.
  - rewrite scheduleStep_audible by assumption.
    pose proof (soundStep_pulse now time w) as (R & _ & TI & Hno & Hyes).
    cbv zeta in *. split; [| rewrite R; exact Hr].
    rewrite (snareHit_low (state w) (WorldInv_drumLevel w Hw)) in *.
    destruct He as (E1 & E2 & E3 & E4 & E5).
    destruct (kickHit (state w)); cbn [orb] in *.
    + destruct (Hyes eq_refl) as [Hh Hq]. clear Hno Hyes.
      unfold EngineInv. rewrite R, TI, Hh.
      destruct (uiPulseTimer (drum w)) as [pid |].
      * destruct Hq as (Q1 & Q2 & Q3). rewrite Q1, Q2, Q3.
        destruct E5 as [_ E5]. rewrite E5.
        repeat split; try assumption.
      * destruct Hq as (Q1 & Q2 & Q3). rewrite Q1, Q2, Q3, E5.
        rewrite tickTimers_app, app_nil_r.
        repeat split; try assumption; try lia.
        apply Forall_app. split; [exact E3|]. constructor; [cbn; lia | constructor].
    + destruct (Hno eq_refl) as (N1 & N2 & N3 & N4).
      apply (EngineInv_ext w); try assumption.
      unfold EngineInv. tauto.
Qed.

Lemma FullInv_tickLoop : forall fuel now w,
  FullInv w -> running (drum w) = true -> FullInv (tickLoop fuel now w).
Proof.
  induction fuel as [| fuel IH]; intros now w H Hr; [exact H|].
  cbn. destruct (Qlt_le_dec _ _); [| exact H].
  destruct H as (Hw & Hc & He).
  pose proof (WorldInv_scheduleStep now (nextTime (drum w)) w Hw) as Hw'.
  pose proof (CountersInv_scheduleStep now (nextTime (drum w)) w ltac:(apply Hw) Hc) as Hc'.
  pose proof (EngineInv_scheduleStep now (nextTime (drum w)) w Hw He Hr) as [He' Hr'].
  apply IH; [| exact Hr'].
  split; [| split].
  - destruct Hw' as [Hp Ht]. split; [exact Hp|]. revert Ht. apply TimerInv_ext; reflexivity.
  - exact Hc'.
  - revert He'. apply EngineInv_ext; reflexivity.
Qed.

Lemma FullInv_tick : forall now w,
  FullInv w -> running (drum w) = true -> FullInv (tick now w).
Proof.
  intros now w (Hw & Hc & He) Hr. unfold tick. apply FullInv_tickLoop; [| exact Hr].
  split; [| split].
  - destruct Hw as [Hp Ht]. split; [exact Hp|]. revert Ht. apply TimerInv_ext; reflexivity.
  - exact Hc.
  - revert He. apply EngineInv_ext; reflexivity.
Qed.

Lemma EngineInv_start : forall now w, EngineInv w -> EngineInv (start now w).
Proof.
  intros now w (E1 & E2 & E3 & E4 & E5). destruct w as [s d ts n a r e].
  destruct d as [ac ti ru nt up uh].
  unfold start, EngineInv in *. cbn in *.
  destruct ru; cbn.
  - repeat split; assumption.
  - destruct ti as [i |]; [discriminate E2|].
    rewrite tickTimers_app, E1.
    destruct up as [p |]; [destruct E5 as [E5 _]; discriminate E5|].
    repeat split; try assumption; try lia; try reflexivity.
    apply Forall_app. split; [exact E3|]. constructor; [cbn; lia | constructor].
Qed.

Lemma tick_handle_positive : forall w id,
  EngineInv w -> timerId (drum w) = Some id -> (1 <= id)%nat.
Proof.
  intros w id (E1 & _ & E3 & _) H. rewrite H in E1.
  assert (Hin : In id (tickTimers (timers w))) by (rewrite E1; left; reflexivity).
  apply tickTimers_In in Hin. destruct Hin as (t & Hin & <- & _).
  rewrite Forall_forall in E3. apply E3. exact Hin.
Qed.

Lemma EngineInv_stop : forall w, EngineInv w -> EngineInv (stop w).
Proof.
  intros w He.
  assert (Hpos : forall id, timerId (drum w) = Some id -> (1 <= id)%nat)
    by (intros id; apply tick_handle_positive; exact He).
  destruct He as (E1 & E2 & E3 & E4 & E5). destruct w as [s d ts n a r e].
  destruct d as [ac ti ru nt up uh].
  unfold stop, EngineInv in *. cbn in *.
  destruct ti as [i |].
  - specialize (Hpos i eq_refl).
    destruct (Nat.eqb_spec i 0) as [Ez | Ez]; [lia|].
    destruct up as [p |]; cbn;
      rewrite ?tickTimers_dropTimer, E1; cbn; rewrite Nat.eqb_refl; cbn;
      repeat split; try assumption; try reflexivity;
      repeat apply Forall_dropTimer; assumption.
  - destruct up as [p |]; cbn;
      rewrite ?tickTimers_dropTimer, E1; cbn;
      repeat split; try assumption; try reflexivity;
      repeat apply Forall_dropTimer; assumption.
Qed.

Lemma EngineInv_uiPulse : forall id t w,
  WorldInv w -> EngineInv w ->
  In t (timers w) -> tid t = id -> tcallback t = CbUiPulse ->
  EngineInv (uiPulseCallback (clearTimer id w)).
Proof.
  intros id t w (_ & Hti & _) (E1 & E2 & E3 & E4 & E5) Hin Hid Hcb.
  assert (Hk : tickTimers (dropTimer id (timers w)) = tickTimers (timers w)).
  { apply (tickTimers_dropOther id t (timers w) (nextTimerId w)); try assumption.
    unfold isTick. rewrite Hcb. reflexivity. }
  destruct w as [s d ts n a r e]. destruct d as [ac ti ru nt up uh].
  unfold uiPulseCallback, clearTimer, EngineInv in *. cbn in *.
  destruct ru; cbn; rewrite Hk;
    repeat split; try assumption; try reflexivity; apply Forall_dropTimer; assumption.
Qed.

Lemma EngineInv_clearOther : forall id t w,
  WorldInv w -> EngineInv w ->
  In t (timers w) -> tid t = id -> tcallback t = CbNewProblem ->
  EngineInv (clearTimer id w).
Proof.
  intros id t w (_ & Hti & _) (E1 & E2 & E3 & E4 & E5) Hin Hid Hcb.
  assert (Hk : tickTimers (dropTimer id (timers w)) = tickTimers (timers w)).
  { apply (tickTimers_dropOther id t (timers w) (nextTimerId w)); try assumption.
    unfold isTick. rewrite Hcb. reflexivity. }
  unfold clearTimer, EngineInv. cbn. rewrite Hk.
  repeat split; try assumption. apply Forall_dropTimer. assumption.
Qed.

Lemma FullInv_newProblem : forall w, FullInv w -> FullInv (newProblem w).
Proof.
  intros w (Hw & Hc & He).
  pose proof (newProblem_frame w) as (Hs & Hd & Hts & Hn). cbv zeta in *.
  split; [apply WorldInv_newProblem; exact Hw|]. split.
  - rewrite Hs. destruct (state w). exact Hc.
  - revert He. apply EngineInv_same_drum; assumption.
Qed.

Lemma CountersInv_updateOnCorrect : forall w,
  0 <= correctTotal (state w) ->
  CountersInv (state w) -> CountersInv (state (updateOnCorrect w)).
Proof.
  intros w Hct [Hd Hm].
  pose proof (updateOnCorrect_frame w) as (_ & _ & _ & _ & _ & _ & Fm & _ & Fct).
  cbv zeta in Fm, Fct. unfold CountersInv, SETTINGS.stageClearEveryCorrect in *.
  rewrite Fm, Fct. split; [| exact Hm].
  assert (Hrem : Z.rem (correctTotal (state w) + 1) 20
                 = (correctTotal (state w) + 1) mod 20)
    by (apply jsrem_mod; lia).
  pose proof (Z.div_mod (correctTotal (state w)) 20 ltac:(lia)) as D0.
  pose proof (Z.mod_pos_bound (correctTotal (state w)) 20 ltac:(lia)) as B0.
  pose proof (Z.div_mod (correctTotal (state w) + 1) 20 ltac:(lia)) as D1.
  pose proof (Z.mod_pos_bound (correctTotal (state w) + 1) 20 ltac:(lia)) as B1.
  destruct (Z.eq_dec (Z.rem (correctTotal (state w) + 1) 20) 0) as [E | E].
  - pose proof (updateOnCorrect_cleared w E) as (C1 & _). cbv zeta in C1.
    rewrite C1, Hd. lia.
  - pose proof (updateOnCorrect_kept w E) as (K1 & _). cbv zeta in K1.
    rewrite K1, Hd. lia.
Qed.

Lemma CountersInv_mute : forall s m,
  CountersInv s -> m <= SETTINGS.muteOnWrongSteps -> CountersInv (set_muteSteps m s).
Proof.
  intros s m [H1 _] Hm. destruct s. unfold CountersInv in *. cbn in *. tauto.
Qed.

Lemma FullInv_checkAnswer : forall w, FullInv w -> FullInv (checkAnswer w).
Proof.
  intros w (Hw & Hc & He).
  split; [apply WorldInv_checkAnswer; exact Hw|].
  destruct (parseAnswer (Some (answerValue w))) as [| | v] eqn:E.
  - rewrite checkAnswer_invalid by tauto.
    pose proof (focusAnswer_frame true w) as (F1 & F2 & F3 & F4 & _). cbv zeta in *.
    split; [rewrite F1; exact Hc | revert He; apply EngineInv_same_drum; assumption].
  - rewrite checkAnswer_invalid by tauto.
    pose proof (focusAnswer_frame true w) as (F1 & F2 & F3 & F4 & _). cbv zeta in *.
    split; [rewrite F1; exact Hc | revert He; apply EngineInv_same_drum; assumption].
  - destruct (Z.eq_dec v (currentAnswer (state w))) as [Ev | Ev].
    + subst v.
      pose proof (checkAnswer_correct_frame w E) as (S1 & D1 & _ & _ & T1 & N1).
      cbv zeta in *. split.
      * rewrite S1. apply CountersInv_updateOnCorrect; [apply Hw | exact Hc].
      * destruct He as (E1 & E2 & E3 & E4 & E5). unfold EngineInv.
        rewrite D1, T1, N1, tickTimers_app, app_nil_r.
        repeat split; try assumption; try lia.
        apply Forall_app. split; [exact E3|]. constructor; [cbn; lia | constructor].
    + pose proof (checkAnswer_wrong w v E Ev) as Ew.
      pose proof (resetProgression_frame w) as (R1 & R2 & R3 & _).
      pose proof (resetProgression_state w)
        as (S1 & _ & S3 & _ & _ & _ & _ & _ & S9 & _).
      pose proof (playWrongFx_spec (resetProgression w)) as (P1 & P2 & P3 & P4 & _).
      pose proof (focusAnswer_frame true (playWrongFx (resetProgression w)))
        as (F1 & F2 & F3 & F4 & _).
      cbv zeta in *. rewrite Ew. split.
      * rewrite F1, P1.
        assert (Hc0 : CountersInv (state (resetProgression w))).
        { destruct Hc as [_ Hm]. unfold CountersInv. rewrite S1, S3, S9.
          split; [reflexivity | exact Hm]. }
        destruct (soundEnabled (state (resetProgression w)) && isRunning (resetProgression w));
          [apply CountersInv_mute; [exact Hc0 | reflexivity] | exact Hc0].
      * revert He. apply EngineInv_same_drum; congruence.
Qed.

Lemma FullInv_resetAll : forall w, FullInv w -> FullInv (resetAll w).
Proof.
  intros w (Hw & Hc & He). unfold resetAll. apply FullInv_newProblem.
  pose proof (resetProgression_frame w) as (R1 & R2 & R3 & _).
  pose proof (resetProgression_state w)
    as (S1 & _ & S3 & _ & _ & _ & _ & _ & S9 & _).
  cbv zeta in *. split; [| split].
  - destruct Hw as [Hp Ht]. split.
    + apply ProgressInv_resetProgression. apply Hp.
    + revert Ht. apply TimerInv_ext; congruence.
  - destruct Hc as [_ Hm]. unfold CountersInv. rewrite S1, S3, S9.
    split; [reflexivity | exact Hm].
  - revert He. apply EngineInv_same_drum; assumption.
Qed.

Lemma FullInv_ensureCtx : forall w, FullInv w -> FullInv (ensureCtx w).
Proof.
  intros w (Hw & Hc & He). split; [| split].
  - destruct Hw as [Hp Ht]. split; [exact Hp|]. revert Ht. apply TimerInv_ext; reflexivity.
  - exact Hc.
  - revert He. apply EngineInv_ext; reflexivity.
Qed.

Lemma state_start : forall now w, state (start now w) = state w.
Proof.
  intros now w. destruct w as [s d ts n a r e]. destruct d as [ac ti ru nt up uh].
  unfold start. cbn. destruct ru; reflexivity.
Qed.

Lemma state_stop : forall w, state (stop w) = state w.
Proof.
  intros w. destruct w as [s d ts n a r e]. destruct d as [ac ti ru nt up uh].
  unfold stop. cbn. destruct ti as [i |]; [destruct (i =? 0)%nat|];
    destruct up; reflexivity.
Qed.

Lemma FullInv_start : forall now w, FullInv w -> FullInv (start now w).
Proof.
  intros now w (Hw & Hc & He). split; [apply WorldInv_start; exact Hw|].
  split; [rewrite state_start; exact Hc | apply EngineInv_start; exact He].
Qed.

Lemma FullInv_stop : forall w, FullInv w -> FullInv (stop w).
Proof.
  intros w (Hw & Hc & He). split; [apply WorldInv_stop; exact Hw|].
  split; [rewrite state_stop; exact Hc | apply EngineInv_stop; exact He].
Qed.

Lemma FullInv_soundToggle : forall w, FullInv w -> FullInv (soundToggleClick w).
Proof.
  intros w (Hw & Hc & He). split; [apply WorldInv_soundToggle; exact Hw|].
  destruct w as [s d ts n a r e]. destruct s as [ca ct sc ds dl bs ms st bc se df].
  unfold soundToggleClick, renderSoundToggle, safePlay. cbn.
  destruct se; cbn; (split; [exact Hc | exact He]).
Qed.

Lemma FullInv_fireTimer : forall id now w, FullInv w -> FullInv (fireTimer id now w).
Proof.
  intros id now w H. unfold fireTimer.
  destruct (find _ (timers w)) as [t |] eqn:E; [| exact H].
  apply find_timer in E. destruct E as [Hin Hid].
  destruct (tcallback t) eqn:Ecb.
  - apply FullInv_tick; [exact H|].
    destruct H as (_ & _ & (E1 & E2 & _)).
    assert (Hm : In id (tickTimers (timers w))).
    { rewrite <- Hid. apply In_tickTimers; [assumption|]. unfold isTick.
      rewrite Ecb. reflexivity. }
    rewrite E1 in Hm. rewrite E2.
    destruct (timerId (drum w)); [reflexivity | destruct Hm].
  - destruct H as (Hw & Hc & He). split; [apply (WorldInv_uiPulse id t); assumption|].
    split.
    + destruct w as [s d ts n a r e]. destruct d as [ac ti ru nt up uh].
      unfold uiPulseCallback, clearTimer. cbn. destruct ru; exact Hc.
    + apply (EngineInv_uiPulse id t); assumption.
  - apply FullInv_newProblem. destruct H as (Hw & Hc & He).
    split; [apply (WorldInv_clearOther id t); try assumption;
            unfold isPulse; rewrite Ecb; reflexivity|].
    split; [exact Hc | apply (EngineInv_clearOther id t); assumption].
Qed.

Lemma FullInv_handle : forall e w, FullInv w -> FullInv (handle e w).
Proof.
  intros e w H. destruct e; cbn [handle].
  - destruct H as (Hw & Hc & He). split; [| split; [exact Hc|]].
    + destruct Hw as [Hp Ht]. split; [exact Hp|]. revert Ht. apply TimerInv_ext; reflexivity.
    + revert He. apply EngineInv_ext; reflexivity.
  - apply FullInv_checkAnswer; exact H.
  - apply FullInv_resetAll; exact H.
  - unfold drumToggleClick.
    destruct (negb (isRunning (ensureCtx w)));
      [apply FullInv_start | apply FullInv_stop]; apply FullInv_ensureCtx; exact H.
  - apply FullInv_start; exact H.
  - apply FullInv_soundToggle; exact H.
  - apply FullInv_fireTimer; exact H.
Qed.

Lemma FullInv_boot : forall lowSpec r, FullInv (boot lowSpec r).
Proof.
  intros lowSpec r. unfold boot. apply FullInv_newProblem.
  split; [| split].
  - destruct lowSpec; cbn; (split; [| split]).
    all: try (unfold ProgressInv, TransportInv; cbn; repeat split; try lia; reflexivity).
    all: try (unfold TimersInv, TimersOk; cbn; split; constructor).
    all: reflexivity.
  - destruct lowSpec; vm_compute; (split; [reflexivity | discriminate]).
  - destruct lowSpec; cbn; unfold EngineInv; cbn;
      repeat split; try reflexivity; try constructor.
Qed.

Lemma reachable_full : forall w, reachable w -> FullInv w.
Proof.
  intros w H. induction H as [lowSpec r | e w _ IH].
  - apply FullInv_boot.
  - apply FullInv_handle. exact IH.
Qed.

(** X13.  In every reachable world the derived fields are functions of the
    counters: the difficulty stage is the number of completed runs of 20
    correct answers, the profile is the preset of that stage, the beat
    level and the BGM variation are those computed from [stageCorrect]; the
    variation lies in [0, 3] and a mute window never exceeds 4 steps. *)
Theorem derived_state_is_consistent : forall w,
  reachable w ->
  let s := state w in
  0 <= correctTotal s
  /\ difficultyStage s = correctTotal s / 20
  /\ diff s = difficultyForStage (correctTotal s / 20)
  /\ drumLevel s = computeDrumLevel (stageCorrect s)
  /\ bgmStage s = computeBgmStage (stageCorrect s)
  /\ 0 <= bgmStage s <= 3
  /\ 0 <= muteSteps s <= 4.
Proof.
  intros w H. pose proof (reachable_full w H) as (((Hct & Hsc & Hd & Hb & Hds & Hdf & Hm & Ht) & _) & (Hst & Hmu) & _).
  cbv zeta. unfold SETTINGS.stageClearEveryCorrect, SETTINGS.muteOnWrongSteps in *.
  split; [exact Hct|]. split; [exact Hst|]. split; [rewrite <- Hst; exact Hdf|].
  split; [exact Hd|]. split; [exact Hb|]. split; [| lia].
  rewrite Hb. apply computeBgmStage_bounds. rewrite Hsc. apply Z.mod_pos_bound. lia.
Qed.

Lemma derived_state_is_consistent_witness :
  difficultyStage (state (checkedWorld 45)) = correctTotal (state (checkedWorld 45)) / 20.
Proof.
  apply (derived_state_is_consistent (checkedWorld 45)).
  apply (checkedWorld_spec 45).
Defined.

(** X14.  In every reachable world the lookahead interval is pending
    exactly while the engine runs: when it runs, [timerId] holds the one
    pending interval, whose handle is positive; when it is stopped no
    interval and no pulse timer is pending and no hit flag is kept. *)
Theorem lookahead_pending_iff_running : forall w,
  reachable w ->
  (running (drum w) = true ->
     exists id, timerId (drum w) = Some id /\ tickTimers (timers w) = [id]
                /\ (1 <= id)%nat)
  /\ (running (drum w) = false ->
      timerId (drum w) = None /\ tickTimers (timers w) = []
      /\ uiPulseTimer (drum w) = None /\ pendingPulses w = []
      /\ uiPulseHits (drum w) = noHits).
Proof.
  intros w H. pose proof (reachable_full w H) as ((_ & _ & Hpu) & _ & He).
  pose proof (tick_handle_positive w) as Hpos. specialize (fun id => Hpos id He).
  destruct He as (E1 & E2 & _ & _ & E5). unfold PulseInv in Hpu. split.
  - intros Hr. rewrite Hr in E2. destruct (timerId (drum w)) as [id |]; [| discriminate].
    exists id. split; [reflexivity|]. split; [exact E1 | apply Hpos; reflexivity].
  - intros Hr. rewrite Hr in E2, E5.
    destruct (timerId (drum w)) as [id |]; [discriminate|].
    destruct (uiPulseTimer (drum w)) as [p |]; [destruct E5 as [E5 _]; discriminate|].
    repeat split; assumption.
Qed.

Lemma lookahead_pending_iff_running_witness :
  exists id, timerId (drum wrongWorld) = Some id
             /\ tickTimers (timers wrongWorld) = [id] /\ (1 <= id)%nat.
Proof.
  apply (lookahead_pending_iff_running wrongWorld).
  - unfold wrongWorld. cbn [run fold_left]. apply reach_step, reach_step, reach_boot.
  - vm_compute. reflexivity.
Defined.

Lemma filter_filter_and : forall (A : Type) (f g : A -> bool) l,
  filter f (filter g l) = filter (fun x => g x && f x) l.
Proof.
  intros A f g l. induction l as [| x l IH]; [reflexivity|].
  cbn. destruct (g x); cbn; [destruct (f x)|]; rewrite ?IH; reflexivity.
Qed.

Lemma filter_all : forall (A : Type) (f : A -> bool) l,
  (forall x, In x l -> f x = true) -> filter f l = l.
Proof.
  intros A f l H. induction l as [| x l IH]; [reflexivity|].
  cbn. rewrite (H x (or_introl eq_refl)). f_equal. apply IH.
  intros y Hy. apply H. right. exact Hy.
Qed.

(** What a timer is, by the handles the engine holds. *)
Lemma timer_kinds : forall w t,
  WorldInv w -> EngineInv w -> In t (timers w) ->
  match tcallback t with
  | CbTick => timerId (drum w) = Some (tid t)
  | CbUiPulse => uiPulseTimer (drum w) = Some (tid t)
  | CbNewProblem => timerId (drum w) <> Some (tid t)
                    /\ uiPulseTimer (drum w) <> Some (tid t)
  end.
Proof.
  intros w t (_ & Hti & Hpu) (E1 & _) Hin. unfold PulseInv, pendingPulses in Hpu.
  destruct (tcallback t) eqn:Ecb.
  - assert (Hm : In (tid t) (tickTimers (timers w)))
      by (apply In_tickTimers; [assumption | unfold isTick; rewrite Ecb; reflexivity]).
    rewrite E1 in Hm. destruct (timerId (drum w)); [| destruct Hm].
    destruct Hm as [-> | []]. reflexivity.
  - assert (Hm : In (tid t) (pulsesOf (timers w)))
      by (apply In_pulsesOf; [assumption | unfold isPulse; rewrite Ecb; reflexivity]).
    rewrite Hpu in Hm. destruct (uiPulseTimer (drum w)); [| destruct Hm].
    destruct Hm as [-> | []]. reflexivity.
  - split; intros E.
    + assert (Hm : In (tid t) (tickTimers (timers w))) by (rewrite E1, E; left; reflexivity).
      apply tickTimers_In in Hm. destruct Hm as (t' & Hin' & Hid' & Ht').
      assert (t' = t) by (apply (TimersOk_unique _ _ _ _ Hti); assumption).
      subst t'. unfold isTick in Ht'. rewrite Ecb in Ht'. discriminate.
    + assert (Hm : In (tid t) (pulsesOf (timers w))) by (rewrite Hpu, E; left; reflexivity).
      apply pulsesOf_In in Hm. destruct Hm as (t' & Hin' & Hid' & Ht').
      assert (t' = t) by (apply (TimersOk_unique _ _ _ _ Hti); assumption).
      subst t'. unfold isPulse in Ht'. rewrite Ecb in Ht'. discriminate.
Qed.

Lemma stop_timers : forall w,
  timers (stop w)
  = dropTimer_opt (uiPulseTimer (drum w))
      (dropTimer_opt (match timerId (drum w) with
                      | Some id => if (id =? 0)%nat then None else Some id
                      | None => None
                      end) (timers w)).
Proof.
  intros w. destruct w as [s d ts n a r e]. destruct d as [ac ti ru nt up uh].
  unfold stop. cbn. destruct ti as [i |]; [destruct (i =? 0)%nat|];
    destruct up; reflexivity.
Qed.

(** X15.  Stopping the engine of a reachable world cancels the lookahead
    interval and the pending pulse and nothing else: the timers left are
    exactly the pending [newProblem] timeouts; the engine is stopped with
    no hit flag kept, and the game state is untouched. *)
Theorem stop_cancels_the_engine_timers : forall w,
  reachable w ->
  timers (stop w) = filter isNewProblem (timers w)
  /\ running (drum (stop w)) = false
  /\ timerId (drum (stop w)) = None
  /\ uiPulseTimer (drum (stop w)) = None
  /\ uiPulseHits (drum (stop w)) = noHits
  /\ state (stop w) = state w.
Proof.
  intros w H. pose proof (reachable_full w H) as (Hw & _ & He).
  split.
  - rewrite stop_timers.
    pose proof (tick_handle_positive w) as Hpos. specialize (fun id => Hpos id He).
    pose proof (timer_kinds w) as Hk. specialize (fun t => Hk t Hw He).
    assert (Hti : match timerId (drum w) with
                  | Some id => if (id =? 0)%nat then None else Some id
                  | None => None
                  end = timerId (drum w)).
    { destruct (timerId (drum w)) as [i |]; [| reflexivity].
      specialize (Hpos i eq_refl). destruct (Nat.eqb_spec i 0); [lia | reflexivity]. }
    rewrite Hti. unfold dropTimer_opt, dropTimer.
    destruct (timerId (drum w)) as [i |]; destruct (uiPulseTimer (drum w)) as [p |];
      rewrite ?filter_filter_and; try apply filter_ext_in;
      try (symmetry; apply filter_all);
      intros t Hin; specialize (Hk t Hin); unfold isNewProblem;
      destruct (tcallback t); cbn;
      repeat match goal with
             | H : Some _ = Some _ |- _ => injection H as H; subst
             | H : None = Some _ |- _ => discriminate H
             | H : _ /\ _ |- _ => destruct H
             end;
      rewrite ?Nat.eqb_refl; cbn; rewrite ?andb_false_r; try reflexivity.
    all: repeat match goal with
                | |- context [(?a =? ?b)%nat] =>
                    destruct (Nat.eqb_spec a b); [subst; congruence|]
                end; reflexivity.
  - rewrite state_stop. destruct w as [s d ts n a r e]. destruct d as [ac ti ru nt up uh].
    unfold stop. cbn. destruct ti as [i |]; [destruct (i =? 0)%nat|];
      destruct up; repeat split; reflexivity.
Qed.

Lemma stop_cancels_the_engine_timers_witness :
  timers (stop wrongWorld) = filter isNewProblem (timers wrongWorld).
Proof.
  apply (stop_cancels_the_engine_timers wrongWorld).
  unfold wrongWorld. cbn [run fold_left]. apply reach_step, reach_step, reach_boot.
Defined.

Lemma find_unique : forall ts n t,
  TimersOk ts n -> In t ts -> find (fun x => (tid x =? tid t)%nat) ts = Some t.
Proof.
  intros ts n t Hok Hin.
  destruct (find (fun x => (tid x =? tid t)%nat) ts) as [t' |] eqn:E.
  - apply find_timer in E. destruct E as [Hin' Hid].
    f_equal. apply (TimersOk_unique _ _ _ _ Hok); assumption.
  - exfalso. apply (find_none _ _ E) in Hin. rewrite Nat.eqb_refl in Hin. discriminate.
Qed.

(** X16.  In every reachable world a pending pulse timer, when it fires,
    delivers exactly the kick pulse, as one batch on the body and the
    container, and leaves no pulse pending and no hit flag set: the
    discarding branch of the callback and the snare classes are never
    taken. *)
Theorem fired_pulse_is_the_kick_pulse : forall w t now,
  reachable w -> In t (timers w) -> tcallback t = CbUiPulse ->
  let w' := handle (EvTimer (tid t) now) w in
  since w w'
  = [FxRetriggerBatch [(NBody, ["bg-kick"%string]); (NContainer, ["ui-kick"%string])]]
  /\ pendingPulses w' = []
  /\ uiPulseTimer (drum w') = None
  /\ uiPulseHits (drum w') = noHits
  /\ state w' = state w.
Proof.
  intros w t now H Hin Hcb.
  pose proof (reachable_full w H) as (Hw & _ & He).
  pose proof (timer_kinds w t Hw He Hin) as Hk. rewrite Hcb in Hk.
  pose proof (WorldInv_uiPulse (tid t) t w Hw Hin eq_refl Hcb) as (_ & _ & Hpu').
  destruct Hw as (_ & Hti & _). destruct He as (_ & _ & _ & _ & E5).
  rewrite Hk in E5. destruct E5 as [Hr Hh].
  cbv zeta. cbn [handle]. unfold fireTimer.
  rewrite (find_unique (timers w) (nextTimerId w) t Hti Hin), Hcb.
  unfold PulseInv in Hpu'. revert Hpu'.
  destruct w as [s d ts n a r e]. destruct d as [ac ti ru nt up uh].
  cbn in Hr, Hh. subst ru uh.
  unfold uiPulseCallback, clearTimer, pendingPulses. cbn. intros Hpu'.
  split; [rewrite skipn_app, skipn_all, Nat.sub_diag; reflexivity|].
  repeat split; try reflexivity. exact Hpu'.
Qed.

Lemma fired_pulse_is_the_kick_pulse_witness :
  let w := handle (EvTimer 1 0) wrongWorld in
  since w (handle (EvTimer 2 (1 # 10)) w)
  = [FxRetriggerBatch [(NBody, ["bg-kick"%string]); (NContainer, ["ui-kick"%string])]].
Proof.
  cbv zeta.
  apply (fired_pulse_is_the_kick_pulse (handle (EvTimer 1 0) wrongWorld)
           (mkTimer 2 (5000 # 100) CbUiPulse) (1 # 10)).
  - unfold wrongWorld. cbn [run fold_left].
    apply reach_step, reach_step, reach_step, reach_boot.
  - vm_compute. right. left. reflexivity.
  - reflexivity.
Defined.

(** ** The snare tier leaves no trace *)

Lemma snares_app : forall w w' l,
  effects w' = effects w ++ l -> filter snareTrace l = [] -> snares w' = snares w.
Proof.
  intros w w' l H Hl. unfold snares. rewrite H, filter_app, Hl, app_nil_r. reflexivity.
Qed.

Lemma snares_focus : forall b w, snares (focusAnswer b w) = snares w.
Proof.
  intros b w. unfold focusAnswer. destruct b; quiet_by_computation w.
Qed.

Lemma snares_safePlaySfx : forall a w, snares (safePlaySfx a w) = snares w.
Proof.
  intros a w. unfold safePlaySfx, safePlay.
  destruct (negb (soundEnabled (state w))); [reflexivity | quiet_by_computation w].
Qed.

Lemma WorldInv_level01 : forall w,
  WorldInv w -> drumLevel (state w) = 0 \/ drumLevel (state w) = 1.
Proof.
  intros w Hw. pose proof (WorldInv_drumLevel w Hw) as Hle.
  destruct Hw as ((_ & _ & Hd & _) & _). revert Hle. rewrite Hd.
  unfold computeDrumLevel.
  destruct (stageCorrect (state w) >=? SETTINGS.unlockSnareAt); [lia|].
  destruct (stageCorrect (state w) >=? SETTINGS.unlockHihatAt); lia.
Qed.

Lemma snares_renderStats : forall w,
  drumLevel (state w) = 0 \/ drumLevel (state w) = 1 ->
  snares (renderStats w) = snares w.
Proof.
  intros w H. apply (snares_app w _
    [FxCorrectTotalText (correctTotal (state w));
     FxDrumLevelLabel (if drumLevel (state w) =? 0 then "KICK"%string
                       else if drumLevel (state w) =? 1 then "K+HAT"%string
                       else "K+H+SNR"%string)]).
  - destruct w. unfold renderStats. cbn. rewrite <- app_assoc. reflexivity.
  - destruct H as [-> | ->]; reflexivity.
Qed.

Lemma snares_newProblem : forall w, snares (newProblem w) = snares w.
Proof.
  intros w.
  apply (snares_app w _ [FxProblem (fst (buildProblem (state w) (random w))); FxFocus]);
    [| reflexivity].
  destruct w. unfold newProblem, renderProblem, focusAnswer. cbn.
  rewrite <- app_assoc. reflexivity.
Qed.

Lemma snares_updateOnCorrect : forall w,
  WorldInv w -> snares (updateOnCorrect w) = snares w.
Proof.
  intros w ((Hct & Hsc & _) & _).
  apply (snares_app w _ (correctEffects w)); [apply updateOnCorrect_effects|].
  unfold correctEffects. cbv zeta.
  assert (Hlabel : forall d : Z, d = 0 \/ d = 1 ->
            String.eqb (if d =? 0 then "KICK"%string
                        else if d =? 1 then "K+HAT"%string else "K+H+SNR"%string)
              "K+H+SNR" = false)
    by (intros d [-> | ->]; reflexivity).
  assert (Hd : (if Z.rem (correctTotal (state w) + 1) SETTINGS.stageClearEveryCorrect =? 0
                then 0 else computeDrumLevel (stageCorrect (state w) + 1)) = 0
               \/ (if Z.rem (correctTotal (state w) + 1) SETTINGS.stageClearEveryCorrect
                      =? 0
                   then 0 else computeDrumLevel (stageCorrect (state w) + 1)) = 1).
  { unfold SETTINGS.stageClearEveryCorrect in *.
    destruct (Z.eqb_spec (Z.rem (correctTotal (state w) + 1) 20) 0) as [E | E];
      [left; reflexivity|].
    rewrite Z.rem_mod_nonneg in E by lia.
    assert (stageCorrect (state w) + 1 <= 19).
    { rewrite Hsc. pose proof (Z.mod_pos_bound (correctTotal (state w)) 20 ltac:(lia)).
      assert (stageCorrect (state w) + 1 <> 20); [| lia].
      intros E20. apply E. rewrite <- Zplus_mod_idemp_l, <- Hsc.
      replace (stageCorrect (state w) + 1) with 20 by lia. reflexivity. }
    unfold computeDrumLevel, SETTINGS.unlockSnareAt, SETTINGS.unlockHihatAt.
    rewrite !Z.geb_leb.
    destruct (Z.leb_spec 20 (stageCorrect (state w) + 1)); [lia|].
    destruct (Z.leb_spec 10 (stageCorrect (state w) + 1)); [right | left]; reflexivity. }
  rewrite !filter_app.
  assert (F1 : filter snareTrace
                 (if computeBgmStage (stageCorrect (state w) + 1) =? bgmStage (state w)
                  then []
                  else FxCue CueBgmSwitch
                       :: (if soundEnabled (state w) then [FxPlay bgmSwitchSound] else []))
               = []).
  { destruct (computeBgmStage _ =? _); [reflexivity|].
    destruct (soundEnabled (state w)); reflexivity. }
  assert (F2 : filter snareTrace
                 (if Z.rem (correctTotal (state w) + 1) SETTINGS.stageClearEveryCorrect =? 0
                  then FxCue CueStageClear
                       :: (if soundEnabled (state w) then [FxPlay stageClearSound] else [])
                  else [])
               = []).
  { destruct (Z.rem _ _ =? 0); [| reflexivity].
    destruct (soundEnabled (state w)); reflexivity. }
  rewrite F1, F2. cbn [app filter snareTrace]. rewrite (Hlabel _ Hd). reflexivity.
Qed.

Lemma snares_resetProgression : forall w, snares (resetProgression w) = snares w.
Proof.
  intros w. destruct w as [s d ts n a r e]. destruct s.
  unfold snares, resetProgression, renderStats, resetTransport. cbn.
  rewrite !filter_app. cbn. rewrite !app_nil_r. reflexivity.
Qed.

Lemma snares_playWrongFx : forall w, snares (playWrongFx w) = snares w.
Proof.
  intros w. destruct w as [s d ts n a r e]. destruct s as [ca ct sc ds dl bs ms st bc se df].
  destruct d as [ac ti ru nt up uh].
  unfold snares, playWrongFx, showRetryText, safePlaySfx, safePlay, isRunning. cbn.
  destruct se, ru; cbn; rewrite !filter_app; cbn; rewrite !app_nil_r; reflexivity.
Qed.

Lemma snares_playCorrectFx : forall w, snares (playCorrectFx w) = snares w.
Proof.
  intros w. destruct w as [s d ts n a r e]. destruct s as [ca ct sc ds dl bs ms st bc se df].
  unfold snares, playCorrectFx, safePlaySfx, safePlay. cbn.
  destruct se; cbn; rewrite !filter_app; cbn; rewrite !app_nil_r; reflexivity.
Qed.

Lemma snares_checkAnswer : forall w,
  WorldInv w -> snares (checkAnswer w) = snares w.
Proof.
  intros w Hw.
  destruct (parseAnswer (Some (answerValue w))) as [| | v] eqn:E.
  - rewrite checkAnswer_invalid by tauto. apply snares_focus.
  - rewrite checkAnswer_invalid by tauto. apply snares_focus.
  - destruct (Z.eq_dec v (currentAnswer (state w))) as [-> | Hne].
    + rewrite checkAnswer_correct by assumption.
      transitivity (snares (playCorrectFx (updateOnCorrect w))); [reflexivity|].
      rewrite snares_playCorrectFx. apply snares_updateOnCorrect. exact Hw.
    + rewrite (checkAnswer_wrong w v) by assumption.
      rewrite snares_focus, snares_playWrongFx. apply snares_resetProgression.
Qed.

Lemma snares_scheduleStep : forall now time w,
  WorldInv w -> snares (scheduleStep now time w) = snares w.
Proof.
  intros now time w Hw.
  destruct (Z_lt_le_dec 0 (muteSteps (state w))) as [Hm | Hm].
  - rewrite scheduleStep_muted by assumption. reflexivity.
  - rewrite scheduleStep_audible by assumption.
    apply (snares_app w _ (voices time (state w))); [apply soundStep_effects|].
    unfold voices. rewrite (snareHit_low (state w) (WorldInv_drumLevel w Hw)).
    destruct (kickHit (state w)); destruct (_ && _); reflexivity.
Qed.

Lemma snares_tickLoop : forall fuel now w,
  WorldInv w -> snares (tickLoop fuel now w) = snares w.
Proof.
  induction fuel as [| fuel IH]; intros now w H; [reflexivity|].
  cbn. destruct (Qlt_le_dec _ _); [| reflexivity].
  rewrite IH.
  - transitivity (snares (scheduleStep now (nextTime (drum w)) w)); [reflexivity|].
    apply snares_scheduleStep. exact H.
  - pose proof (WorldInv_scheduleStep now (nextTime (drum w)) w H) as [Hp Ht].
    split; [exact Hp | revert Ht; apply TimerInv_ext; reflexivity].
Qed.

Lemma snares_tick : forall now w, WorldInv w -> snares (tick now w) = snares w.
Proof.
  intros now w [Hp Ht]. unfold tick. rewrite snares_tickLoop; [reflexivity|].
  split; [exact Hp | revert Ht; apply TimerInv_ext; reflexivity].
Qed.

Lemma snares_start : forall now w, snares (start now w) = snares w.
Proof.
  intros now w. destruct w as [s d ts n a r e]. destruct d as [ac ti ru nt up uh].
  unfold snares, start. cbn. destruct ru; cbn; [reflexivity|].
  rewrite filter_app. cbn. apply app_nil_r.
Qed.

Lemma snares_stop : forall w, snares (stop w) = snares w.
Proof.
  intros w. destruct w as [s d ts n a r e]. destruct d as [ac ti ru nt up uh].
  unfold snares, stop. cbn. destruct ti as [i |]; [destruct (i =? 0)%nat|];
    destruct up; cbn; rewrite filter_app; cbn; apply app_nil_r.
Qed.

Lemma snares_soundToggle : forall w, snares (soundToggleClick w) = snares w.
Proof.
  intros w. destruct w as [s d ts n a r e]. destruct s as [ca ct sc ds dl bs ms st bc se df].
  unfold snares, soundToggleClick, renderSoundToggle, safePlay. cbn.
  destruct se; cbn; rewrite !filter_app; cbn; rewrite !app_nil_r; reflexivity.
Qed.

(** A pulse that fires in a world where the engine's bookkeeping holds. *)
Lemma uiPulse_effects : forall w t,
  EngineInv w -> uiPulseTimer (drum w) = Some (tid t) ->
  effects (uiPulseCallback (clearTimer (tid t) w))
  = effects w
    ++ [FxRetriggerBatch [(NBody, ["bg-kick"%string]); (NContainer, ["ui-kick"%string])]].
Proof.
  intros w t (_ & _ & _ & _ & E5) Hk. rewrite Hk in E5. destruct E5 as [Hr Hh].
  destruct w as [s d ts n a r e]. destruct d as [ac ti ru nt up uh].
  cbn in Hr, Hh. subst ru uh. reflexivity.
Qed.

Lemma snares_fireTimer : forall id now w,
  FullInv w -> snares (fireTimer id now w) = snares w.
Proof.
  intros id now w (Hw & Hc & He). unfold fireTimer.
  destruct (find _ (timers w)) as [t |] eqn:E; [| reflexivity].
  apply find_timer in E. destruct E as [Hin Hid].
  pose proof (timer_kinds w t Hw He Hin) as Hk.
  destruct (tcallback t) eqn:Ecb.
  - apply snares_tick. exact Hw.
  - subst id. apply (snares_app w _ _ (uiPulse_effects w t He Hk)). reflexivity.
  - rewrite snares_newProblem. reflexivity.
Qed.

Lemma snares_handle : forall e w, FullInv w -> snares (handle e w) = snares w.
Proof.
  intros e w H. destruct e; cbn [handle].
  - reflexivity.
  - apply snares_checkAnswer. apply H.
  - unfold resetAll. rewrite snares_newProblem. apply snares_resetProgression.
  - unfold drumToggleClick.
    destruct (negb (isRunning (ensureCtx w))); [rewrite snares_start | rewrite snares_stop];
      reflexivity.
  - apply snares_start.
  - apply snares_soundToggle.
  - apply snares_fireTimer. exact H.
Qed.

(** X17.  The snare tier leaves no trace in any session: whatever the user
    does and whenever the timers fire, the snare voice is never scheduled,
    the label "K+H+SNR" is never shown, and no pulse batch ever carries a
    snare class. *)
Theorem snare_is_never_heard_or_shown : forall w e,
  reachable w -> In e (effects w) -> snareTrace e = false.
Proof.
  intros w e H.
  assert (Hs : snares w = []).
  { induction H as [lowSpec r | ev w H IH].
    - unfold boot. rewrite snares_newProblem. destruct lowSpec; reflexivity.
    - rewrite snares_handle; [exact IH | apply reachable_full; exact H]. }
  intros Hin. destruct (snareTrace e) eqn:E; [| reflexivity].
  assert (Hm : In e (snares w)) by (apply filter_In; split; assumption).
  rewrite Hs in Hm. destruct Hm.
Qed.

Lemma snare_is_never_heard_or_shown_witness :
  snareTrace (FxDrumLevelLabel "KICK") = false.
Proof.
  apply (snare_is_never_heard_or_shown (boot false (fun _ => 0%Q))).
  - apply reach_boot.
  - vm_compute. right. left. reflexivity.
Defined.

(** ** Class lists *)

Lemma Node_eqb_spec : forall x y, reflect (x = y) (Node_eqb x y).
Proof. intros [] []; constructor; congruence. Qed.

Lemma onNode_fold : forall (f : string -> ClassList.t -> ClassList.t) t cls d m,
  fold_left (fun d cn => onNode t (f cn) d) cls d m
  = if Node_eqb m t then fold_left (fun l cn => f cn l) cls (d m) else d m.
Proof.
  intros f t cls. induction cls as [| c cls IH]; intros d m; cbn.
  - destruct (Node_eqb m t); reflexivity.
  - rewrite IH. unfold onNode. destruct (Node_eqb m t); reflexivity.
Qed.

Lemma contains_In : forall c l, ClassList.contains c l = true <-> In c l.
Proof.
  intros c l. unfold ClassList.contains. rewrite existsb_exists. split.
  - intros (x & Hin & E). apply String.eqb_eq in E. subst x. exact Hin.
  - intros H. exists c. split; [exact H | apply String.eqb_refl].
Qed.

Lemma contains_false : forall c l, ClassList.contains c l = false <-> ~ In c l.
Proof.
  intros c l. rewrite <- contains_In. destruct (ClassList.contains c l); split;
    intros H; try reflexivity; try discriminate; try congruence;
    exfalso; apply H; reflexivity.
Qed.

Lemma filter_none : forall (A : Type) (f : A -> bool) l,
  (forall x, In x l -> f x = false) -> filter f l = [].
Proof.
  intros A f l H. induction l as [| x l IH]; [reflexivity|].
  cbn. rewrite (H x (or_introl eq_refl)). apply IH.
  intros y Hy. apply H. right. exact Hy.
Qed.

Lemma removeAll_filter : forall cls l,
  fold_left (fun l cn => ClassList.remove cn l) cls l
  = filter (fun c => negb (ClassList.contains c cls)) l.
Proof.
  induction cls as [| c cls IH]; intros l; cbn.
  - symmetry. apply filter_all. reflexivity.
  - rewrite IH. unfold ClassList.remove. rewrite filter_filter_and.
    apply filter_ext. intros x. rewrite (String.eqb_sym c x), negb_orb. reflexivity.
Qed.

Lemma addAll_fresh : forall cls l,
  NoDup cls -> (forall c, In c cls -> ~ In c l) ->
  fold_left (fun l cn => ClassList.add cn l) cls l = l ++ cls.
Proof.
  induction cls as [| c cls IH]; intros l Hnd Hfresh; cbn.
  - symmetry. apply app_nil_r.
  - inversion Hnd as [| ? ? Hc Hnd']; subst. unfold ClassList.add at 2.
    assert (E : ClassList.contains c l = false)
      by (apply contains_false, Hfresh; left; reflexivity).
    rewrite E, IH; [rewrite <- app_assoc; reflexivity | exact Hnd' |].
    intros x Hx Hin. apply in_app_or in Hin. destruct Hin as [Hin | [-> | []]].
    + apply (Hfresh x); [right; exact Hx | exact Hin].
    + contradiction.
Qed.

Lemma retriggerClasses_target : forall target cls d,
  NoDup cls ->
  retriggerClasses target cls d target
  = filter (fun c => negb (ClassList.contains c cls)) (d target) ++ cls.
Proof.
  intros target cls d Hnd. unfold retriggerClasses.
  rewrite onNode_fold, onNode_fold.
  destruct (Node_eqb_spec target target) as [_ | N]; [| congruence].
  rewrite removeAll_filter. apply addAll_fresh; [exact Hnd|].
  intros c Hc Hin. apply filter_In in Hin. destruct Hin as [_ Hin].
  apply contains_In in Hc. rewrite Hc in Hin. discriminate.
Qed.

Lemma retriggerClasses_other : forall target cls d n,
  n <> target -> retriggerClasses target cls d n = d n.
Proof.
  intros target cls d n Hn. unfold retriggerClasses.
  rewrite onNode_fold, onNode_fold.
  destruct (Node_eqb_spec n target); [contradiction | reflexivity].
Qed.

(** X18.  [retriggerClasses] with distinct class names: the target keeps
    its other classes in their order and gets the named classes, each
    once, at the end in the order given; a class list without duplicates
    stays so; every other element is untouched; and retriggering again
    changes nothing. *)
Theorem retriggerClasses_moves_classes_last : forall target cls d,
  NoDup cls ->
  let d' := retriggerClasses target cls d in
  d' target = filter (fun c => negb (ClassList.contains c cls)) (d target) ++ cls
  /\ (forall c, In c (d' target) <-> In c (d target) \/ In c cls)
  /\ (NoDup (d target) -> NoDup (d' target))
  /\ (forall n, n <> target -> d' n = d n)
  /\ (forall n, retriggerClasses target cls d' n = d' n).
Proof.
  intros target cls d Hnd. cbv zeta.
  pose proof (retriggerClasses_target target cls d Hnd) as E.
  split; [exact E|]. split; [| split; [| split]].
  - intros c. rewrite E, in_app_iff, filter_In. split.
    + intros [[H _] | H]; tauto.
    + intros [H | H]; [| right; exact H].
      destruct (ClassList.contains c cls) eqn:Ec.
      * right. apply contains_In. exact Ec.
      * left. split; [exact H | reflexivity].
  - intros Hd. rewrite E. apply NoDup_app.
    + apply NoDup_filter. exact Hd.
    + exact Hnd.
    + intros c Hin Hc. apply filter_In in Hin. destruct Hin as [_ Hin].
      apply contains_In in Hc. rewrite Hc in Hin. discriminate.
  - intros n Hn. apply retriggerClasses_other. exact Hn.
  - intros n. destruct (Node_eqb_spec n target) as [-> | Hn].
    + rewrite (retriggerClasses_target target cls _ Hnd), E.
      rewrite filter_app, filter_filter_and.
      assert (F : filter (fun c => negb (ClassList.contains c cls)) cls = []).
      { apply filter_none. intros c Hc.
        apply contains_In in Hc. rewrite Hc. reflexivity. }
      rewrite F, app_nil_r. f_equal. apply filter_ext. intros c.
      destruct (ClassList.contains c cls); reflexivity.
    + apply retriggerClasses_other. exact Hn.
Qed.

Lemma retriggerClasses_moves_classes_last_witness :
  retriggerClasses NFormula ["flash-ok"; "scan"]%string
    (fun _ => ["scan"; "formula"]%string) NFormula
  = ["formula"; "flash-ok"; "scan"]%string.
Proof.
  apply (retriggerClasses_moves_classes_last NFormula ["flash-ok"; "scan"]%string
           (fun _ => ["scan"; "formula"]%string)).
  repeat constructor; cbn; intuition discriminate.
Defined.

Lemma phase_other : forall (f : string -> ClassList.t -> ClassList.t) entries d n,
  ~ In n (map fst entries) ->
  fold_left (fun d e => fold_left (fun d cn => onNode (fst e) (f cn) d) (snd e) d)
    entries d n
  = d n.
Proof.
  intros f entries. induction entries as [| e entries IH]; intros d n Hn; [reflexivity|].
  cbn. rewrite IH by (intros H; apply Hn; right; exact H).
  rewrite onNode_fold. destruct (Node_eqb_spec n (fst e)) as [-> | _]; [| reflexivity].
  exfalso. apply Hn. left. reflexivity.
Qed.

Lemma phase_unique : forall (f : string -> ClassList.t -> ClassList.t) entries d e,
  NoDup (map fst entries) -> In e entries ->
  fold_left (fun d e => fold_left (fun d cn => onNode (fst e) (f cn) d) (snd e) d)
    entries d (fst e)
  = fold_left (fun l cn => f cn l) (snd e) (d (fst e)).
Proof.
  intros f entries. induction entries as [| e0 entries IH]; intros d e Hnd Hin;
    [destruct Hin|].
  cbn in Hnd. inversion Hnd as [| ? ? Hfresh Hnd']; subst. cbn.
  destruct Hin as [-> | Hin].
  - rewrite phase_other by exact Hfresh. rewrite onNode_fold.
    destruct (Node_eqb_spec (fst e) (fst e)); [reflexivity | congruence].
  - rewrite IH by assumption. rewrite onNode_fold.
    destruct (Node_eqb_spec (fst e) (fst e0)) as [E | _]; [| reflexivity].
    exfalso. apply Hfresh. rewrite <- E. apply in_map. exact Hin.
Qed.

Lemma each_other : forall entries d n,
  ~ In n (map fst entries) -> retriggerEach entries d n = d n.
Proof.
  induction entries as [| e entries IH]; intros d n Hn; [reflexivity|].
  unfold retriggerEach in *. cbn. rewrite IH by (intros H; apply Hn; right; exact H).
  apply retriggerClasses_other. intros E. apply Hn. left. symmetry. exact E.
Qed.

Lemma each_unique : forall entries d e,
  NoDup (map fst entries) -> In e entries ->
  retriggerEach entries d (fst e) = retriggerClasses (fst e) (snd e) d (fst e).
Proof.
  induction entries as [| e0 entries IH]; intros d e Hnd Hin; [destruct Hin|].
  cbn in Hnd. inversion Hnd as [| ? ? Hfresh Hnd']; subst.
  unfold retriggerEach in *. cbn. destruct Hin as [-> | Hin].
  - apply each_other. exact Hfresh.
  - rewrite IH by assumption.
    assert (Hne : fst e <> fst e0).
    { intros E. apply Hfresh. rewrite <- E. apply in_map. exact Hin. }
    unfold retriggerClasses. rewrite !onNode_fold.
    destruct (Node_eqb_spec (fst e) (fst e)); [| congruence].
    destruct (Node_eqb_spec (fst e) (fst e0)); [contradiction | reflexivity].
Qed.

(** X19.  A batch whose entries name distinct elements leaves every
    element with the classes it would have after retriggering the entries
    one by one: sharing the single layout flush changes no class list.
    Elements the batch does not name are untouched. *)
Theorem batch_retrigger_equals_one_by_one : forall entries d n,
  NoDup (map fst entries) ->
  retriggerEffectsBatch entries d n = retriggerEach entries d n
  /\ (~ In n (map fst entries) -> retriggerEffectsBatch entries d n = d n).
Proof.
  intros entries d n Hnd.
  assert (Hother : ~ In n (map fst entries) -> retriggerEffectsBatch entries d n = d n).
  { intros Hn. unfold retriggerEffectsBatch. rewrite !phase_other by exact Hn.
    reflexivity. }
  split; [| exact Hother].
  destruct (in_dec (fun x y => reflect_dec _ _ (Node_eqb_spec x y)) n (map fst entries))
    as [Hin | Hn].
  - apply in_map_iff in Hin. destruct Hin as (e & <- & Hin).
    rewrite (each_unique entries d e Hnd Hin).
    unfold retriggerEffectsBatch. rewrite !(phase_unique _ entries _ e Hnd Hin).
    unfold retriggerClasses. rewrite !onNode_fold.
    destruct (Node_eqb_spec (fst e) (fst e)); [reflexivity | congruence].
  - rewrite (Hother Hn), each_other by exact Hn. reflexivity.
Qed.

Lemma batch_retrigger_equals_one_by_one_witness :
  retriggerEffectsBatch
    [(NBody, ["bg-kick"%string]); (NContainer, ["ui-kick"%string])]
    (fun _ => ["bg-kick"; "low-spec"]%string) NBody
  = retriggerEach
      [(NBody, ["bg-kick"%string]); (NContainer, ["ui-kick"%string])]
      (fun _ => ["bg-kick"; "low-spec"]%string) NBody.
Proof.
  apply (batch_retrigger_equals_one_by_one
           [(NBody, ["bg-kick"%string]); (NContainer, ["ui-kick"%string])]
           (fun _ => ["bg-kick"; "low-spec"]%string) NBody).
  repeat constructor; cbn; intuition discriminate.
Defined.

Lemma checkAnswer_wrong_effects : forall w v,
  parseAnswer (Some (answerValue w)) = PNum v ->
  v <> currentAnswer (state w) ->
  since w (checkAnswer w)
  = [FxRemoveClasses NBody ["bg-kick"; "scan-snare"]%string;
     FxRemoveClasses NContainer ["ui-kick"; "ui-snare"]%string;
     FxCorrectTotalText 0; FxDrumLevelLabel "KICK";
     FxRetryText;
     FxRetrigger NFormula ["flash-ng"; "shake"; "show-retry"]%string]
    ++ (if soundEnabled (state w) then [FxPlay wrongSound] else [])
    ++ [FxFocus; FxSelect].
Proof.
  intros w v Hp Hne. rewrite (checkAnswer_wrong w v Hp Hne). apply since_app.
  destruct w as [s d ts n a r e]. destruct s as [ca ct sc ds dl bs ms st bc se df].
  destruct d as [ac ti ru nt up uh].
  unfold focusAnswer, playWrongFx, resetProgression, renderStats, resetTransport,
    showRetryText, safePlaySfx, safePlay, isRunning. cbn.
  destruct se, ru; cbn; rewrite <- ?app_assoc; reflexivity.
Qed.

Lemma checkAnswer_correct_effects : forall w,
  parseAnswer (Some (answerValue w)) = PNum (currentAnswer (state w)) ->
  since w (checkAnswer w)
  = correctEffects w
    ++ [FxRetrigger NFormula ["flash-ok"; "scan"]%string]
    ++ (if soundEnabled (state w) then [FxPlay correctSound] else []).
Proof.
  intros w Hp. rewrite (checkAnswer_correct w Hp). apply since_app.
  pose proof (updateOnCorrect_effects w) as He.
  pose proof (updateOnCorrect_frame w) as Hf.
  assert (Hs : soundEnabled (state (updateOnCorrect w)) = soundEnabled (state w))
    by apply Hf.
  revert He Hs. generalize (correctEffects w). intros l.
  destruct (updateOnCorrect w) as [s' d' ts' n' a' r' e'].
  unfold playCorrectFx, safePlaySfx, safePlay. cbn. intros -> ->.
  destruct (soundEnabled (state w)); cbn; rewrite <- ?app_assoc; reflexivity.
Qed.

Lemma domAfter_app : forall es es' d,
  domAfter (es ++ es') d = domAfter es' (domAfter es d).
Proof. intros. unfold domAfter. apply fold_left_app. Qed.

Lemma domAfter_correctEffects : forall w d n, domAfter (correctEffects w) d n = d n.
Proof.
  intros w d n. unfold correctEffects. cbv zeta.
  destruct (computeBgmStage _ =? _); destruct (Z.rem _ _ =? 0);
    destruct (soundEnabled (state w)); reflexivity.
Qed.

(** X20.  What an answer does to the classes of the page.  A wrong answer
    takes the beat flash classes off the body and the container and leaves
    the formula with "flash-ng", "shake" and "show-retry" as its last
    classes; a correct answer leaves the body and the container alone and
    puts "flash-ok" and "scan" last on the formula.  Neither removes the
    classes the other has set. *)
Theorem answer_feedback_classes : forall w v d,
  parseAnswer (Some (answerValue w)) = PNum v ->
  let d' := domAfter (since w (checkAnswer w)) d in
  (v <> currentAnswer (state w) ->
   d' NBody
   = filter (fun c => negb (ClassList.contains c ["bg-kick"; "scan-snare"]%string))
       (d NBody)
   /\ d' NContainer
      = filter (fun c => negb (ClassList.contains c ["ui-kick"; "ui-snare"]%string))
          (d NContainer)
   /\ d' NFormula
      = filter (fun c =>
                  negb (ClassList.contains c ["flash-ng"; "shake"; "show-retry"]%string))
          (d NFormula)
        ++ ["flash-ng"; "shake"; "show-retry"]%string
   /\ (In "flash-ok"%string (d NFormula) -> In "flash-ok"%string (d' NFormula)))
  /\ (v = currentAnswer (state w) ->
      d' NBody = d NBody
      /\ d' NContainer = d NContainer
      /\ d' NFormula
         = filter (fun c => negb (ClassList.contains c ["flash-ok"; "scan"]%string))
             (d NFormula)
           ++ ["flash-ok"; "scan"]%string
      /\ (In "show-retry"%string (d NFormula) -> In "show-retry"%string (d' NFormula))).
Proof.
  intros w v d Hp. cbv zeta. split.
  - intros Hne. rewrite (checkAnswer_wrong_effects w v Hp Hne).
    assert (Hnd : NoDup ["flash-ng"; "shake"; "show-retry"]%string)
      by (repeat constructor; cbn; intuition discriminate).
    assert (E : forall n,
      domAfter
        ([FxRemoveClasses NBody ["bg-kick"; "scan-snare"]%string;
          FxRemoveClasses NContainer ["ui-kick"; "ui-snare"]%string;
          FxCorrectTotalText 0; FxDrumLevelLabel "KICK"; FxRetryText;
          FxRetrigger NFormula ["flash-ng"; "shake"; "show-retry"]%string]
         ++ (if soundEnabled (state w) then [FxPlay wrongSound] else [])
         ++ [FxFocus; FxSelect]) d n
      = retriggerClasses NFormula ["flash-ng"; "shake"; "show-retry"]%string
          (fold_left (fun d cn => onNode NContainer (ClassList.remove cn) d)
             ["ui-kick"; "ui-snare"]%string
             (fold_left (fun d cn => onNode NBody (ClassList.remove cn) d)
                ["bg-kick"; "scan-snare"]%string d)) n).
    { intros n. destruct (soundEnabled (state w)); reflexivity. }
    rewrite !E.
    rewrite !retriggerClasses_other by discriminate.
    rewrite (retriggerClasses_target _ _ _ Hnd), !onNode_fold, !removeAll_filter.
    cbn [Node_eqb]. repeat split; try reflexivity.
    intros Hin. apply in_or_app. left. apply filter_In. split; [exact Hin | reflexivity].
  - intros ->. rewrite (checkAnswer_correct_effects w Hp).
    assert (Hnd : NoDup ["flash-ok"; "scan"]%string)
      by (repeat constructor; cbn; intuition discriminate).
    assert (E : forall n,
      domAfter
        (correctEffects w
         ++ [FxRetrigger NFormula ["flash-ok"; "scan"]%string]
         ++ (if soundEnabled (state w) then [FxPlay correctSound] else [])) d n
      = retriggerClasses NFormula ["flash-ok"; "scan"]%string
          (domAfter (correctEffects w) d) n).
    { intros n. rewrite domAfter_app. destruct (soundEnabled (state w)); reflexivity. }
    rewrite !E.
    rewrite !retriggerClasses_other by discriminate.
    rewrite (retriggerClasses_target _ _ _ Hnd), !domAfter_correctEffects.
    repeat split; try reflexivity.
    intros Hin. apply in_or_app. left. apply filter_In. split; [exact Hin | reflexivity].
Qed.

Lemma answer_feedback_classes_witness :
  domAfter (since wrongWorld (checkAnswer wrongWorld))
    (fun _ => ["bg-kick"; "flash-ok"]%string) NBody
  = ["flash-ok"%string].
Proof.
  apply (answer_feedback_classes wrongWorld 5 (fun _ => ["bg-kick"; "flash-ok"]%string)).
  - reflexivity.
  - vm_compute. discriminate.
Defined.

(** ** The two switches *)

Lemma lookahead_state : forall w,
  EngineInv w -> running (drum w) = false ->
  timerId (drum w) = None /\ uiPulseTimer (drum w) = None.
Proof.
  intros w (_ & E2 & _ & _ & E5) Hr. rewrite Hr in E2, E5.
  destruct (timerId (drum w)); [discriminate|].
  destruct (uiPulseTimer (drum w)); [destruct E5; discriminate|]. split; reflexivity.
Qed.

(** X21.  The SFX switch gates every sample of the answer feedback.  With
    SFX off no check plays a sample.  With SFX on, an invalid input plays
    none, a wrong answer plays the wrong sound alone, and a correct answer
    plays the variation cue if the variation changed, then the stage-clear
    cue if the stage was cleared, then the correct sound. *)
Theorem sfx_switch_gates_feedback_samples : forall w,
  let heard := plays (since w (checkAnswer w)) in
  (soundEnabled (state w) = false -> heard = [])
  /\ (soundEnabled (state w) = true ->
      heard
      = match parseAnswer (Some (answerValue w)) with
        | PNull | PNaN => []
        | PNum v =>
            if v =? currentAnswer (state w)
            then
              (if computeBgmStage (stageCorrect (state w) + 1) =? bgmStage (state w)
               then [] else [FxPlay bgmSwitchSound])
              ++ (if Z.rem (correctTotal (state w) + 1) SETTINGS.stageClearEveryCorrect
                     =? 0
                  then [FxPlay stageClearSound] else [])
              ++ [FxPlay correctSound]
            else [FxPlay wrongSound]
        end).
Proof.
  intros w. cbv zeta.
  assert (Hinv : parseAnswer (Some (answerValue w)) = PNull
                 \/ parseAnswer (Some (answerValue w)) = PNaN ->
                 plays (since w (checkAnswer w)) = []).
  { intros H. rewrite (checkAnswer_invalid w H).
    rewrite (since_app w _ [FxFocus; FxSelect]); [reflexivity|].
    destruct w. cbn. rewrite <- app_assoc. reflexivity. }
  destruct (parseAnswer (Some (answerValue w))) as [| | v] eqn:Hp.
  - split; intros _; apply Hinv; tauto.
  - split; intros _; apply Hinv; tauto.
  - destruct (Z.eqb_spec v (currentAnswer (state w))) as [-> | Hne].
    + rewrite (checkAnswer_correct_effects w Hp). unfold correctEffects. cbv zeta.
      split; intros ->;
        destruct (computeBgmStage _ =? _); destruct (Z.rem _ _ =? 0); reflexivity.
    + rewrite (checkAnswer_wrong_effects w v Hp Hne).
      split; intros ->; reflexivity.
Qed.

(** X22.  The SFX switch: a click flips [soundEnabled] and shows the next
    action on the button; switching on plays the variation cue once to
    prime the audio, switching off plays nothing; a second click restores
    the state, and neither click touches the engine or the timers. *)
Theorem sound_toggle_round_trip : forall w,
  let w1 := soundToggleClick w in
  let w2 := soundToggleClick w1 in
  soundEnabled (state w1) = negb (soundEnabled (state w))
  /\ since w w1
     = (if soundEnabled (state w)
        then [FxSoundToggleText "SFX ON"]
        else [FxSoundToggleText "SFX OFF"; FxPlay bgmSwitchSound])
  /\ state w2 = state w
  /\ drum w2 = drum w /\ timers w2 = timers w /\ answerValue w2 = answerValue w
  /\ List.length (plays (since w w2)) = 1%nat.
Proof.
  intros w. cbv zeta.
  destruct w as [s d ts n a r e]. destruct s as [ca ct sc ds dl bs ms st bc se df].
  unfold soundToggleClick, renderSoundToggle, safePlay, since. cbn.
  destruct se; cbn; rewrite <- ?app_assoc, ?skipn_app, ?skipn_all, ?Nat.sub_diag;
    cbn; repeat split; reflexivity.
Qed.

Lemma dropTimer_fresh : forall ts n t,
  TimersOk ts n -> tid t = n -> dropTimer n (ts ++ [t]) = ts.
Proof.
  intros ts n t [_ Hlt] Hid. unfold dropTimer. rewrite filter_app. cbn.
  rewrite Hid, Nat.eqb_refl. cbn. rewrite app_nil_r. apply filter_all.
  intros x Hx. rewrite Forall_forall in Hlt. specialize (Hlt x Hx).
  destruct (Nat.eqb_spec (tid x) n); [lia | reflexivity].
Qed.

(** X23.  The BGM switch, from a reachable world with the engine stopped:
    a click starts the engine, with one lookahead interval of 40 ms added
    under a fresh handle and the first step due 50 ms later; a second
    click stops it and leaves the pending timers and the game state as
    they were before the first; the button shows the next action each
    time. *)
Theorem bgm_toggle_round_trip : forall w now now',
  reachable w -> running (drum w) = false ->
  let w1 := drumToggleClick now w in
  let w2 := drumToggleClick now' w1 in
  running (drum w1) = true
  /\ timers w1 = timers w ++ [mkTimer (nextTimerId w) SETTINGS.lookaheadMs CbTick]
  /\ timerId (drum w1) = Some (nextTimerId w)
  /\ nextTime (drum w1) = (now + (5 # 100))%Q
  /\ running (drum w2) = false
  /\ timers w2 = timers w
  /\ state w2 = state w
  /\ since w w2 = [FxDrumToggleText "BGM OFF"; FxDrumToggleText "BGM ON"].
Proof.
  intros w now now' H Hr.
  pose proof (reachable_full w H) as ((_ & Hti & _) & _ & He).
  pose proof (lookahead_state w He Hr) as (Hid & Hup).
  destruct He as (_ & _ & _ & Hn & _).
  cbv zeta. unfold TimersInv in Hti.
  destruct w as [s d ts n a r e]. destruct d as [ac ti ru nt up uh].
  cbn in Hr, Hid, Hup, Hti, Hn. subst ru ti up.
  unfold drumToggleClick, start, stop, isRunning, clearTimer, since. cbn.
  destruct (Nat.eqb_spec n 0) as [-> | _]; [lia|]. cbn.
  rewrite (dropTimer_fresh ts n (mkTimer n _ CbTick) Hti eq_refl).
  rewrite <- app_assoc, skipn_app, skipn_all, Nat.sub_diag.
  repeat split; reflexivity.
Qed.

Lemma bgm_toggle_round_trip_witness :
  timers (drumToggleClick 1 (drumToggleClick 0 paddedWorld)) = timers paddedWorld.
Proof.
  apply (bgm_toggle_round_trip paddedWorld 0%Q 1%Q).
  - unfold paddedWorld. cbn [run fold_left]. apply reach_step, reach_boot.
  - reflexivity.
Defined.
